(** * Nexus: neural key exchange over Tree Parity Machines

  A shallow embedding of the Python backend ([backend/app]) and the
  properties of its specification.

  - [Py]: the fragment of Python/numpy semantics the code relies on
    (exceptions, in-place mutation of [self], int64 arrays);
  - [TreeParityMachine]: [neural/tpm.py];
  - later modules follow the remaining source files. *)

From Stdlib Require Import ZArith List Lia Bool QArith Qfield Lqa.
From Stdlib.Strings Require Import Byte Ascii String.
From stdpp Require Import base option list strings gmap.

Local Open Scope Z_scope.

(** ** Python and numpy conventions *)

Module Py.

(** Exceptions the modelled code can raise. *)
Inductive exn : Type :=
| IndexError      (* sequence index out of range *)
| ValueError      (* numpy shape mismatch, bad randint bounds, "Session is full" *)
| KeyError
| RuntimeError    (* "Already synchronized" *)
| SendError       (* a websocket send on a dead channel *)
| OverflowError.  (* the counter of AES-CTR would repeat *)

Inductive result (A : Type) : Type :=
| Ok (a : A)
| Raise (e : exn).
Arguments Ok {A} a.
Arguments Raise {A} e.

#[global] Instance result_ret : MRet result := @Ok.
#[global] Instance result_bind : MBind result :=
  λ A B f m, match m with Ok a => f a | Raise e => Raise e end.

(** A method that mutates [self] (or any store [S]) and may raise: the
    store is threaded through and survives an exception, as the
    partially mutated object does in Python. *)
Definition M (S A : Type) : Type := S → result A * S.

#[global] Instance M_ret {S} : MRet (M S) := λ A a s, (Ok a, s).
#[global] Instance M_bind {S} : MBind (M S) :=
  λ A B f m s, match m s with
               | (Ok a, s') => f a s'
               | (Raise e, s') => (Raise e, s')
               end.

Definition get {S} : M S S := λ s, (Ok s, s).
Definition put {S} (s : S) : M S unit := λ _, (Ok tt, s).
Definition modify {S} (f : S → S) : M S unit := λ s, (Ok tt, f s).
Definition raise {S A} (e : exn) : M S A := λ s, (Raise e, s).
Definition lift {S A} (r : result A) : M S A := λ s, (r, s).

(** [try: m except Exception: handler] *)
Definition try_except {S A} (m : M S A) (handler : exn → M S A) : M S A :=
  λ s, match m s with
       | (Ok a, s') => (Ok a, s')
       | (Raise e, s') => handler e s'
       end.

(** Run a method of one object inside a larger store. *)
Definition zoom {S T A} (proj : S → T) (upd : T → S → S) (m : M T A) : M S A :=
  λ s, let '(r, t) := m (proj s) in (r, upd t s).

(** [for x in xs: body x] *)
Fixpoint for_each {S A} (xs : list A) (body : A → M S unit) : M S unit :=
  match xs with
  | [] => mret tt
  | x :: xs' => body x ≫= λ _, for_each xs' body
  end.

(** [range(n)] *)
Definition range (n : nat) : list nat := seq 0 n.

(** [l[i]] on a sequence or the first axis of an array. *)
Definition getitem {A} (l : list A) (i : nat) : result A :=
  match l !! i with
  | Some a => Ok a
  | None => Raise IndexError
  end.

(** [l[start:stop]] with Python's treatment of negative and
    out-of-range bounds; [None] is an omitted bound. *)
Definition slice_index (len : nat) (i : Z) : nat :=
  if decide (i < 0) then Z.to_nat (Z.max 0 (Z.of_nat len + i))
  else Z.to_nat (Z.min i (Z.of_nat len)).

Definition py_slice {A} (start stop : option Z) (l : list A) : list A :=
  let n := length l in
  let s := from_option (slice_index n) 0%nat start in
  let e := from_option (slice_index n) n stop in
  take (e - s) (drop s l).

(** *** int64 arithmetic

    [np.random.randint] and [np.random.choice([-1, 1])] produce arrays
    of dtype int64; numpy integer arithmetic wraps silently. *)
Definition wrap64 (z : Z) : Z := (z + 2 ^ 63) mod 2 ^ 64 - 2 ^ 63.
Definition i64_add (a b : Z) : Z := wrap64 (a + b).
Definition i64_sub (a b : Z) : Z := wrap64 (a - b).
Definition i64_mul (a b : Z) : Z := wrap64 (a * b).
Definition i64_abs (a : Z) : Z := wrap64 (Z.abs a).

(** Elementwise binary operation on two 1-d arrays.  numpy raises
    [ValueError] when the shapes do not agree (broadcasting of a
    length-1 operand is outside the documented shapes and not modelled). *)
Definition elementwise (f : Z → Z → Z) (a b : list Z) : result (list Z) :=
  if decide (length a = length b) then Ok (zip_with f a b)
  else Raise ValueError.

(** Elementwise binary operation on two 2-d arrays. *)
Fixpoint elementwise2 (f : Z → Z → Z) (a b : list (list Z))
  : result (list (list Z)) :=
  match a, b with
  | [], [] => Ok []
  | ra :: a', rb :: b' =>
      r ← elementwise f ra rb;
      rest ← elementwise2 f a' b';
      Ok (r :: rest)
  | _, _ => Raise ValueError
  end.

(** [np.abs(a - b)] *)
Definition abs_diff (a b : list (list Z)) : result (list (list Z)) :=
  d ← elementwise2 i64_sub a b;
  Ok (map (map i64_abs) d).

(** [row * s] for an int scalar [s]. *)
Definition scale (row : list Z) (s : Z) : list Z :=
  (λ x, i64_mul x s) <$> row.

(** [np.clip(x, lo, hi)] is [minimum(maximum(x, lo), hi)]. *)
Definition clip1 (lo hi x : Z) : Z := Z.min (Z.max x lo) hi.
Definition np_clip (row : list Z) (lo hi : Z) : list Z := clip1 lo hi <$> row.

(** [np.sum] of a 1-d int64 array. *)
Definition np_sum (row : list Z) : Z := fold_left i64_add row 0.
(** [np.prod] *)
Definition np_prod (row : list Z) : Z := fold_left i64_mul row 1.

(** [np.random.randint(low, high)] given the raw entropy [raw] the
    generator consumes for this draw: some integer of [[low, high)];
    [ValueError] when the interval is empty or leaves int64. *)
Definition randint (low high raw : Z) : result Z :=
  if decide (low < high ∧ - 2 ^ 63 ≤ low ∧ high ≤ 2 ^ 63)
  then Ok (low + raw mod (high - low))
  else Raise ValueError.

End Py.
Import Py.


(** ** Byte strings and hashlib *)

Module Bytes.

(** Python [bytes]. *)
Definition bytes : Type := list byte.

#[global] Instance byte_eq_dec : EqDecision byte.
Proof.
  intros a b. destruct (Byte.eqb a b) eqn:E.
  - left. now apply Byte.byte_dec_bl.
  - right. intros ->. now rewrite Byte.byte_dec_lb in E.
Defined.

Definition to_Z (b : byte) : Z := Z.of_N (Byte.to_N b).

(** The byte with value [z mod 256]. *)
Definition of_Z (z : Z) : byte :=
  match Byte.of_N (Z.to_N (z mod 256)) with
  | Some b => b
  | None => x00
  end.

(** The [n] low-order bytes of [z], least significant first. *)
Fixpoint le_bytes (n : nat) (z : Z) : bytes :=
  match n with
  | O => []
  | S n' => of_Z (Z.land z 255) :: le_bytes n' (Z.shiftr z 8)
  end.

(** The [n] low-order bytes of [z], most significant first. *)
Definition be_bytes (n : nat) (z : Z) : bytes := rev (le_bytes n z).

(** The unsigned value of a big-endian byte string. *)
Definition be_to_Z (bs : bytes) : Z :=
  fold_left (λ acc b, acc * 256 + to_Z b) bs 0.

(** [bs.hex()]: two lower-case hexadecimal digits per byte. *)
Definition hex_digit (d : Z) : ascii :=
  ascii_of_nat (Z.to_nat (if decide (d < 10) then 48 + d else 87 + d)).

Definition hex (bs : bytes) : list ascii :=
  b ← bs; [hex_digit (to_Z b / 16); hex_digit (to_Z b mod 16)].

(** [c.upper()] on an ASCII character. *)
Definition upper (c : ascii) : ascii :=
  let n := nat_of_ascii c in
  if decide (97 ≤ n ≤ 122)%nat then ascii_of_nat (n - 32) else c.

End Bytes.
Import Bytes.

(** [hashlib.sha256] (FIPS 180-4), on 32-bit words held in [Z]. *)
Module hashlib.

Definition add32 (a b : Z) : Z := (a + b) mod 2 ^ 32.
Definition rotr (n x : Z) : Z :=
  Z.lor (Z.shiftr x n) (Z.shiftl x (32 - n) mod 2 ^ 32).
Definition shr (n x : Z) : Z := Z.shiftr x n.
Definition not32 (x : Z) : Z := Z.lxor x 0xffffffff.

Definition Ch (x y z : Z) : Z := Z.lxor (Z.land x y) (Z.land (not32 x) z).
Definition Maj (x y z : Z) : Z :=
  Z.lxor (Z.lxor (Z.land x y) (Z.land x z)) (Z.land y z).
Definition Sigma0 (x : Z) : Z := Z.lxor (Z.lxor (rotr 2 x) (rotr 13 x)) (rotr 22 x).
Definition Sigma1 (x : Z) : Z := Z.lxor (Z.lxor (rotr 6 x) (rotr 11 x)) (rotr 25 x).
Definition sigma0 (x : Z) : Z := Z.lxor (Z.lxor (rotr 7 x) (rotr 18 x)) (shr 3 x).
Definition sigma1 (x : Z) : Z := Z.lxor (Z.lxor (rotr 17 x) (rotr 19 x)) (shr 10 x).

(** The constants of FIPS 180-4 are defined from the primes: the
    first 32 bits of the fractional parts of the cube roots of the
    first 64 primes (round constants) and of the square roots of the
    first 8 primes (initial hash value). *)
Definition is_prime (p : nat) : bool :=
  forallb (λ d, negb (p mod d =? 0)%nat) (seq 2 (p - 2)).

Definition primes : list Z :=
  Eval vm_compute in Z.of_nat <$> filter is_prime (seq 2 310).

(** The integer cube root, one bit at a time from bit [bits - 1] down. *)
Fixpoint cube_root (bits : nat) (r n : Z) : Z :=
  match bits with
  | O => r
  | S b =>
      let r' := r + 2 ^ Z.of_nat b in
      cube_root b (if decide (r' ^ 3 ≤ n) then r' else r) n
  end.

Definition K256 : list Z :=
  Eval vm_compute in
    (λ p, cube_root 36 0 (p * 2 ^ 96) mod 2 ^ 32) <$> primes.

Definition state : Type := Z * Z * Z * Z * Z * Z * Z * Z.

Definition H0 : state :=
  Eval vm_compute in
    let h (p : Z) := Z.sqrt (p * 2 ^ 64) mod 2 ^ 32 in
    (h 2, h 3, h 5, h 7, h 11, h 13, h 17, h 19).

(** Padding: a one bit, zeros, and the bit length on 64 bits. *)
Definition pad (msg : bytes) : bytes :=
  let len := Z.of_nat (length msg) in
  msg ++ [x80] ++ replicate (Z.to_nat ((55 - len) mod 64)) x00
      ++ be_bytes 8 (8 * len).

(** Cut a byte string into [n] blocks of [size] bytes. *)
Fixpoint blocks (size n : nat) (bs : bytes) : list bytes :=
  match n with
  | O => []
  | S n' => take size bs :: blocks size n' (drop size bs)
  end.

(** The message schedule: 16 words of the block, extended to 64. *)
Fixpoint extend (n : nat) (w : list Z) : list Z :=
  match n with
  | O => w
  | S n' =>
      let t := length w in
      let at_ (i : nat) := nth (t - i)%nat w 0 in
      extend n' (w ++ [add32 (add32 (sigma1 (at_ 2%nat)) (at_ 7%nat))
                             (add32 (sigma0 (at_ 15%nat)) (at_ 16%nat))])
  end.

Definition schedule (block : bytes) : list Z :=
  extend 48 (be_to_Z <$> blocks 4 16 block).

Definition round (s : state) (kw : Z * Z) : state :=
  let '(a, b, c, d, e, f, g, h) := s in
  let '(k, w) := kw in
  let T1 := add32 (add32 (add32 (add32 h (Sigma1 e)) (Ch e f g)) k) w in
  let T2 := add32 (Sigma0 a) (Maj a b c) in
  (add32 T1 T2, a, b, c, add32 d T1, e, f, g).

Definition compress (s : state) (block : bytes) : state :=
  let '(a, b, c, d, e, f, g, h) := s in
  let '(a', b', c', d', e', f', g', h') :=
    fold_left round (zip K256 (schedule block)) s in
  (add32 a a', add32 b b', add32 c c', add32 d d',
   add32 e e', add32 f f', add32 g g', add32 h h').

Definition digest_of (s : state) : bytes :=
  let '(a, b, c, d, e, f, g, h) := s in
  be_bytes 4 a ++ be_bytes 4 b ++ be_bytes 4 c ++ be_bytes 4 d ++
  be_bytes 4 e ++ be_bytes 4 f ++ be_bytes 4 g ++ be_bytes 4 h.

(** [hashlib.sha256(msg).digest()] *)
Definition sha256 (msg : bytes) : bytes :=
  let padded := pad msg in
  digest_of (fold_left compress (blocks 64 (length padded / 64) padded) H0).

End hashlib.

(** ** neural/tpm.py *)

Inductive LearningRule : Type := hebbian | anti_hebbian | random_walk.

#[global] Instance LearningRule_eq_dec : EqDecision LearningRule.
Proof. solve_decision. Defined.

Module TreeParityMachine.

Record t : Type := mk {
  K : nat;                    (* hidden neurons *)
  N : nat;                    (* inputs per hidden neuron *)
  L : Z;                      (* weight bound *)
  weights : list (list Z)     (* K rows of N int64 weights *)
}.

Definition set_weights (self : t) (w : list (list Z)) : t :=
  {| K := K self; N := N self; L := L self; weights := w |}.

(** [TreeParityMachine(K, N, L)]:
    [self.weights = np.random.randint(-L, L + 1, size=(K, N))];
    [draw k n] is the entropy consumed for entry [(k, n)]. *)
Definition __init__ (K N : nat) (L : Z) (draw : nat → nat → Z) : result t :=
  _ ← randint (- L) (L + 1) 0;
  Ok {| K := K; N := N; L := L;
        weights := (λ k, (λ n, - L + draw k n mod (L + 1 - - L)) <$> range N)
                     <$> range K |}.

(** [compute_output(X)] *)
Definition compute_output (self : t) (X : list (list Z))
  : result (Z * list Z) :=
  prod ← elementwise2 i64_mul X (weights self);
  let local_fields := np_sum <$> prod in
  let sigma := Z.sgn <$> local_fields in
  let sigma := (λ s, if decide (s = 0) then 1 else s) <$> sigma in
  let tau := np_prod sigma in
  Ok (tau, sigma).

(** [self.weights[k] = row] *)
Definition setitem_weights (k : nat) (row : list Z) : M t unit :=
  modify (λ self, set_weights self (<[k := row]> (weights self))).

(** The body of [for k in range(self.K)] in [update_weights]. *)
Definition update_neuron (X : list (list Z)) (tau : Z) (sigma : list Z)
    (rule : LearningRule) (k : nat) : M t unit :=
  s ← lift (getitem sigma k);
  if decide (s = tau) then
    self ← get;
    wk ← lift (getitem (weights self) k);
    xk ← lift (getitem X k);
    w1 ← lift (match rule with
               | hebbian => elementwise i64_add wk (scale xk s)
               | anti_hebbian => elementwise i64_sub wk (scale xk s)
               | random_walk => elementwise i64_add wk xk
               end);
    _ ← setitem_weights k w1;
    setitem_weights k (np_clip w1 (- L self) (L self))
  else mret tt.

(** [update_weights(X, tau_self, tau_other, sigma, rule)] *)
Definition update_weights (X : list (list Z)) (tau_self tau_other : Z)
    (sigma : list Z) (rule : LearningRule) : M t bool :=
  if decide (tau_self ≠ tau_other) then mret false
  else
    let tau := tau_self in
    self ← get;
    _ ← for_each (range (K self)) (update_neuron X tau sigma rule);
    mret true.

(** [self.weights.astype(np.int32)]: a C cast of each int64 entry. *)
Definition wrap32 (z : Z) : Z := (z + 2 ^ 31) mod 2 ^ 32 - 2 ^ 31.
Definition astype_int32 (w : list (list Z)) : list (list Z) :=
  map (map wrap32) w.

(** [a.tobytes()] of an int32 array: the entries in C (row-major)
    order, four bytes each in the byte order of the machine
    (little-endian on x86-64 and AArch64). *)
Definition tobytes (w : list (list Z)) : bytes :=
  x ← concat w; le_bytes 4 x.

(** [get_key(length)] *)
Definition get_key (self : t) (length : Z) : bytes :=
  let weight_bytes := tobytes (astype_int32 (weights self)) in
  py_slice None (Some length) (hashlib.sha256 weight_bytes).

(** [get_key_hex()] *)
Definition get_key_hex (self : t) : list ascii := hex (get_key self 32).

(** *** Well-formedness

    The shape [(K, N)] of the weight array and the bound [[-L, L]] on
    its entries. *)
Definition shaped (K N : nat) (w : list (list Z)) : Prop :=
  length w = K ∧ Forall (λ row, length row = N) w.

Definition bounded (L : Z) (w : list (list Z)) : Prop :=
  Forall (Forall (λ x, - L ≤ x ≤ L)) w.

(** An input [X ∈ {-1, +1}^(K×N)]. *)
Definition is_input (K N : nat) (X : list (list Z)) : Prop :=
  shaped K N X ∧ Forall (Forall (λ x, x = -1 ∨ x = 1)) X.

Definition wf (self : t) : Prop :=
  shaped (K self) (N self) (weights self) ∧
  0 ≤ L self ∧ bounded (L self) (weights self).

(** A machine of a session configured with [(k, n, l)]. *)
Definition fits (k n : nat) (l : Z) (self : t) : Prop :=
  K self = k ∧ N self = n ∧ L self = l ∧ wf self.

#[global] Instance shaped_dec K N w : Decision (shaped K N w).
Proof. unfold shaped. apply _. Defined.
#[global] Instance bounded_dec L w : Decision (bounded L w).
Proof. unfold bounded. apply _. Defined.
#[global] Instance is_input_dec K N X : Decision (is_input K N X).
Proof. unfold is_input. apply _. Defined.
#[global] Instance wf_dec self : Decision (wf self).
Proof. unfold wf. apply _. Defined.
#[global] Instance fits_dec k n l self : Decision (fits k n l self).
Proof. unfold fits. apply _. Defined.

End TreeParityMachine.

Abbreviation TPM := TreeParityMachine.t.

(** *** The key derivation in the words of the specification

  "[key = SHA-256(serialize(W))[:length]], where [serialize] emits each
  weight as a little-endian 32-bit signed integer in row-major order."
  These definitions follow that sentence and are compared with
  [TreeParityMachine.get_key] below. *)
Module KeyDerivation.

(** The four bytes of the two's complement representation of [w] on 32
    bits, least significant first. *)
Definition le_int32 (w : Z) : bytes :=
  let u := w mod 2 ^ 32 in
  [of_Z (u mod 256); of_Z (u / 256 mod 256);
   of_Z (u / 65536 mod 256); of_Z (u / 16777216 mod 256)].

(** The signed integer four little-endian bytes stand for. *)
Definition le_int32_value (bs : bytes) : Z :=
  let u := fold_right (λ b acc, to_Z b + 256 * acc) 0 bs in
  if decide (u < 2 ^ 31) then u else u - 2 ^ 32.

(** Rows in order, the entries of each row in order. *)
Definition serialize (W : list (list Z)) : bytes :=
  w ← concat W; le_int32 w.

Definition key (W : list (list Z)) (length : nat) : bytes :=
  take length (hashlib.sha256 (serialize W)).

End KeyDerivation.

(** ** neural/sync.py *)

Module NeuralSyncProtocol.

Import TreeParityMachine.

Record SyncState : Type := mk_state {
  round : nat;
  agreements : nat;
  is_synced : bool;
  key_hash : option (list ascii)
}.

Record SyncRoundResult : Type := mk_result {
  result_round : nat;
  input_seed : Z;
  tau_a : Z;
  tau_b : Z;
  agreed : bool;
  sync_progress : Q;
  weights_match : bool
}.

Record t : Type := mk {
  K : nat;
  N : nat;
  L : Z;
  learning_rule : LearningRule;
  max_rounds : nat;
  tpm_a : TPM;
  tpm_b : TPM;
  state : SyncState
}.

Definition set_tpm_a (v : TPM) (p : t) : t :=
  mk (K p) (N p) (L p) (learning_rule p) (max_rounds p) v (tpm_b p) (state p).
Definition set_tpm_b (v : TPM) (p : t) : t :=
  mk (K p) (N p) (L p) (learning_rule p) (max_rounds p) (tpm_a p) v (state p).
Definition set_state (v : SyncState) (p : t) : t :=
  mk (K p) (N p) (L p) (learning_rule p) (max_rounds p) (tpm_a p) (tpm_b p) v.

(** [np.mean] of a 2-d int64 array (accumulated in binary64, so the
    sum does not wrap); the model keeps the exact rational. *)
Definition np_mean2 (m : list (list Z)) : Q :=
  let sum := foldr Z.add 0 (concat m) in
  let count := Z.of_nat (length (concat m)) in
  (inject_Z sum / inject_Z count)%Q.

(** [min(p, c)] on floats *)
Definition min_ (p c : Q) : Q := if Qlt_le_dec c p then c else p.

(** [_calculate_progress()].  For [K·N = 0] or [L = 0] the source
    divides by zero (numpy yields nan); the model is meant for
    [K·N > 0] and [L > 0]. *)
Definition _calculate_progress (self : t) : result Q :=
  if decide (round (state self) = 0%nat) then Ok 0%Q
  else
    let agreement_rate :=
      (inject_Z (Z.of_nat (agreements (state self)))
       / inject_Z (Z.of_nat (round (state self))))%Q in
    weight_diff ← abs_diff (weights (tpm_a self)) (weights (tpm_b self));
    let max_diff := L self * 2 in
    let similarity := (1 - np_mean2 weight_diff / inject_Z max_diff)%Q in
    let progress := (agreement_rate * (3 # 10) + similarity * (7 # 10))%Q in
    Ok (if is_synced (state self) then 1%Q else min_ progress (99 # 100)).

(** [run_round(X)] for a given input [X]; [seed] is the integer the
    method draws from its generator. *)
Definition run_round (X : list (list Z)) (seed : Z) : M t SyncRoundResult :=
  self ← get;
  if is_synced (state self) then raise RuntimeError
  else
    '(tau_a, sigma_a) ← lift (compute_output (tpm_a self) X);
    '(tau_b, sigma_b) ← lift (compute_output (tpm_b self) X);
    let agreed := bool_decide (tau_a = tau_b) in
    _ ← (if agreed then
           modify (λ p, set_state (mk_state (round (state p))
                                     (agreements (state p) + 1)
                                     (is_synced (state p))
                                     (key_hash (state p))) p)
         else mret tt : M t unit);
    _ ← zoom tpm_a set_tpm_a
          (update_weights X tau_a tau_b sigma_a (learning_rule self));
    _ ← zoom tpm_b set_tpm_b
          (update_weights X tau_b tau_a sigma_b (learning_rule self));
    self ← get;
    let weights_match :=
      bool_decide (weights (tpm_a self) = weights (tpm_b self)) in
    _ ← (if weights_match then
           modify (set_state
                     (mk_state (round (state self)) (agreements (state self)) true
                        (Some (py_slice None (Some 16)
                                 (hex (get_key (tpm_a self) 32))))))
         else mret tt : M t unit);
    _ ← modify (λ p, set_state (mk_state (round (state p) + 1)
                                  (agreements (state p))
                                  (is_synced (state p))
                                  (key_hash (state p))) p);
    self ← get;
    sync_progress ← lift (_calculate_progress self);
    mret {| result_round := round (state self);
            input_seed := seed;
            tau_a := tau_a;
            tau_b := tau_b;
            agreed := agreed;
            sync_progress := sync_progress;
            weights_match := weights_match |}.

(** [NeuralSyncProtocol(K, N, L, learning_rule, max_rounds)];
    [draw_a] and [draw_b] are the entropy of the two machines. *)
Definition __init__ (K N : nat) (L : Z) (learning_rule : LearningRule)
    (max_rounds : nat) (draw_a draw_b : nat → nat → Z) : result t :=
  a ← TreeParityMachine.__init__ K N L draw_a;
  b ← TreeParityMachine.__init__ K N L draw_b;
  Ok (mk K N L learning_rule max_rounds a b (mk_state 0 0 false None)).

(** [generate_input(seed)]:
    [rng.integers(0, 2, size=(K, N)) * 2 - 1], where [bits k n] is
    what the generator yields for entry [(k, n)] before it is reduced
    to [{0, 1}]. *)
Definition generate_input (self : t) (bits : nat → nat → Z) : list (list Z) :=
  (λ k, (λ n, i64_sub (i64_mul (bits k n mod 2) 2) 1) <$> range (N self))
    <$> range (K self).

(** The entropy of one round run without an input: the seed drawn
    from the protocol's generator and the bits the generator made
    from that seed yields. *)
Definition entropy : Type := Z * (nat → nat → Z).

(** [run_round()] *)
Definition run_round_generated (e : entropy) : M t SyncRoundResult :=
  self ← get;
  let seed := e.1 mod 2 ^ 31 in
  run_round (generate_input self e.2) seed.

(** The loop of [run_full_sync].  Every iteration that returns adds
    one to [state.round], so [max_rounds - state.round] iterations
    are all the loop can make; [es i] is the entropy of the
    iteration entered with [state.round = i]. *)
Fixpoint full_sync_loop (n : nat) (es : nat → entropy) : M t unit :=
  match n with
  | O => mret tt
  | S n' =>
      self ← get;
      if negb (is_synced (state self))
         && bool_decide (round (state self) < max_rounds self)%nat then
        _ ← run_round_generated (es (round (state self)));
        full_sync_loop n' es
      else mret tt
  end.

(** [run_full_sync()] *)
Definition run_full_sync (es : nat → entropy) : M t (bool * nat * bytes) :=
  self ← get;
  _ ← full_sync_loop (max_rounds self - round (state self)) es;
  self ← get;
  mret (is_synced (state self), round (state self),
        if is_synced (state self) then get_key (tpm_a self) 32 else []).

(** [get_keys()] *)
Definition get_keys (self : t) : bytes * bytes :=
  (get_key (tpm_a self) 32, get_key (tpm_b self) 32).

End NeuralSyncProtocol.

(** ** Text and transfer encodings (Python's [str.encode], [bytes.decode]
  and [base64]) *)

Module codecs.

(** A Python [str]: the sequence of its code points. *)
Definition str : Type := list Z.

(** One code point in UTF-8.  A surrogate raises [UnicodeEncodeError],
    which is a [ValueError]; the last case cannot arise for a [str]. *)
Definition encode_char (c : Z) : result bytes :=
  if decide (c < 0) then Raise ValueError
  else if decide (c < 128) then Ok [of_Z c]
  else if decide (c < 2048) then
    Ok [of_Z (192 + c / 64); of_Z (128 + c mod 64)]
  else if decide (55296 ≤ c < 57344) then Raise ValueError
  else if decide (c < 65536) then
    Ok [of_Z (224 + c / 4096); of_Z (128 + c / 64 mod 64);
        of_Z (128 + c mod 64)]
  else if decide (c < 1114112) then
    Ok [of_Z (240 + c / 262144); of_Z (128 + c / 4096 mod 64);
        of_Z (128 + c / 64 mod 64); of_Z (128 + c mod 64)]
  else Raise ValueError.

(** [s.encode('utf-8')] *)
Fixpoint encode (s : str) : result bytes :=
  match s with
  | [] => Ok []
  | c :: s' =>
      b ← encode_char c;
      bs ← encode s';
      Ok (b ++ bs)
  end.

(** The payload of a continuation byte [10xxxxxx]. *)
Definition continuation (b : byte) : option Z :=
  let x := to_Z b in
  if decide (128 ≤ x < 192) then Some (x - 128) else None.

(** [bs.decode('utf-8')], strict: truncated and overlong sequences,
    surrogates and code points above U+10FFFF raise
    [UnicodeDecodeError], again a [ValueError]. *)
Fixpoint decode (bs : bytes) : result str :=
  match bs with
  | [] => Ok []
  | b0 :: bs1 =>
      let x := to_Z b0 in
      if decide (x < 128) then s ← decode bs1; Ok (x :: s)
      else if decide (x < 194) then Raise ValueError
      else if decide (x < 224) then
        match bs1 with
        | b1 :: bs2 =>
            match continuation b1 with
            | Some y => s ← decode bs2; Ok ((x - 192) * 64 + y :: s)
            | None => Raise ValueError
            end
        | _ => Raise ValueError
        end
      else if decide (x < 240) then
        match bs1 with
        | b1 :: b2 :: bs3 =>
            match continuation b1, continuation b2 with
            | Some y, Some z =>
                let c := ((x - 224) * 64 + y) * 64 + z in
                if decide (2048 ≤ c ∧ ¬ 55296 ≤ c < 57344)
                then s ← decode bs3; Ok (c :: s)
                else Raise ValueError
            | _, _ => Raise ValueError
            end
        | _ => Raise ValueError
        end
      else if decide (x < 245) then
        match bs1 with
        | b1 :: b2 :: b3 :: bs4 =>
            match continuation b1, continuation b2, continuation b3 with
            | Some y, Some z, Some u =>
                let c := (((x - 240) * 64 + y) * 64 + z) * 64 + u in
                if decide (65536 ≤ c < 1114112)
                then s ← decode bs4; Ok (c :: s)
                else Raise ValueError
            | _, _, _ => Raise ValueError
            end
        | _ => Raise ValueError
        end
      else Raise ValueError
  end.

(** The strings [encode] accepts: code points that are Unicode scalar
    values. *)
Definition scalar (c : Z) : Prop :=
  0 ≤ c < 55296 ∨ 57344 ≤ c < 1114112.

#[global] Instance scalar_dec c : Decision (scalar c).
Proof. unfold scalar. apply _. Defined.

End codecs.

Module base64.

Definition alphabet : bytes :=
  list_byte_of_string
    "ABCDEFGHIJKLMNOPQRSTUVWXYZabcdefghijklmnopqrstuvwxyz0123456789+/".

Definition pad : byte := "="%byte.

(** The character of a 6-bit value. *)
Definition char (v : Z) : byte := nth (Z.to_nat v) alphabet pad.

Fixpoint index_of (b : byte) (l : bytes) (i : Z) : option Z :=
  match l with
  | [] => None
  | c :: l' => if decide (c = b) then Some i else index_of b l' (i + 1)
  end.

(** The 6-bit value of a character of the alphabet. *)
Definition value (b : byte) : option Z := index_of b alphabet 0.

(** [base64.b64encode(s)] *)
Fixpoint b64encode (s : bytes) : bytes :=
  match s with
  | [] => []
  | [a] =>
      let a := to_Z a in
      [char (a / 4); char (a mod 4 * 16); pad; pad]
  | [a; b] =>
      let a := to_Z a in
      let b := to_Z b in
      [char (a / 4); char (a mod 4 * 16 + b / 16); char (b mod 16 * 4); pad]
  | a :: b :: c :: s' =>
      let a := to_Z a in
      let b := to_Z b in
      let c := to_Z c in
      [char (a / 4); char (a mod 4 * 16 + b / 16);
       char (b mod 16 * 4 + c / 64); char (c mod 64)] ++ b64encode s'
  end.

(** The loop of [binascii.a2b_base64] when not strict: characters
    outside the alphabet are skipped, a complete run of padding ends
    the input, and an unfinished quad raises [binascii.Error], a
    [ValueError]. *)
Fixpoint a2b_base64 (data : bytes) (quad_pos : nat) (leftchar : Z)
    (pads : nat) (out : bytes) : result bytes :=
  match data with
  | [] => if decide (quad_pos = 0%nat) then Ok out else Raise ValueError
  | this_ch :: data' =>
      if decide (this_ch = pad) then
        if decide (2 ≤ quad_pos ∧ 4 ≤ quad_pos + S pads)%nat then Ok out
        else a2b_base64 data' quad_pos leftchar
               (if decide (2 ≤ quad_pos)%nat then S pads else pads) out
      else
        match value this_ch with
        | None => a2b_base64 data' quad_pos leftchar pads out
        | Some v =>
            match quad_pos with
            | 0%nat => a2b_base64 data' 1 v 0 out
            | 1%nat =>
                a2b_base64 data' 2 (Z.land v 15) 0
                  (out ++ [of_Z (Z.lor (Z.shiftl leftchar 2) (Z.shiftr v 4))])
            | 2%nat =>
                a2b_base64 data' 3 (Z.land v 3) 0
                  (out ++ [of_Z (Z.lor (Z.shiftl leftchar 4) (Z.shiftr v 2))])
            | _ =>
                a2b_base64 data' 0 0 0
                  (out ++ [of_Z (Z.lor (Z.shiftl leftchar 6) v)])
            end
        end
  end.

(** [base64.b64decode(s)] *)
Definition b64decode (s : bytes) : result bytes := a2b_base64 s 0 0 0 [].

End base64.

(** ** AES and its GCM mode ([Crypto.Cipher.AES] of PyCryptodome)

  The block cipher follows FIPS 197, the mode NIST SP 800-38D.  Bytes
  of the cipher state are numbers below 256, blocks of the mode are
  numbers below [2 ^ 128] whose first bit is the most significant. *)

Module AES.

(** *** The field GF(2^8) and the S-box *)

Definition xtime (a : Z) : Z :=
  let d := 2 * a in
  if decide (d < 256) then d else Z.lxor (d - 256) 27.

Fixpoint gf_mul_n (n : nat) (a b : Z) : Z :=
  match n with
  | O => 0
  | S n' => Z.lxor (if Z.odd b then a else 0) (gf_mul_n n' (xtime a) (b / 2))
  end.

Definition gf_mul : Z → Z → Z := gf_mul_n 8.

(** [a ^ 254], the inverse of a non-zero [a]. *)
Definition gf_inv (a : Z) : Z :=
  let a2 := gf_mul a a in
  let a4 := gf_mul a2 a2 in
  let a8 := gf_mul a4 a4 in
  let a16 := gf_mul a8 a8 in
  let a32 := gf_mul a16 a16 in
  let a64 := gf_mul a32 a32 in
  let a128 := gf_mul a64 a64 in
  gf_mul a128 (gf_mul a64 (gf_mul a32 (gf_mul a16 (gf_mul a8 (gf_mul a4 a2))))).

Definition rotl8 (x n : Z) : Z := (x * 2 ^ n) mod 256 + x / 2 ^ (8 - n).

Definition affine (b : Z) : Z :=
  Z.lxor (Z.lxor (Z.lxor (Z.lxor (Z.lxor b (rotl8 b 1)) (rotl8 b 2))
                    (rotl8 b 3)) (rotl8 b 4)) 99.

Definition sbox : list Z :=
  Eval vm_compute in (λ x, affine (gf_inv (Z.of_nat x))) <$> seq 0 256.

Definition sub_byte (x : Z) : Z := nth (Z.to_nat x) sbox 0.

(** *** Key expansion *)

Fixpoint chunks {A} (size n : nat) (l : list A) : list (list A) :=
  match n with
  | O => []
  | S n' => take size l :: chunks size n' (drop size l)
  end.

Definition xor_list : list Z → list Z → list Z := zip_with Z.lxor.

Definition rot_word (w : list Z) : list Z := drop 1 w ++ take 1 w.

Fixpoint rcon (i : nat) : Z :=
  match i with
  | O | 1%nat => 1
  | S i' => xtime (rcon i')
  end.

Fixpoint expand (n nk : nat) (w : list (list Z)) : list (list Z) :=
  match n with
  | O => w
  | S n' =>
      let i := length w in
      let prev := nth (i - 1) w [] in
      let temp :=
        if decide (i mod nk = 0)%nat then
          xor_list (sub_byte <$> rot_word prev) [rcon (i / nk); 0; 0; 0]
        else if decide (6 < nk ∧ i mod nk = 4)%nat then sub_byte <$> prev
        else prev in
      expand n' nk (w ++ [xor_list (nth (i - nk) w []) temp])
  end.

(** The [Nr + 1] round keys of a key of [4 * Nk] bytes, [Nr = Nk + 6]. *)
Definition key_schedule (key : list Z) : list (list Z) :=
  let nk := (length key / 4)%nat in
  let words := expand (4 * (nk + 7) - nk) nk (chunks 4 nk key) in
  (λ ws, concat ws) <$> chunks 4 (nk + 7) words.

(** *** The cipher *)

(** The state is kept column by column, as the input block is. *)
Definition shift_rows (s : list Z) : list Z :=
  (λ i, nth ((i + 4 * (i mod 4)) mod 16) s 0) <$> seq 0 16.

Definition mix_column (c : list Z) : list Z :=
  match c with
  | [a0; a1; a2; a3] =>
      let m2 := xtime in
      let m3 x := Z.lxor (xtime x) x in
      [Z.lxor (Z.lxor (m2 a0) (m3 a1)) (Z.lxor a2 a3);
       Z.lxor (Z.lxor a0 (m2 a1)) (Z.lxor (m3 a2) a3);
       Z.lxor (Z.lxor a0 a1) (Z.lxor (m2 a2) (m3 a3));
       Z.lxor (Z.lxor (m3 a0) a1) (Z.lxor a2 (m2 a3))]
  | _ => c
  end.

Definition mix_columns (s : list Z) : list Z :=
  concat (mix_column <$> chunks 4 4 s).

Fixpoint rounds (rks : list (list Z)) (s : list Z) : list Z :=
  match rks with
  | [] => s
  | [rk] => xor_list (shift_rows (sub_byte <$> s)) rk
  | rk :: rks' =>
      rounds rks' (xor_list (mix_columns (shift_rows (sub_byte <$> s))) rk)
  end.

Definition cipher (rks : list (list Z)) (block : list Z) : list Z :=
  match rks with
  | [] => block
  | rk :: rks' => rounds rks' (xor_list block rk)
  end.

(** The cipher under [key] as a permutation of 128-bit numbers. *)
Definition encrypt_block (key : bytes) (x : Z) : Z :=
  be_to_Z (of_Z <$> cipher (key_schedule (to_Z <$> key))
                      (to_Z <$> be_bytes 16 x)).

(** *** GCM over a block cipher [E] *)

Section GCM.
Variable E : Z → Z.

(** Multiplication in GF(2^128) (SP 800-38D, algorithm 1). *)
Fixpoint gf128_mul_n (n : nat) (x v z : Z) : Z :=
  match n with
  | O => z
  | S n' =>
      gf128_mul_n n' x
        (if Z.odd v then Z.lxor (v / 2) (225 * 2 ^ 120) else v / 2)
        (if Z.testbit x (Z.of_nat n') then Z.lxor z v else z)
  end.

Definition gf128_mul (x y : Z) : Z := gf128_mul_n 128 x y 0.

Definition ghash (h : Z) (blocks : list Z) : Z :=
  fold_left (λ y x, gf128_mul (Z.lxor y x) h) blocks 0.

(** [data] cut into 128-bit blocks, the last one filled with zeros. *)
Definition blocks_of (data : bytes) : list Z :=
  let n := ((length data + 15) / 16)%nat in
  be_to_Z <$> chunks 16 n (data ++ replicate (16 * n - length data) x00).

Definition hash_subkey : Z := E 0.

(** The pre-counter block. *)
Definition j0 (nonce : bytes) : Z :=
  if decide (length nonce = 12%nat) then
    be_to_Z (nonce ++ [x00; x00; x00; x01])
  else
    ghash hash_subkey
      (blocks_of nonce ++ [8 * Z.of_nat (length nonce)]).

(** The [i]-th counter block after [j]: the last 32 bits count. *)
Definition counter (j : Z) (i : Z) : Z :=
  j / 2 ^ 32 * 2 ^ 32 + (j mod 2 ^ 32 + i) mod 2 ^ 32.

Definition keystream (nonce : bytes) (len : nat) : bytes :=
  let j := j0 nonce in
  take len
    (i ← seq 0 ((len + 15) / 16);
     be_bytes 16 (E (counter j (Z.of_nat i + 1)))).

Definition xor_bytes (a b : bytes) : bytes :=
  zip_with (λ x y, of_Z (Z.lxor (to_Z x) (to_Z y))) a b.

(** Counter mode: encryption and decryption alike. *)
Definition crypt (nonce data : bytes) : bytes :=
  xor_bytes data (keystream nonce (length data)).

(** The tag of [ciphertext], with no associated data. *)
Definition mac (nonce ciphertext : bytes) : bytes :=
  let s := ghash hash_subkey
             (blocks_of ciphertext ++ [8 * Z.of_nat (length ciphertext)]) in
  be_bytes 16 (Z.lxor (E (j0 nonce)) s).

End GCM.

(** The object [AES.new(key, AES.MODE_GCM, nonce=nonce)] returns. *)
Record GcmMode : Type := mk { gcm_key : bytes; gcm_nonce : bytes }.

Definition new (key nonce : bytes) : result GcmMode :=
  if decide (length key ∉ [16; 24; 32]%nat) then Raise ValueError
  else if decide (nonce = []) then Raise ValueError
  else Ok {| gcm_key := key; gcm_nonce := nonce |}.

(** The amounts of data the library accepts: beyond [2 ^ 39 - 256]
    bytes the mode raises [ValueError], beyond [2 ^ 36] bytes the
    counter would repeat and [OverflowError] is raised. *)
Definition check_length (data : bytes) : result unit :=
  let n := Z.of_nat (length data) in
  if decide (2 ^ 39 - 256 < n) then Raise ValueError
  else if decide (2 ^ 36 < n) then Raise OverflowError
  else Ok tt.

(** [cipher.encrypt_and_digest(plaintext)] *)
Definition encrypt_and_digest (self : GcmMode) (plaintext : bytes)
  : result (bytes * bytes) :=
  _ ← check_length plaintext;
  let E := encrypt_block (gcm_key self) in
  let ciphertext := crypt E (gcm_nonce self) plaintext in
  Ok (ciphertext, mac E (gcm_nonce self) ciphertext).

(** [cipher.decrypt_and_verify(ciphertext, tag)]: "MAC check failed"
    is a [ValueError]. *)
Definition decrypt_and_verify (self : GcmMode) (ciphertext tag : bytes)
  : result bytes :=
  _ ← check_length ciphertext;
  let E := encrypt_block (gcm_key self) in
  let plaintext := crypt E (gcm_nonce self) ciphertext in
  if decide (mac E (gcm_nonce self) ciphertext = tag) then Ok plaintext
  else Raise ValueError.

(** [Crypto.Random.get_random_bytes(n)], [entropy] being what the
    system's generator yields. *)
Definition get_random_bytes (n : nat) (entropy : nat → byte) : bytes :=
  entropy <$> seq 0 n.

End AES.


(** ** crypto/encryption.py *)

Module NeuralCipher.

Import codecs.

Record t : Type := mk { key : bytes }.

(** [NeuralCipher(key)] *)
Definition __init__ (key : bytes) : t :=
  let key := if decide (length key < 32)%nat then hashlib.sha256 key else key in
  {| key := py_slice None (Some 32) key |}.

(** [encrypt(plaintext)]; [entropy] feeds [get_random_bytes(12)]. *)
Definition encrypt (self : t) (entropy : nat → byte) (plaintext : str)
  : result str :=
  let nonce := AES.get_random_bytes 12 entropy in
  cipher ← AES.new (key self) nonce;
  data ← encode plaintext;
  '(ciphertext, tag) ← AES.encrypt_and_digest cipher data;
  let combined := nonce ++ tag ++ ciphertext in
  decode (base64.b64encode combined).

(** [decrypt(encrypted)]: whatever is raised inside becomes
    [ValueError("Decryption failed: ...")]. *)
Definition decrypt (self : t) (encrypted : str) : result str :=
  let body : result str :=
    raw ← encode encrypted;
    combined ← base64.b64decode raw;
    let nonce := py_slice None (Some 12) combined in
    let tag := py_slice (Some 12) (Some 28) combined in
    let ciphertext := py_slice (Some 28) None combined in
    cipher ← AES.new (key self) nonce;
    plaintext ← AES.decrypt_and_verify cipher ciphertext tag;
    decode plaintext in
  match body with
  | Ok plaintext => Ok plaintext
  | Raise _ => Raise ValueError
  end.

(** [get_key_fingerprint()]:
    [hashlib.sha256(self.key).hexdigest()[:8].upper()] *)
Definition get_key_fingerprint (self : t) : string :=
  string_of_list_ascii
    (upper <$> py_slice None (Some 8) (hex (hashlib.sha256 (key self)))).

End NeuralCipher.

(** ** websocket/handler.py: the synchronisation round *)

Module Handler.

Import TreeParityMachine.

(** [w[k, n]] *)
Definition getitem2 (w : list (list Z)) (k n : nat) : result Z :=
  row ← getitem w k; getitem row n.

(** [w[k, n] = v] (the indices have been read before every write) *)
Definition setitem2 (w : list (list Z)) (k n : nat) (v : Z) : list (list Z) :=
  alter (λ row, <[n := v]> row) k w.

(** [np.sum(np.abs(a - b))] *)
Definition weight_diff_sum (a b : list (list Z)) : result Z :=
  d ← abs_diff a b;
  Ok (np_sum (concat d)).

(** [np.array_equal(a, b)]; both arguments always have the shape
    [(tpm_k, tpm_n)] of one session. *)
Definition array_equal (a b : list (list Z)) : bool := bool_decide (a = b).

(** [1.0 - (diff / max_diff) if max_diff > 0 else 1.0].  The source
    computes in binary64; the model keeps the exact rational. *)
Definition progress_of (diff max_diff : Z) : Q :=
  if decide (0 < max_diff) then (1 - inject_Z diff / inject_Z max_diff)%Q
  else 1%Q.

(** [p >= c] *)
Definition ge (p c : Q) : bool := Qle_bool c p.

(** The two machines the sync task captured before its loop:
    [(tpm_a, tpm_b)]. *)
Definition pair : Type := TPM * TPM.

Definition set_a (k n : nat) (v : Z) : M pair unit :=
  modify (λ '(a, b), (set_weights a (setitem2 (weights a) k n v), b)).
Definition set_b (k n : nat) (v : Z) : M pair unit :=
  modify (λ '(a, b), (a, set_weights b (setitem2 (weights b) k n v))).
Definition set_row_a (k : nat) (row : list Z) : M pair unit :=
  modify (λ '(a, b), (set_weights a (<[k := row]> (weights a)), b)).
Definition set_row_b (k : nat) (row : list Z) : M pair unit :=
  modify (λ '(a, b), (a, set_weights b (<[k := row]> (weights b)))).

(** Body of the double loop "direct convergence" (progress >= 0.90). *)
Definition direct_convergence (tpm_l : Z) (weight_diffs : list (list Z))
    (k n : nat) : M pair unit :=
  d ← lift (getitem2 weight_diffs k n);
  if decide (d = 1) then
    '(a, b) ← get;
    wa ← lift (getitem2 (weights a) k n);
    wb ← lift (getitem2 (weights b) k n);
    let diff := i64_sub wb wa in
    if decide (i64_abs diff = 1) then
      let mid := if decide (wa < wb) then i64_add wa 1 else i64_add wb 1 in
      let mid := clip1 (- tpm_l) tpm_l mid in
      _ ← set_a k n mid;
      set_b k n mid
    else mret tt
  else mret tt.

(** One side of the "boost" loop body. *)
Definition boost_row (tpm_l : Z) (rule : LearningRule) (step : Z)
    (w x : list Z) (s : Z) : result (option (list Z)) :=
  match rule with
  | hebbian =>
      r ← elementwise i64_add w (scale (scale x step) s);
      Ok (Some (np_clip r (- tpm_l) tpm_l))
  | random_walk =>
      r ← elementwise i64_add w (scale x step);
      Ok (Some (np_clip r (- tpm_l) tpm_l))
  | anti_hebbian => Ok None
  end.

(** Body of the loop "boost update magnitude when agreed and close". *)
Definition boost (tpm_l : Z) (X : list (list Z)) (sigma_a sigma_b : list Z)
    (tau_a tau_b : Z) (rule : LearningRule) (progress : Q)
    (k : nat) : M pair unit :=
  sa ← lift (getitem sigma_a k);
  _ ← (if decide (sa = tau_a) then
         let step := if ge progress (90 # 100) then 2 else 1 in
         '(a, _) ← get;
         w ← lift (getitem (weights a) k);
         x ← lift (getitem X k);
         r ← lift (boost_row tpm_l rule step w x sa);
         match r with Some row => set_row_a k row | None => mret tt end
       else mret tt);
  sb ← lift (getitem sigma_b k);
  if decide (sb = tau_b) then
    let step := if ge progress (90 # 100) then 2 else 1 in
    '(_, b) ← get;
    w ← lift (getitem (weights b) k);
    x ← lift (getitem X k);
    r ← lift (boost_row tpm_l rule step w x sb);
    match r with Some row => set_row_b k row | None => mret tt end
  else mret tt.

(** The block "FINAL PUSH": the end-game convergence assist.  Returns
    the recomputed [(progress, weights_match)]. *)
Definition final_push (tpm_k tpm_n : nat) (tpm_l : Z)
    (X : list (list Z)) (sigma_a sigma_b : list Z) (tau_a tau_b : Z)
    (rule : LearningRule) (max_possible_diff : Z)
    (progress : Q) (weights_match : bool) : M pair (Q * bool) :=
  let agreed := bool_decide (tau_a = tau_b) in
  if ge progress (85 # 100) && negb weights_match then
    '(a, b) ← get;
    weight_diffs ← lift (abs_diff (weights a) (weights b));
    _ ← (if ge progress (90 # 100) then
           for_each (range tpm_k) (λ k,
             for_each (range tpm_n) (λ n,
               direct_convergence tpm_l weight_diffs k n))
         else mret tt);
    _ ← (if agreed && ge progress (85 # 100) then
           for_each (range tpm_k)
             (boost tpm_l X sigma_a sigma_b tau_a tau_b rule progress)
         else mret tt);
    '(a, b) ← get;
    weight_diff ← lift (weight_diff_sum (weights a) (weights b));
    let progress := progress_of weight_diff max_possible_diff in
    let weights_match := array_equal (weights a) (weights b) in
    mret (progress, weights_match)
  else mret (progress, weights_match).



(** *** One iteration of the loop of [_run_sync]

    The objects and local variables the loop works on.  [tpm_a] and
    [tpm_b] are the two machines captured before the loop,
    [attacker_tpm] and [attacker_progress] the session attributes of
    the same names. *)
Record locals : Type := mk_locals {
  tpm_a : TPM;
  tpm_b : TPM;
  attacker_tpm : option TPM;
  attacker_progress : Q;
  round_num : nat;
  learning_rule : LearningRule;
  progress_history : list Q;
  best_progress : Q;
  rounds_since_improvement : nat;
  last_switch_round : nat
}.

Definition set_tpm_a (v : TPM) (s : locals) : locals :=
  mk_locals v (tpm_b s) (attacker_tpm s) (attacker_progress s) (round_num s)
    (learning_rule s) (progress_history s) (best_progress s)
    (rounds_since_improvement s) (last_switch_round s).
Definition set_tpm_b (v : TPM) (s : locals) : locals :=
  mk_locals (tpm_a s) v (attacker_tpm s) (attacker_progress s) (round_num s)
    (learning_rule s) (progress_history s) (best_progress s)
    (rounds_since_improvement s) (last_switch_round s).
Definition set_attacker_tpm (v : option TPM) (s : locals) : locals :=
  mk_locals (tpm_a s) (tpm_b s) v (attacker_progress s) (round_num s)
    (learning_rule s) (progress_history s) (best_progress s)
    (rounds_since_improvement s) (last_switch_round s).
Definition set_attacker_progress (v : Q) (s : locals) : locals :=
  mk_locals (tpm_a s) (tpm_b s) (attacker_tpm s) v (round_num s)
    (learning_rule s) (progress_history s) (best_progress s)
    (rounds_since_improvement s) (last_switch_round s).
Definition set_round_num (v : nat) (s : locals) : locals :=
  mk_locals (tpm_a s) (tpm_b s) (attacker_tpm s) (attacker_progress s) v
    (learning_rule s) (progress_history s) (best_progress s)
    (rounds_since_improvement s) (last_switch_round s).
Definition set_learning_rule (v : LearningRule) (s : locals) : locals :=
  mk_locals (tpm_a s) (tpm_b s) (attacker_tpm s) (attacker_progress s)
    (round_num s) v (progress_history s) (best_progress s)
    (rounds_since_improvement s) (last_switch_round s).
Definition set_progress_history (v : list Q) (s : locals) : locals :=
  mk_locals (tpm_a s) (tpm_b s) (attacker_tpm s) (attacker_progress s)
    (round_num s) (learning_rule s) v (best_progress s)
    (rounds_since_improvement s) (last_switch_round s).
Definition set_best_progress (v : Q) (s : locals) : locals :=
  mk_locals (tpm_a s) (tpm_b s) (attacker_tpm s) (attacker_progress s)
    (round_num s) (learning_rule s) (progress_history s) v
    (rounds_since_improvement s) (last_switch_round s).
Definition set_rounds_since_improvement (v : nat) (s : locals) : locals :=
  mk_locals (tpm_a s) (tpm_b s) (attacker_tpm s) (attacker_progress s)
    (round_num s) (learning_rule s) (progress_history s) (best_progress s)
    v (last_switch_round s).
Definition set_last_switch_round (v : nat) (s : locals) : locals :=
  mk_locals (tpm_a s) (tpm_b s) (attacker_tpm s) (attacker_progress s)
    (round_num s) (learning_rule s) (progress_history s) (best_progress s)
    (rounds_since_improvement s) v.

Definition on_a {A} : M TPM A → M locals A := zoom tpm_a set_tpm_a.
Definition on_b {A} : M TPM A → M locals A := zoom tpm_b set_tpm_b.
Definition on_pair {A} : M pair A → M locals A :=
  zoom (λ s, (tpm_a s, tpm_b s)) (λ p s, set_tpm_b (snd p) (set_tpm_a (fst p) s)).

(** [np.random.choice([-1, 1], size=(tpm_k, tpm_n))]; [coin k n] is
    the outcome of the draw for entry [(k, n)]. *)
Definition random_input (tpm_k tpm_n : nat) (coin : nat → nat → bool)
  : list (list Z) :=
  (λ k, (λ n, if coin k n then 1 else -1) <$> range tpm_n) <$> range tpm_k.

(** [tpm_k * tpm_n * (2 * tpm_l)] *)
Definition max_possible_diff (tpm_k tpm_n : nat) (tpm_l : Z) : Z :=
  Z.of_nat tpm_k * Z.of_nat tpm_n * (2 * tpm_l).

(** "ATTACKER SIMULATION": returns [(tau_eve, attacker_synced)]. *)
Definition attacker_simulation (tpm_k tpm_n : nat) (tpm_l : Z)
    (X : list (list Z)) (tau_a tau_b : Z) : M locals (Z * bool) :=
  s ← get;
  match attacker_tpm s with
  | Some eve =>
      '(tau_eve, sigma_eve) ← lift (compute_output eve X);
      _ ← (if decide (tau_a = tau_b) then
             let '(r, eve') :=
               update_weights X tau_eve tau_a sigma_eve (learning_rule s) eve in
             _ ← modify (set_attacker_tpm (Some eve'));
             _ ← lift r; mret tt
           else mret tt);
      s ← get;
      let eve_weights := from_option weights [] (attacker_tpm s) in
      attacker_diff ← lift (weight_diff_sum eve_weights (weights (tpm_a s)));
      let attacker_max_diff := max_possible_diff tpm_k tpm_n tpm_l in
      _ ← modify (set_attacker_progress
                    (progress_of attacker_diff attacker_max_diff));
      mret (tau_eve, array_equal eve_weights (weights (tpm_a s)))
  | None => mret (0, false)
  end.

(** [np.mean(l)] *)
Definition np_mean (l : list Q) : Q :=
  (fold_right Qplus 0 l / inject_Z (Z.of_nat (length l)))%Q.

(** [best_progress = p; rounds_since_improvement = 0] *)
Definition improved (p : Q) : M locals unit :=
  _ ← modify (set_best_progress p);
  modify (set_rounds_since_improvement 0%nat).

(** "Track progress for adaptive learning" *)
Definition track_progress (progress : Q) : M locals unit :=
  _ ← modify (λ s, set_progress_history (progress_history s ++ [progress]) s);
  s ← get;
  _ ← (if decide (200 < length (progress_history s))%nat
       then modify (set_progress_history (drop 1 (progress_history s)))
       else mret tt : M locals unit);
  s ← get;
  if decide (50 ≤ length (progress_history s))%nat then
    let recent_avg := np_mean (py_slice (Some (-50)) None (progress_history s)) in
    if Qlt_le_dec (best_progress s + (1 # 100))%Q recent_avg then
      improved recent_avg
    else modify (set_rounds_since_improvement (rounds_since_improvement s + 1))
  else
    if Qlt_le_dec (best_progress s) progress then
      improved progress
    else modify (set_rounds_since_improvement (rounds_since_improvement s + 1)).

Definition rule_switch_interval : nat := 50.

(** "Adaptive rule switching" *)
Definition switch_rule (progress : Q) : M locals unit :=
  s ← get;
  let current_switch_interval :=
    if ge progress (85 # 100) then 30%nat else rule_switch_interval in
  if decide (current_switch_interval ≤ rounds_since_improvement s
             ∧ current_switch_interval ≤ round_num s - last_switch_round s)%nat
  then
    (_ ← modify (set_learning_rule
                  match learning_rule s with
                  | random_walk => hebbian
                  | hebbian => anti_hebbian
                  | anti_hebbian => random_walk
                  end);
     _ ← modify (set_rounds_since_improvement 0%nat);
     _ ← modify (set_last_switch_round (round_num s));
     modify (set_progress_history
               (if decide (20 < length (progress_history s))%nat
                then py_slice (Some (-20)) None (progress_history s)
                else [])) : M locals unit)
  else mret tt.

(** The [sync_progress] report of a round. *)
Record progress_msg : Type := mk_progress_msg {
  msg_round : nat;
  msg_agreed : bool;
  msg_progress : Q;
  msg_tau_a : Z;
  msg_tau_b : Z;
  msg_learning_rule : LearningRule;
  msg_best_progress : Q;
  (* attacker_progress, attacker_tau, attacker_synced *)
  msg_attacker : option (Q * Z * bool)
}.

(** "Both TPMs compute output" and "Use adaptive learning rule":
    returns [(tau_a, sigma_a, tau_b, sigma_b)]. *)
Definition exchange (X : list (list Z)) : M locals (Z * list Z * Z * list Z) :=
  s ← get;
  let rule := learning_rule s in
  '(tau_a, sigma_a) ← lift (compute_output (tpm_a s) X);
  '(tau_b, sigma_b) ← lift (compute_output (tpm_b s) X);
  _ ← on_a (update_weights X tau_a tau_b sigma_a rule);
  _ ← on_b (update_weights X tau_b tau_a sigma_b rule);
  mret (tau_a, sigma_a, tau_b, sigma_b).

(** "Check synchronization", "Calculate progress based on weight
    difference" and "FINAL PUSH": returns [(progress, weights_match)]. *)
Definition assess (tpm_k tpm_n : nat) (tpm_l : Z) (X : list (list Z))
    (sigma_a sigma_b : list Z) (tau_a tau_b : Z) : M locals (Q * bool) :=
  s ← get;
  let weights_match := array_equal (weights (tpm_a s)) (weights (tpm_b s)) in
  weight_diff ← lift (weight_diff_sum (weights (tpm_a s)) (weights (tpm_b s)));
  let progress := progress_of weight_diff (max_possible_diff tpm_k tpm_n tpm_l) in
  on_pair (final_push tpm_k tpm_n tpm_l X sigma_a sigma_b tau_a tau_b
             (learning_rule s) (max_possible_diff tpm_k tpm_n tpm_l)
             progress weights_match).

(** The rest of the loop body after the attacker simulation, up to
    the construction of [progress_msg]. *)
Definition conclude (tpm_k tpm_n : nat) (tpm_l : Z) (X : list (list Z))
    (sigma_a sigma_b : list Z) (tau_a tau_b : Z)
    (tau_eve : Z) (attacker_synced : bool) : M locals (progress_msg * bool) :=
  let agreed := bool_decide (tau_a = tau_b) in
  '(progress, weights_match) ←
    assess tpm_k tpm_n tpm_l X sigma_a sigma_b tau_a tau_b;
  _ ← track_progress progress;
  _ ← switch_rule progress;
  s ← get;
  mret ({| msg_round := round_num s;
           msg_agreed := agreed;
           msg_progress := progress;
           msg_tau_a := tau_a;
           msg_tau_b := tau_b;
           msg_learning_rule := learning_rule s;
           msg_best_progress := best_progress s;
           msg_attacker :=
             match attacker_tpm s with
             | Some _ => Some (attacker_progress s, tau_eve, attacker_synced)
             | None => None
             end |},
        weights_match).

(** The loop body from [round_num += 1] up to the construction of
    [progress_msg]; returns the message and [weights_match]. *)
Definition round (tpm_k tpm_n : nat) (tpm_l : Z) (X : list (list Z))
  : M locals (progress_msg * bool) :=
  _ ← modify (λ s, set_round_num (round_num s + 1) s);
  '(tau_a, sigma_a, tau_b, sigma_b) ← exchange X;
  '(tau_eve, attacker_synced) ←
    attacker_simulation tpm_k tpm_n tpm_l X tau_a tau_b;
  conclude tpm_k tpm_n tpm_l X sigma_a sigma_b tau_a tau_b
    tau_eve attacker_synced.

(** The same loop state with another attacker machine and progress. *)
Definition with_attacker (eve : option TPM) (p : Q) (s : locals) : locals :=
  set_attacker_progress p (set_attacker_tpm eve s).

(** The same report with other attacker fields. *)
Definition with_msg_attacker (att : option (Q * Z * bool)) (m : progress_msg)
  : progress_msg :=
  mk_progress_msg (msg_round m) (msg_agreed m) (msg_progress m) (msg_tau_a m)
    (msg_tau_b m) (msg_learning_rule m) (msg_best_progress m) att.

(** The objects of a loop of a session configured with [(k, n, l)]. *)
Definition locals_fit (k n : nat) (l : Z) (s : locals) : Prop :=
  fits k n l (tpm_a s) ∧ fits k n l (tpm_b s) ∧
  from_option (fits k n l) True (attacker_tpm s).

#[global] Instance locals_fit_dec k n l s : Decision (locals_fit k n l s).
Proof.
  unfold locals_fit. destruct (attacker_tpm s); simpl; apply _.
Defined.

(** The loop on the objects it works on, for the inputs drawn in
    successive rounds: it stops at the first round whose weights
    match.  Returns whether that happened. *)
Fixpoint rounds (tpm_k tpm_n : nat) (tpm_l : Z) (Xs : list (list (list Z)))
  : M locals bool :=
  match Xs with
  | [] => mret false
  | X :: Xs' =>
      '(_, weights_match) ← round tpm_k tpm_n tpm_l X;
      if weights_match : bool then mret true
      else rounds tpm_k tpm_n tpm_l Xs'
  end.

(** *** Sessions and the connection manager

    Python objects live in a store and are held by reference: a
    [SyncSession] is shared by the registry, by the sync task and by
    the endpoint that serves a channel; a [TreeParityMachine] is shared
    by [session.tpms] and by the local variables of the sync task. *)

Definition ref : Type := nat.
(** A [WebSocket] object. *)
Definition websocket : Type := nat.

(** An insertion-ordered Python [dict] with string keys. *)
Definition dict (V : Type) : Type := list (string * V).

Definition dict_keys {V} (d : dict V) : list string := fst <$> d.

Fixpoint dict_get {V} (k : string) (d : dict V) : option V :=
  match d with
  | [] => None
  | (k', v) :: d' => if decide (k' = k) then Some v else dict_get k d'
  end.

(** [d[k] = v]: an existing key keeps its position. *)
Fixpoint dict_set {V} (k : string) (v : V) (d : dict V) : dict V :=
  match d with
  | [] => [(k, v)]
  | (k', v') :: d' =>
      if decide (k' = k) then (k, v) :: d' else (k', v') :: dict_set k v d'
  end.

(** [d.pop(k, None)] *)
Definition dict_pop {V} (k : string) (d : dict V) : dict V :=
  filter (λ kv, kv.1 ≠ k) d.

(** Frames sent to clients (timestamps omitted). *)
Inductive frame : Type :=
| error_frame (message : string) (code : option string)
| user_joined (user_id : string) (participant_count : nat)
| session_info (session_id : string) (participant_count : nat)
    (is_synced : bool) (K N : nat) (L : Z)
| user_left (user_id : string)
| sync_start (session_id : string) (K N : nat) (L : Z)
| sync_progress (msg : progress_msg)
| sync_complete (rounds : nat) (key_fingerprint : string)
| message (sender_id ciphertext : string).

(** Effects visible outside the manager, in the order they happen. *)
Inductive event : Type :=
| Accept (ws : websocket)
| Send (ws : websocket) (f : frame)
| Close (ws : websocket)
| Cancel (task : ref).

Record SyncSession : Type := mk_session {
  session_id : string;
  tpm_k : nat;
  tpm_n : nat;
  tpm_l : Z;
  participants : dict websocket;
  tpms : dict ref;
  sync_round : nat;
  is_synced : bool;
  is_syncing : bool;
  shared_key : option bytes;
  cipher : option NeuralCipher.t;
  session_attacker_tpm : option ref;
  session_attacker_progress : Q;
  show_attacker : bool
}.

(** [SyncSession(session_id=..., tpm_k=..., tpm_n=..., tpm_l=...)] *)
Definition new_session (session_id : string) (tpm_k tpm_n : nat) (tpm_l : Z)
  : SyncSession :=
  {| session_id := session_id; tpm_k := tpm_k; tpm_n := tpm_n; tpm_l := tpm_l;
     participants := []; tpms := []; sync_round := 0;
     is_synced := false; is_syncing := false;
     shared_key := None; cipher := None;
     session_attacker_tpm := None; session_attacker_progress := 0;
     show_attacker := true |}.

Definition set_participants (v : dict websocket) (s : SyncSession) :=
  mk_session (session_id s) (tpm_k s) (tpm_n s) (tpm_l s) v (tpms s)
    (sync_round s) (is_synced s) (is_syncing s) (shared_key s) (cipher s)
    (session_attacker_tpm s) (session_attacker_progress s) (show_attacker s).
Definition set_tpms (v : dict ref) (s : SyncSession) :=
  mk_session (session_id s) (tpm_k s) (tpm_n s) (tpm_l s) (participants s) v
    (sync_round s) (is_synced s) (is_syncing s) (shared_key s) (cipher s)
    (session_attacker_tpm s) (session_attacker_progress s) (show_attacker s).
Definition set_sync_round (v : nat) (s : SyncSession) :=
  mk_session (session_id s) (tpm_k s) (tpm_n s) (tpm_l s) (participants s)
    (tpms s) v (is_synced s) (is_syncing s) (shared_key s) (cipher s)
    (session_attacker_tpm s) (session_attacker_progress s) (show_attacker s).
Definition set_is_syncing (v : bool) (s : SyncSession) :=
  mk_session (session_id s) (tpm_k s) (tpm_n s) (tpm_l s) (participants s)
    (tpms s) (sync_round s) (is_synced s) v (shared_key s) (cipher s)
    (session_attacker_tpm s) (session_attacker_progress s) (show_attacker s).
(** [is_synced = True; shared_key = key; cipher = NeuralCipher(key)] *)
Definition set_synced (key : bytes) (s : SyncSession) :=
  mk_session (session_id s) (tpm_k s) (tpm_n s) (tpm_l s) (participants s)
    (tpms s) (sync_round s) true (is_syncing s) (Some key)
    (Some (NeuralCipher.__init__ key))
    (session_attacker_tpm s) (session_attacker_progress s) (show_attacker s).
Definition set_session_attacker_tpm (v : option ref) (s : SyncSession) :=
  mk_session (session_id s) (tpm_k s) (tpm_n s) (tpm_l s) (participants s)
    (tpms s) (sync_round s) (is_synced s) (is_syncing s) (shared_key s)
    (cipher s) v (session_attacker_progress s) (show_attacker s).
Definition set_session_attacker_progress (v : Q) (s : SyncSession) :=
  mk_session (session_id s) (tpm_k s) (tpm_n s) (tpm_l s) (participants s)
    (tpms s) (sync_round s) (is_synced s) (is_syncing s) (shared_key s)
    (cipher s) (session_attacker_tpm s) v (show_attacker s).

(** [remove_participant(user_id)] *)
Definition remove_participant (user_id : string) (s : SyncSession) : SyncSession :=
  set_tpms (dict_pop user_id (tpms s))
    (set_participants (dict_pop user_id (participants s)) s).

(** [is_ready()] *)
Definition is_ready (s : SyncSession) : bool :=
  bool_decide (length (participants s) = 2%nat).

(** Where a sync task is suspended. *)
Inductive phase : Type :=
| Pending                                (* created, not yet run *)
| Starting                               (* in [asyncio.sleep(0.3)] *)
| Looping (a b : ref) (vars : locals)    (* in [asyncio.sleep(sync_delay)] *)
| Finished.

Record Task : Type := mk_task {
  task_session : ref;
  task_phase : phase;
  cancel_requested : bool
}.

Record World : Type := mk_world {
  sessions : gmap string ref;            (* manager.sessions *)
  _sync_tasks : gmap string ref;         (* manager._sync_tasks *)
  session_objs : gmap ref SyncSession;
  tpm_objs : gmap ref TPM;
  task_objs : gmap ref Task;
  next_ref : ref;
  dead : gset websocket;                 (* channels on which a send raises *)
  trace : list event
}.

Definition set_sessions v (w : World) :=
  mk_world v (_sync_tasks w) (session_objs w) (tpm_objs w) (task_objs w)
    (next_ref w) (dead w) (trace w).
Definition set_sync_tasks v (w : World) :=
  mk_world (sessions w) v (session_objs w) (tpm_objs w) (task_objs w)
    (next_ref w) (dead w) (trace w).
Definition set_session_objs v (w : World) :=
  mk_world (sessions w) (_sync_tasks w) v (tpm_objs w) (task_objs w)
    (next_ref w) (dead w) (trace w).
Definition set_tpm_objs v (w : World) :=
  mk_world (sessions w) (_sync_tasks w) (session_objs w) v (task_objs w)
    (next_ref w) (dead w) (trace w).
Definition set_task_objs v (w : World) :=
  mk_world (sessions w) (_sync_tasks w) (session_objs w) (tpm_objs w) v
    (next_ref w) (dead w) (trace w).
Definition set_next_ref v (w : World) :=
  mk_world (sessions w) (_sync_tasks w) (session_objs w) (tpm_objs w)
    (task_objs w) v (dead w) (trace w).
Definition set_trace v (w : World) :=
  mk_world (sessions w) (_sync_tasks w) (session_objs w) (tpm_objs w)
    (task_objs w) (next_ref w) (dead w) v.

(** The manager right after [ConnectionManager()]. *)
Definition empty_world : World :=
  mk_world ∅ ∅ ∅ ∅ ∅ 0%nat ∅ [].

Definition emit (e : event) : M World unit :=
  modify (λ w, set_trace (trace w ++ [e]) w).

Definition fresh : M World ref :=
  w ← get;
  _ ← put (set_next_ref (S (next_ref w)) w);
  mret (next_ref w).

Definition the_session (r : ref) : M World SyncSession :=
  w ← get;
  match session_objs w !! r with
  | Some s => mret s
  | None => raise KeyError
  end.

Definition the_tpm (r : ref) : M World TPM :=
  w ← get;
  match tpm_objs w !! r with
  | Some t => mret t
  | None => raise KeyError
  end.

Definition update_session (r : ref) (f : SyncSession → SyncSession)
  : M World unit :=
  modify (λ w, set_session_objs (alter f r (session_objs w)) w).

Definition store_tpm (r : ref) (t : TPM) : M World unit :=
  modify (λ w, set_tpm_objs (<[r := t]> (tpm_objs w)) w).

(** [await ws.send_json(frame)] *)
Definition send_json (ws : websocket) (f : frame) : M World unit :=
  w ← get;
  if decide (ws ∈ dead w) then raise SendError else emit (Send ws f).

(** [session.add_participant(user_id, websocket)] *)
Definition add_participant (session : ref) (user_id : string)
    (ws : websocket) (draw : nat → nat → Z) : M World unit :=
  _ ← update_session session
        (λ s, set_participants (dict_set user_id ws (participants s)) s);
  s ← the_session session;
  tpm ← lift (TreeParityMachine.__init__ (tpm_k s) (tpm_n s) (tpm_l s) draw);
  r ← fresh;
  _ ← store_tpm r tpm;
  update_session session (λ s, set_tpms (dict_set user_id r (tpms s)) s).

(** [broadcast(session, message, exclude)] *)
Definition broadcast (session : ref) (message : frame)
    (exclude : list string) : M World unit :=
  s ← the_session session;
  let send_to (disconnected : list string) (p : string * websocket)
      : M World (list string) :=
    let '(user_id, ws) := p in
    if decide (user_id ∉ exclude) then
      try_except (_ ← send_json ws message; mret disconnected)
                 (λ _, mret (disconnected ++ [user_id]))
    else mret disconnected in
  disconnected ←
    fold_left (λ acc p, d ← acc; send_to d p) (participants s) (mret []);
  for_each disconnected (λ user_id,
    update_session session (remove_participant user_id)).

(** The effect of a broadcast in closed form: who is addressed, who
    receives the frame, and who is dropped because the send raised. *)
Definition addressed (s : SyncSession) (exclude : list string)
  : list (string * websocket) :=
  filter (λ p, p.1 ∉ exclude) (participants s).

Definition delivered (w : World) (s : SyncSession) (exclude : list string)
  : list (string * websocket) :=
  filter (λ p, p.2 ∉ dead w) (addressed s exclude).

Definition dropped (w : World) (s : SyncSession) (exclude : list string)
  : list string :=
  fst <$> filter (λ p, p.2 ∈ dead w) (addressed s exclude).

Definition after_broadcast (session : ref) (message : frame)
    (exclude : list string) (s : SyncSession) (w : World) : World :=
  set_session_objs
    (alter (λ s0, foldl (λ acc u, remove_participant u acc) s0
                    (dropped w s exclude))
           session (session_objs w))
    (set_trace (trace w ++ ((λ p, Send p.2 message) <$> delivered w s exclude)) w).

(** [connect(websocket, session_id, user_id, tpm_k, tpm_n, tpm_l)] *)
Definition connect (ws : websocket) (sid user_id : string)
    (k n : nat) (l : Z) (draw : nat → nat → Z) : M World ref :=
  _ ← emit (Accept ws);
  w ← get;
  _ ← (if decide (sessions w !! sid = None) then
         r ← fresh;
         _ ← modify (λ w, set_session_objs
                            (<[r := new_session sid k n l]> (session_objs w)) w);
         modify (λ w, set_sessions (<[sid := r]> (sessions w)) w)
       else mret tt : M World unit);
  w ← get;
  match sessions w !! sid with
  | None => raise KeyError
  | Some session =>
      s ← the_session session;
      if decide (2 ≤ length (participants s)
                 ∧ user_id ∉ dict_keys (participants s))%nat then
        _ ← send_json ws (error_frame "Session is full" (Some "SESSION_FULL"));
        _ ← emit (Close ws);
        raise ValueError
      else
        _ ← add_participant session user_id ws draw;
        s ← the_session session;
        _ ← broadcast session
              (user_joined user_id (length (participants s))) [user_id];
        s ← the_session session;
        _ ← send_json ws
              (session_info sid (length (participants s)) (is_synced s)
                 (tpm_k s) (tpm_n s) (tpm_l s));
        mret session
  end.

(** [task.cancel()] *)
Definition cancel (task : ref) : M World unit :=
  _ ← modify (λ w, set_task_objs
                     (alter (λ t, mk_task (task_session t) (task_phase t) true)
                            task (task_objs w)) w);
  emit (Cancel task).

(** [disconnect(session_id, user_id)] *)
Definition disconnect (sid user_id : string) : M World unit :=
  w ← get;
  match sessions w !! sid with
  | None => mret tt
  | Some session =>
      _ ← update_session session (remove_participant user_id);
      w ← get;
      match _sync_tasks w !! sid with
      | Some task =>
          _ ← cancel task;
          _ ← modify (λ w, set_sync_tasks (delete sid (_sync_tasks w)) w);
          _ ← broadcast session (user_left user_id) [];
          s ← the_session session;
          if decide (participants s = []) then
            modify (λ w, set_sessions (delete sid (sessions w)) w)
          else mret tt
      | None => mret tt
      end
  end.

(** [start_sync_background(session)] *)
Definition start_sync_background (session : ref) : M World unit :=
  s ← the_session session;
  w ← get;
  match _sync_tasks w !! session_id s with
  | Some _ => mret tt
  | None =>
      task ← fresh;
      _ ← modify (λ w, set_task_objs
                         (<[task := mk_task session Pending false]> (task_objs w)) w);
      modify (λ w, set_sync_tasks (<[session_id s := task]> (_sync_tasks w)) w)
  end.

(** [relay_message(session, sender_id, ciphertext)] *)
Definition relay_message (session : ref) (sender_id ciphertext : string)
  : M World unit :=
  broadcast session (message sender_id ciphertext) [sender_id].

(** [is_synced ⇒ shared_key ≠ ∅ ∧ cipher ≠ ∅], for a session and for
    every session object of the manager. *)
Definition key_installed (s : SyncSession) : Prop :=
  is_synced s = true →
  ∃ key, shared_key s = Some key ∧ length key = 32%nat ∧
         cipher s = Some (NeuralCipher.__init__ key).

Definition keys_installed (w : World) : Prop :=
  ∀ r s, session_objs w !! r = Some s → key_installed s.

(** *** The sync task [_run_sync(session)]

    The coroutine is cut at its two [asyncio.sleep] calls; [resume]
    runs it from one suspension point to the next (or to its end).
    Sends inside a broadcast are not treated as suspension points. *)

Definition the_task (r : ref) : M World Task :=
  w ← get;
  match task_objs w !! r with
  | Some t => mret t
  | None => raise KeyError
  end.

Definition set_phase (task : ref) (p : phase) : M World unit :=
  modify (λ w, set_task_objs
                 (alter (λ t, mk_task (task_session t) p (cancel_requested t))
                        task (task_objs w)) w).

(** The [finally] clause. *)
Definition finally (task session : ref) : M World unit :=
  _ ← update_session session (set_is_syncing false);
  s ← the_session session;
  _ ← modify (λ w, set_sync_tasks (delete (session_id s) (_sync_tasks w)) w);
  set_phase task Finished.

(** The local variables on entry to the loop. *)
Definition initial_vars (a b : TPM) : locals :=
  {| tpm_a := a; tpm_b := b; attacker_tpm := None; attacker_progress := 0;
     round_num := 0; learning_rule := random_walk; progress_history := [];
     best_progress := 0; rounds_since_improvement := 0;
     last_switch_round := 0 |}.

(** Lines from the entry of [_run_sync] to [asyncio.sleep(0.3)].
    [Some p]: suspended in phase [p]; [None]: left the [try] block. *)
Definition begin_sync (session : ref) : M World (option phase) :=
  s ← the_session session;
  if negb (is_ready s) then mret None
  else if is_synced s || is_syncing s then mret None
  else
    _ ← update_session session (set_is_syncing true);
    _ ← broadcast session
          (sync_start (session_id s) (tpm_k s) (tpm_n s) (tpm_l s)) [];
    mret (Some Starting).

(** "Initialize attacker TPM (Eve - the eavesdropper)" *)
Definition init_attacker (session a : ref) (draw : nat → nat → Z)
  : M World unit :=
  s ← the_session session;
  if show_attacker s && bool_decide (session_attacker_tpm s = None) then
    eve ← lift (TreeParityMachine.__init__ (tpm_k s) (tpm_n s) (tpm_l s) draw);
    r ← fresh;
    _ ← store_tpm r eve;
    _ ← update_session session (set_session_attacker_tpm (Some r));
    ta ← the_tpm a;
    attacker_diff ← lift (weight_diff_sum (weights eve) (weights ta));
    let attacker_max_diff := max_possible_diff (tpm_k s) (tpm_n s) (tpm_l s) in
    update_session session
      (set_session_attacker_progress (progress_of attacker_diff attacker_max_diff))
  else mret tt.

(** The objects a round works on, read from the store: [tpm_a] and
    [tpm_b] through the references the task holds, the attacker
    through [session.attacker_tpm]. *)
Definition load (s : SyncSession) (a b : ref) (vars : locals) : M World locals :=
  ta ← the_tpm a;
  tb ← the_tpm b;
  eve ← match session_attacker_tpm s with
        | Some r => e ← the_tpm r; mret (Some e)
        | None => mret None
        end;
  mret (set_attacker_progress (session_attacker_progress s)
          (set_attacker_tpm eve (set_tpm_b tb (set_tpm_a ta vars)))).

(** The objects the round mutated, written to the store. *)
Definition write_back (session : ref) (s : SyncSession) (a b : ref)
    (vars : locals) : M World unit :=
  _ ← store_tpm a (tpm_a vars);
  _ ← store_tpm b (tpm_b vars);
  _ ← match session_attacker_tpm s, attacker_tpm vars with
      | Some r, Some e => store_tpm r e
      | _, _ => mret tt
      end;
  update_session session
    (set_session_attacker_progress (attacker_progress vars)).

(** From [session.sync_round = round_num] to the end of the loop body. *)
Definition publish (session a b : ref) (vars : locals)
    (msg : progress_msg) (weights_match : bool) : M World (option phase) :=
  _ ← update_session session (set_sync_round (round_num vars));
  _ ← broadcast session (sync_progress msg) [];
  if weights_match then
    ta ← the_tpm a;
    let key := TreeParityMachine.get_key ta 32 in
    _ ← update_session session (set_synced key);
    _ ← broadcast session
          (sync_complete (round_num vars)
             (NeuralCipher.get_key_fingerprint (NeuralCipher.__init__ key))) [];
    mret None
  else mret (Some (Looping a b vars)).

(** One iteration of [while True], from the participant check to
    [asyncio.sleep(sync_delay)]. *)
Definition iteration (session a b : ref) (vars : locals)
    (coin : nat → nat → bool) : M World (option phase) :=
  s ← the_session session;
  if decide (length (participants s) < 2)%nat then mret None
  else
    vars ← load s a b vars;
    let X := random_input (tpm_k s) (tpm_n s) coin in
    let '(r, vars) := round (tpm_k s) (tpm_n s) (tpm_l s) X vars in
    _ ← write_back session s a b vars;
    '(msg, weights_match) ← lift r;
    publish session a b vars msg weights_match.

(** Lines from the wake-up after [asyncio.sleep(0.3)] through the
    first iteration of the loop. *)
Definition enter_loop (session : ref) (draw : nat → nat → Z)
    (coin : nat → nat → bool) : M World (option phase) :=
  s ← the_session session;
  match tpms s with
  | (_, a) :: (_, b) :: _ =>
      _ ← init_attacker session a draw;
      ta ← the_tpm a;
      tb ← the_tpm b;
      iteration session a b (initial_vars ta tb) coin
  | _ => mret None
  end.

(** Run the task from its suspension point to the next one.  [draw]
    is the entropy for the attacker's initial weights, [coin] the one
    for the round's input. *)
Definition resume (task : ref) (draw : nat → nat → Z)
    (coin : nat → nat → bool) : M World unit :=
  t ← the_task task;
  let session := task_session t in
  match task_phase t with
  | Finished => mret tt
  | Pending =>
      if cancel_requested t then set_phase task Finished
      else
        next ← try_except (begin_sync session)
                 (λ e, _ ← broadcast session (error_frame "Sync error" None) [];
                       mret None);
        match next with
        | Some p => set_phase task p
        | None => finally task session
        end
  | ph =>
      if cancel_requested t then finally task session
      else
        next ← try_except
                 match ph with
                 | Looping a b vars => iteration session a b vars coin
                 | _ => enter_loop session draw coin
                 end
                 (λ e, _ ← broadcast session (error_frame "Sync error" None) [];
                       mret None);
        match next with
        | Some p => set_phase task p
        | None => finally task session
        end
  end.

End Handler.

(** ** A session from beginning to end

  Alice and Bob attach, the sync task runs, Alice attaches again, both
  leave.  The entropy is fixed: [draw_a] for the initial weights of
  both participants, [draw_e] for the attacker's and for Alice's
  second machine, [coin] for the round input. *)
Module Scenario.

Import Handler.

Definition after {A} (m : M World A) (w : World) : World := (m w).2.

Definition draw_a (k n : nat) : Z := Z.of_nat (k + n).
Definition draw_e (k n : nat) : Z := Z.of_nat (2 * k + n + 1).
Definition coin (k n : nat) : bool := Nat.even (k + n).

Definition alice_joined : World :=
  after (connect 1%nat "s"%string "alice"%string 3%nat 4%nat 3 draw_a) empty_world.
Definition bob_joined : World :=
  after (connect 2%nat "s"%string "bob"%string 3%nat 4%nat 3 draw_a) alice_joined.
(** The session object is 0, the machines 1 and 2, the task 3. *)
Definition task_spawned : World := after (start_sync_background 0%nat) bob_joined.
Definition sync_started : World := after (resume 3%nat draw_e coin) task_spawned.
Definition synced : World := after (resume 3%nat draw_e coin) sync_started.
(** The second step of the task in two halves: the attacker's machine
    (object 4) is made, then the first iteration of the loop runs. *)
Definition machine : TPM :=
  TreeParityMachine.mk 3 4 3 [[-3; -2; -1; 0]; [-2; -1; 0; 1]; [-1; 0; 1; 2]].
Definition attacker_ready : World :=
  after (init_attacker 0%nat 1%nat draw_e) sync_started.
Definition first_iteration : M World (option phase) :=
  iteration 0%nat 1%nat 2%nat (initial_vars machine machine) coin.
Definition round_done : World := after first_iteration attacker_ready.
Definition alice_rejoined : World :=
  after (connect 7%nat "s"%string "alice"%string 3%nat 4%nat 3 draw_e) synced.
Definition alice_left : World := after (disconnect "s"%string "alice"%string) alice_rejoined.
Definition bob_left : World := after (disconnect "s"%string "bob"%string) alice_left.

End Scenario.


(** * Properties *)

(** Split a conjunction without unfolding the definitions inside it. *)
Ltac splits := repeat match goal with |- _ ∧ _ => split end.

(** ** Reasoning about the exception/state monad *)

Section MonadLaws.
Context {S : Type}.

Lemma bind_ok {A B} (m : M S A) (f : A → M S B) s a s' :
  m s = (Ok a, s') → (m ≫= f) s = f a s'.
Proof. intros H. unfold mbind, M_bind. now rewrite H. Qed.

Lemma bind_raise {A B} (m : M S A) (f : A → M S B) s e s' :
  m s = (Raise e, s') → (m ≫= f) s = (Raise e, s').
Proof. intros H. unfold mbind, M_bind. now rewrite H. Qed.

Lemma bind_inv {A B} (m : M S A) (f : A → M S B) s r s' :
  (m ≫= f) s = (r, s') →
  (∃ a s1, m s = (Ok a, s1) ∧ f a s1 = (r, s')) ∨
  (∃ e, m s = (Raise e, s') ∧ r = Raise e).
Proof.
  unfold mbind, M_bind. destruct (m s) as [[a|e] s1]; intros H.
  - left. eauto.
  - right. inversion H; subst. eauto.
Qed.

(** A loop whose body keeps an invariant keeps it, whether it
    completes or raises on the way. *)
Lemma for_each_invariant {A} (I : S → Prop) (body : A → M S unit) xs :
  (∀ x s r s', x ∈ xs → I s → body x s = (r, s') → I s') →
  ∀ s r s', I s → for_each xs body s = (r, s') → I s'.
Proof.
  induction xs as [|x xs IH]; intros Hbody s r s' Hs Hrun; simpl in Hrun.
  - inversion Hrun; subst; assumption.
  - apply bind_inv in Hrun as [(a & s1 & Hb & Hrest) | (e & Hb & _)].
    + eapply IH; [| |exact Hrest].
      * intros y t r' t' Hy. apply Hbody. now right.
      * eapply Hbody; [left | exact Hs | exact Hb].
    + eapply Hbody; [left | exact Hs | exact Hb].
Qed.

(** A loop whose body always completes under an invariant completes. *)
Lemma for_each_total {A} (I : S → Prop) (body : A → M S unit) xs :
  (∀ x s, x ∈ xs → I s → ∃ s', body x s = (Ok tt, s') ∧ I s') →
  ∀ s, I s → ∃ s', for_each xs body s = (Ok tt, s') ∧ I s'.
Proof.
  induction xs as [|x xs IH]; intros Hbody s Hs; simpl.
  - exists s. split; [reflexivity | assumption].
  - destruct (Hbody x s) as (s1 & Hb & Hs1); [left | assumption |].
    destruct (IH (λ y t Hy, Hbody y t (list_elem_of_further _ _ _ Hy)) s1 Hs1)
      as (s2 & Hrest & Hs2).
    exists s2. split; [| assumption].
    erewrite bind_ok by exact Hb. exact Hrest.
Qed.

(** Two loops whose bodies simulate each other along [R] do so as a
    whole, as long as the first one completes. *)
Lemma for_each_sim {T A} (R : S → T → Prop)
    (body1 : A → M S unit) (body2 : A → M T unit) xs :
  (∀ x s t s', x ∈ xs → R s t → body1 x s = (Ok tt, s') →
               ∃ t', body2 x t = (Ok tt, t') ∧ R s' t') →
  ∀ s t s', R s t → for_each xs body1 s = (Ok tt, s') →
            ∃ t', for_each xs body2 t = (Ok tt, t') ∧ R s' t'.
Proof.
  induction xs as [|x xs IH]; intros Hbody s t s' HR Hrun; simpl in *.
  - injection Hrun as <-. exists t. split; [reflexivity | assumption].
  - apply bind_inv in Hrun as [([] & s1 & Hb & Hrest) | (e & _ & [=])].
    destruct (Hbody x s t s1) as (t1 & Hb2 & HR1); [left | assumption.. |].
    destruct (IH (λ y u v u' Hy, Hbody y u v u' (list_elem_of_further _ _ _ Hy))
                s1 t1 s' HR1 Hrest) as (t' & Hrest2 & HR').
    exists t'. split; [|assumption].
    unfold mbind, M_bind. rewrite Hb2. exact Hrest2.
Qed.

End MonadLaws.

(** ** neural/tpm.py *)

Section TpmFacts.
Import TreeParityMachine.

Lemma clip1_bounded L x : 0 ≤ L → - L ≤ clip1 (- L) L x ≤ L.
Proof. unfold clip1. lia. Qed.

Lemma np_clip_bounded L row :
  0 ≤ L → Forall (λ x, - L ≤ x ≤ L) (np_clip row (- L) L).
Proof.
  intros HL. unfold np_clip. apply Forall_fmap, Forall_true.
  intros x. now apply clip1_bounded.
Qed.

Lemma np_clip_length row lo hi : length (np_clip row lo hi) = length row.
Proof. unfold np_clip. apply length_fmap. Qed.

Lemma update_neuron_inv X tau sigma rule k self r self' :
  update_neuron X tau sigma rule k self = (r, self') →
  K self' = K self ∧ N self' = N self ∧ L self' = L self ∧
  (self' = self ∨
   ∃ row, weights self' = <[k := np_clip row (- L self) (L self)]> (weights self)
          ∧ sigma !! k = Some tau
          ∧ (∀ w, weights self !! k = Some w → length row = length w)).
Proof.
  unfold update_neuron, mbind, M_bind, lift, get, setitem_weights, modify,
    mret, M_ret. simpl.
  destruct (getitem sigma k) as [s|e] eqn:Hsig; [|intros [= <- <-]; auto].
  destruct (decide (s = tau)) as [Hs|Hs]; [|intros [= <- <-]; auto].
  destruct (getitem (weights self) k) as [wk|e] eqn:Hwk; [|intros [= <- <-]; auto].
  destruct (getitem X k) as [xk|e]; [|intros [= <- <-]; auto].
  match goal with |- context [match ?r with Ok _ => _ | Raise _ => _ end] =>
    destruct r as [w1|e] eqn:Hw1 end; [|intros [= <- <-]; auto].
  intros [= <- <-]. simpl. repeat split; try reflexivity.
  right. exists w1. split; [|split].
  - now rewrite list_insert_insert_eq.
  - unfold getitem in Hsig. destruct (sigma !! k); congruence.
  - intros w Hw. unfold getitem in Hwk. rewrite Hw in Hwk. injection Hwk as ->.
    destruct rule; unfold elementwise in Hw1;
      destruct (decide _) as [Hl|]; try discriminate;
      injection Hw1 as <-; rewrite length_zip_with; unfold scale in *;
      rewrite ?length_fmap in *; lia.
Qed.


Lemma getitem_Some {A} (l : list A) i a : l !! i = Some a → getitem l i = Ok a.
Proof. unfold getitem. now intros ->. Qed.

Lemma getitem_lt {A} (l : list A) i :
  (i < length l)%nat → ∃ a, l !! i = Some a ∧ getitem l i = Ok a.
Proof.
  intros Hi. destruct (lookup_lt_is_Some_2 l i Hi) as [a Ha].
  exists a. split; [assumption | now apply getitem_Some].
Qed.

Lemma shaped_insert K N w k row :
  shaped K N w → length row = N → shaped K N (<[k := row]> w).
Proof.
  intros [Hlen Hrows] Hrow. split.
  - now rewrite length_insert.
  - now apply Forall_insert.
Qed.

Lemma shaped_lookup K N w k row :
  shaped K N w → w !! k = Some row → length row = N.
Proof. intros [_ Hrows] Hk. eapply Forall_lookup_1 in Hrows; eauto. Qed.

Lemma update_neuron_total X tau sigma rule k self :
  shaped (K self) (N self) (weights self) →
  shaped (K self) (N self) X →
  length sigma = K self →
  (k < K self)%nat →
  ∃ self', update_neuron X tau sigma rule k self = (Ok tt, self').
Proof.
  intros HW HX Hsig Hk.
  destruct (getitem_lt sigma k) as (s & _ & Hs); [lia|].
  destruct (getitem_lt (weights self) k) as (wk & Hwk' & Hwk); [destruct HW; lia|].
  destruct (getitem_lt X k) as (xk & Hxk' & Hxk); [destruct HX; lia|].
  pose proof (shaped_lookup _ _ _ _ _ HW Hwk') as Hlw.
  pose proof (shaped_lookup _ _ _ _ _ HX Hxk') as Hlx.
  unfold update_neuron, mbind, M_bind, lift, get, setitem_weights, modify,
    mret, M_ret. simpl. rewrite Hs.
  destruct (decide (s = tau)); [|eauto].
  rewrite Hwk, Hxk.
  destruct rule; unfold elementwise, scale; rewrite ?length_fmap;
    (destruct (decide _) as [_|Hne]; [eauto | lia]).
Qed.

(** What a call to [update_weights] may change, whatever its outcome. *)
Lemma update_weights_frame X tau_self tau_other sigma rule self r self' :
  update_weights X tau_self tau_other sigma rule self = (r, self') →
  K self' = K self ∧ N self' = N self ∧ L self' = L self ∧
  (shaped (K self) (N self) (weights self) →
   shaped (K self) (N self) (weights self')) ∧
  (0 ≤ L self → bounded (L self) (weights self) →
   bounded (L self) (weights self')) ∧
  (∀ k, sigma !! k ≠ Some tau_self → weights self' !! k = weights self !! k).
Proof.
  unfold update_weights.
  destruct (decide (tau_self ≠ tau_other)) as [Hne|Heq].
  { intros [= <- <-]. splits; auto. }
  intros Hrun.
  apply bind_inv in Hrun as [(s0 & s1 & Hget & Hrun) | (e & Hget & _)];
    [|discriminate].
  injection Hget as <- <-.
  set (I := λ s : t,
    K s = K self ∧ N s = N self ∧ L s = L self ∧
    (shaped (K self) (N self) (weights self) →
     shaped (K self) (N self) (weights s)) ∧
    (0 ≤ L self → bounded (L self) (weights self) →
     bounded (L self) (weights s)) ∧
    (∀ k, sigma !! k ≠ Some tau_self → weights s !! k = weights self !! k)).
  assert (Hloop : ∀ r1 s1, for_each (range (K self))
                    (update_neuron X tau_self sigma rule) self = (r1, s1) → I s1).
  { intros r1 s1. apply (for_each_invariant I); subst I; cbv beta; [|splits; auto].
    clear. intros k s r s' _ (HK & HN & HL & Hsh & Hb & Hfr) Hbody.
    apply update_neuron_inv in Hbody
      as (HK' & HN' & HL' & [-> | (row & Hw & Hsig & Hlen)]).
    { splits; auto. }
    splits; try congruence.
    - intros H0. specialize (Hsh H0). rewrite Hw.
      destruct (weights s !! k) as [w|] eqn:Hk.
      + apply shaped_insert; [assumption|].
        rewrite np_clip_length, (Hlen w eq_refl).
        eapply shaped_lookup; [exact Hsh | exact Hk].
      + rewrite list_insert_ge; [assumption|]. now apply lookup_ge_None.
    - intros H0 H1. specialize (Hb H0 H1). rewrite Hw, HL.
      apply Forall_insert; [assumption|]. now apply np_clip_bounded.
    - intros j Hj. rewrite Hw, list_lookup_insert_ne; [auto|]. congruence. }
  apply bind_inv in Hrun as [([] & s2 & Hfor & Hret) | (e & Hfor & _)].
  - injection Hret as <- <-. exact (Hloop _ _ Hfor).
  - exact (Hloop _ _ Hfor).
Qed.

Lemma update_weights_total X tau_self tau_other sigma rule self :
  shaped (K self) (N self) (weights self) →
  shaped (K self) (N self) X →
  length sigma = K self →
  ∃ self', update_weights X tau_self tau_other sigma rule self
           = (Ok (bool_decide (tau_self = tau_other)), self').
Proof.
  intros HW HX Hsig. unfold update_weights.
  destruct (decide (tau_self ≠ tau_other)) as [Hne|Heq].
  { exists self. now rewrite bool_decide_eq_false_2. }
  rewrite bool_decide_eq_true_2 by (destruct (decide (tau_self = tau_other)); tauto).
  set (I := λ s : t, K s = K self ∧ N s = N self ∧
                     shaped (K self) (N self) (weights s)).
  destruct (for_each_total I (update_neuron X tau_self sigma rule)
              (range (K self))) with (s := self) as (s' & Hfor & _).
  - subst I; cbv beta. intros k s Hk (HK & HN & Hsh).
    apply elem_of_seq in Hk.
    destruct (update_neuron_total X tau_self sigma rule k s) as [s' Hs'];
      rewrite ?HK, ?HN; auto; [lia|].
    exists s'. split; [assumption|].
    pose proof Hs' as Hinv.
    apply update_neuron_inv in Hinv
      as (HK' & HN' & HL' & [-> | (row & Hw & _ & Hlen)]); [now splits|].
    splits; try congruence. rewrite Hw.
    destruct (weights s !! k) as [w|] eqn:Hwk.
    + apply shaped_insert; [assumption|].
      rewrite np_clip_length, (Hlen w eq_refl).
      eapply shaped_lookup; [exact Hsh | exact Hwk].
    + rewrite list_insert_ge; [assumption|]. now apply lookup_ge_None.
  - now splits.
  - exists s'. erewrite bind_ok by reflexivity.
    erewrite bind_ok by exact Hfor. reflexivity.
Qed.

End TpmFacts.

(** ** The end-game convergence assist (handler.py, "FINAL PUSH") *)

Ltac munfold :=
unfold mbind, M_bind, lift, get, put, modify, mret, M_ret, raise in *;
simpl in *.

(** Case analysis on the next fallible step of a monadic run in [H]. *)
Ltac mcase H :=
match type of H with
| context [match ?r with Ok _ => _ | Raise _ => _ end] =>
    let E := fresh "E" in destruct r eqn:E
| context [match ?r with Some _ => _ | None => _ end] =>
    let E := fresh "E" in destruct r eqn:E
| context [if decide ?P then _ else _] =>
    let E := fresh "E" in destruct (decide P) as [E|E]
| context [if ?b then _ else _] =>
    let E := fresh "E" in destruct b eqn:E
end.

Section FinalPush.
Import TreeParityMachine Handler.

Definition same_params (s s' : TPM) : Prop :=
  K s' = K s ∧ N s' = N s ∧ L s' = L s.

Lemma same_params_refl s : same_params s s.
Proof. now unfold same_params. Qed.

Lemma same_params_trans s1 s2 s3 :
  same_params s1 s2 → same_params s2 s3 → same_params s1 s3.
Proof. unfold same_params. intuition congruence. Qed.

Lemma setitem2_bounded l w k n v :
  bounded l w → - l ≤ v ≤ l → bounded l (setitem2 w k n v).
Proof.
  intros Hw Hv. unfold setitem2, bounded.
  apply Forall_alter; [assumption|].
  intros row _ Hrow. now apply Forall_insert.
Qed.

Lemma setitem2_shaped K N w k n v :
  shaped K N w → shaped K N (setitem2 w k n v).
Proof.
  intros [Hlen Hrows]. unfold setitem2. split.
  - now rewrite length_alter.
  - apply Forall_alter; [assumption|].
    intros row _ Hrow. now rewrite length_insert.
Qed.

(** The state of both machines stays inside [[-l, l]] and keeps its shape. *)
Definition pair_ok (tpm_k tpm_n : nat) (tpm_l : Z) (p0 p : pair) : Prop :=
  same_params (fst p0) (fst p) ∧ same_params (snd p0) (snd p) ∧
  (bounded tpm_l (weights (fst p0)) → bounded tpm_l (weights (fst p))) ∧
  (bounded tpm_l (weights (snd p0)) → bounded tpm_l (weights (snd p))) ∧
  (shaped tpm_k tpm_n (weights (fst p0)) → shaped tpm_k tpm_n (weights (fst p))) ∧
  (shaped tpm_k tpm_n (weights (snd p0)) → shaped tpm_k tpm_n (weights (snd p))).

Lemma pair_ok_refl k n l p : pair_ok k n l p p.
Proof. unfold pair_ok. splits; auto using same_params_refl. Qed.

Lemma pair_ok_trans k n l p1 p2 p3 :
  pair_ok k n l p1 p2 → pair_ok k n l p2 p3 → pair_ok k n l p1 p3.
Proof.
  unfold pair_ok. intros (A1 & B1 & C1 & D1 & E1 & F1) (A2 & B2 & C2 & D2 & E2 & F2).
  splits; eauto using same_params_trans.
Qed.

Lemma direct_convergence_ok tpm_k tpm_n tpm_l wd k n p r p' :
  0 ≤ tpm_l →
  direct_convergence tpm_l wd k n p = (r, p') → pair_ok tpm_k tpm_n tpm_l p p'.
Proof.
  intros Hl H. destruct p as [a b]. unfold direct_convergence, set_a, set_b in H.
  munfold. repeat (mcase H; try (injection H as <- <-; apply pair_ok_refl)).
  all: injection H as <- <-; unfold pair_ok, same_params; simpl;
    splits; try reflexivity; intros;
    try (apply setitem2_bounded; [assumption | now apply clip1_bounded]);
    now apply setitem2_shaped.
Qed.


Lemma elementwise_length f a b r :
  elementwise f a b = Ok r → length a = length b ∧ length r = length a.
Proof.
  unfold elementwise. destruct (decide _) as [Hl|]; [|discriminate].
  intros [= <-]. rewrite length_zip_with. lia.
Qed.

Lemma boost_row_spec l rule step w x s row :
  boost_row l rule step w x s = Ok (Some row) →
  length row = length w ∧ (0 ≤ l → Forall (λ v, - l ≤ v ≤ l) row).
Proof.
  unfold boost_row. destruct rule; try discriminate;
    (destruct (elementwise _ _ _) as [r|] eqn:E; simpl; [|discriminate]);
    intros [= <-]; apply elementwise_length in E as [_ E];
    (split; [now rewrite np_clip_length | intros; now apply np_clip_bounded]).
Qed.

Lemma insert_row_shaped K N w k row old :
  shaped K N w → w !! k = Some old → length row = length old →
  shaped K N (<[k := row]> w).
Proof.
  intros Hsh Hk Hlen. apply shaped_insert; [assumption|].
  rewrite Hlen. eapply shaped_lookup; eauto.
Qed.

Lemma getitem_inv {A} (l : list A) i a : getitem l i = Ok a → l !! i = Some a.
Proof. unfold getitem. destruct (l !! i); now intros [= ->]. Qed.

Lemma boost_ok tpm_k tpm_n tpm_l X sigma_a sigma_b tau_a tau_b rule progress k p r p' :
  0 ≤ tpm_l →
  boost tpm_l X sigma_a sigma_b tau_a tau_b rule progress k p = (r, p') →
  pair_ok tpm_k tpm_n tpm_l p p'.
Proof.
  intros Hl H. destruct p as [a b]. unfold boost, set_row_a, set_row_b in H.
  munfold.
  repeat (mcase H; try (injection H as <- <-));
    repeat match goal with
    | E : boost_row _ _ _ _ _ _ = Ok (Some _) |- _ =>
        apply boost_row_spec in E as [? ?]
    | E : getitem _ _ = Ok _ |- _ => apply getitem_inv in E
    end;
    unfold pair_ok, same_params; simpl; splits; try reflexivity; intros;
    try assumption;
    try (apply Forall_insert; now auto);
    try (eapply insert_row_shaped; now eauto).
Qed.

(** Whatever its outcome, the assist leaves both machines with their
    parameters, inside [[-l, l]] and in shape. *)
Lemma final_push_ok tpm_k tpm_n tpm_l X sigma_a sigma_b tau_a tau_b rule
    max_diff progress weights_match p r p' :
  0 ≤ tpm_l →
  final_push tpm_k tpm_n tpm_l X sigma_a sigma_b tau_a tau_b rule
    max_diff progress weights_match p = (r, p') →
  pair_ok tpm_k tpm_n tpm_l p p'.
Proof.
  intros Hl H. unfold final_push in H.
  destruct (ge progress (85 # 100) && negb weights_match);
    [|injection H as <- <-; apply pair_ok_refl].
  apply bind_inv in H as [(p0 & s0 & Hget & H) | (e & Hget & _)];
    [|discriminate].
  destruct p as [a b]. injection Hget as <- <-.
  apply bind_inv in H as [(wd & s0 & Hwd & H) | (e & Hwd & _)];
    [| unfold lift in Hwd; injection Hwd as _ <-; apply pair_ok_refl].
  unfold lift in Hwd. injection Hwd as _ <-.
  assert (Hdc : ∀ r1 p1,
    (if ge progress (90 # 100)
     then for_each (range tpm_k) (λ k, for_each (range tpm_n) (λ n,
            direct_convergence tpm_l wd k n))
     else mret tt) (a, b) = (r1, p1) → pair_ok tpm_k tpm_n tpm_l (a, b) p1).
  { intros r1 p1. destruct (ge progress (90 # 100));
      [|intros [= <- <-]; apply pair_ok_refl].
    apply (for_each_invariant (pair_ok tpm_k tpm_n tpm_l (a, b)));
      [|apply pair_ok_refl].
    intros k s r2 s' _ Hs.
    apply (for_each_invariant (pair_ok tpm_k tpm_n tpm_l (a, b)));
      [|assumption].
    intros n s1 r3 s1' _ Hs1 Hb. eapply pair_ok_trans; [exact Hs1|].
    eapply direct_convergence_ok; eauto. }
  apply bind_inv in H as [([] & p1 & H1 & H) | (e & H1 & _)];
    [|eapply Hdc; eauto].
  apply Hdc in H1.
  assert (Hbo : ∀ r2 p2,
    (if bool_decide (tau_a = tau_b) && ge progress (85 # 100)
     then for_each (range tpm_k)
            (boost tpm_l X sigma_a sigma_b tau_a tau_b rule progress)
     else mret tt) p1 = (r2, p2) → pair_ok tpm_k tpm_n tpm_l (a, b) p2).
  { intros r2 p2. destruct (_ && _); [|intros [= <- <-]; assumption].
    apply (for_each_invariant (pair_ok tpm_k tpm_n tpm_l (a, b)));
      [|assumption].
    intros k s r3 s' _ Hs Hb. eapply pair_ok_trans; [exact Hs|].
    eapply boost_ok; eauto. }
  apply bind_inv in H as [([] & p2 & H2 & H) | (e & H2 & _)];
    [|eapply Hbo; eauto].
  apply Hbo in H2.
  destruct p2 as [a2 b2]. munfold.
  destruct (weight_diff_sum _ _); injection H as <- <-; assumption.
Qed.


(** *** The assist completes on well-shaped data *)

Lemma elementwise2_shaped f a : ∀ b K N,
  shaped K N a → shaped K N b →
  ∃ d, elementwise2 f a b = Ok d ∧ shaped K N d.
Proof.
  induction a as [|ra a IH]; intros [|rb b] K N [Hla Hra] [Hlb Hrb];
    simpl in *; try lia.
  - exists []. split; [reflexivity|]. split; [assumption | constructor].
  - apply Forall_cons in Hra as [Hra Hra'], Hrb as [Hrb Hrb'].
    destruct K as [|K]; [lia|].
    destruct (IH b K N) as (d & Hd & Hdl & Hdr); [split; [lia|assumption]..|].
    unfold elementwise. rewrite decide_True by congruence. simpl.
    rewrite Hd. simpl. eexists. split; [reflexivity|]. split.
    + simpl. lia.
    + constructor; [|assumption]. rewrite length_zip_with. lia.
Qed.

Lemma abs_diff_shaped a b K N :
  shaped K N a → shaped K N b → ∃ d, abs_diff a b = Ok d ∧ shaped K N d.
Proof.
  intros Ha Hb. unfold abs_diff.
  destruct (elementwise2_shaped i64_sub a b K N Ha Hb) as (d & -> & Hl & Hr).
  simpl. eexists. split; [reflexivity|]. split.
  - now rewrite length_map.
  - apply Forall_map. eapply Forall_impl; [exact Hr|].
    intros row Hrow. simpl. now rewrite length_map.
Qed.

Lemma getitem2_shaped w K N k n :
  shaped K N w → (k < K)%nat → (n < N)%nat → ∃ v, getitem2 w k n = Ok v.
Proof.
  intros Hsh Hk Hn. unfold getitem2.
  destruct (getitem_lt w k) as (row & Hrow & ->); [destruct Hsh; lia|]. simpl.
  destruct (getitem_lt row n) as (v & _ & ->); [|eauto].
  now rewrite (shaped_lookup _ _ _ _ _ Hsh Hrow).
Qed.

Definition pair_shaped (tpm_k tpm_n : nat) (p : pair) : Prop :=
  shaped tpm_k tpm_n (weights (fst p)) ∧ shaped tpm_k tpm_n (weights (snd p)).

Lemma pair_ok_shaped k n l p p' :
  pair_ok k n l p p' → pair_shaped k n p → pair_shaped k n p'.
Proof. intros (_ & _ & _ & _ & Ha & Hb) [? ?]. split; auto. Qed.

Lemma direct_convergence_total tpm_k tpm_n tpm_l wd k n p :
  0 ≤ tpm_l → shaped tpm_k tpm_n wd → pair_shaped tpm_k tpm_n p →
  (k < tpm_k)%nat → (n < tpm_n)%nat →
  ∃ p', direct_convergence tpm_l wd k n p = (Ok tt, p') ∧ pair_shaped tpm_k tpm_n p'.
Proof.
  intros Hl Hwd [Ha Hb] Hk Hn. destruct p as [a b]. simpl in *.
  destruct (getitem2_shaped wd _ _ k n Hwd Hk Hn) as [d Hd].
  destruct (getitem2_shaped _ _ _ k n Ha Hk Hn) as [wa Hwa].
  destruct (getitem2_shaped _ _ _ k n Hb Hk Hn) as [wb Hwb].
  assert (∃ p', direct_convergence tpm_l wd k n (a, b) = (Ok tt, p'))
    as [p' Hp'].
  { unfold direct_convergence, set_a, set_b. munfold. rewrite Hd.
    destruct (decide (d = 1)); [|eauto]. rewrite Hwa, Hwb.
    destruct (decide _); eauto. }
  exists p'. split; [assumption|].
  eapply pair_ok_shaped; [eapply direct_convergence_ok; eauto|].
  split; assumption.
Qed.

Lemma boost_total tpm_k tpm_n tpm_l X sigma_a sigma_b tau_a tau_b rule progress k p :
  0 ≤ tpm_l → shaped tpm_k tpm_n X →
  length sigma_a = tpm_k → length sigma_b = tpm_k →
  pair_shaped tpm_k tpm_n p → (k < tpm_k)%nat →
  ∃ p', boost tpm_l X sigma_a sigma_b tau_a tau_b rule progress k p = (Ok tt, p')
        ∧ pair_shaped tpm_k tpm_n p'.
Proof.
  intros Hl HX Hsa Hsb [Ha Hb] Hk. destruct p as [a b]. simpl in *.
  destruct (getitem_lt sigma_a k) as (sa & _ & Hsa'); [lia|].
  destruct (getitem_lt sigma_b k) as (sb & _ & Hsb'); [lia|].
  destruct (getitem_lt (weights a) k) as (wa & Hwa' & Hwa); [destruct Ha; lia|].
  destruct (getitem_lt (weights b) k) as (wb & Hwb' & Hwb); [destruct Hb; lia|].
  destruct (getitem_lt X k) as (x & Hx' & Hx); [destruct HX; lia|].
  pose proof (shaped_lookup _ _ _ _ _ Ha Hwa') as Hla.
  pose proof (shaped_lookup _ _ _ _ _ Hb Hwb') as Hlb.
  pose proof (shaped_lookup _ _ _ _ _ HX Hx') as Hlx.
  assert (Hrow : ∀ w s step, length w = tpm_n →
            ∃ o, boost_row tpm_l rule step w x s = Ok o).
  { intros w s step Hw. unfold boost_row, elementwise, scale.
    destruct rule; rewrite ?length_fmap;
      try rewrite decide_True by congruence; simpl; eauto. }
  assert (∃ p', boost tpm_l X sigma_a sigma_b tau_a tau_b rule progress k (a, b)
                = (Ok tt, p')) as [p' Hp'].
  { unfold boost, set_row_a, set_row_b. munfold. rewrite Hsa'.
    destruct (decide (sa = tau_a)).
    - rewrite Hwa, Hx.
      destruct (Hrow wa sa (if ge progress (90 # 100) then 2 else 1) Hla)
        as [oa ->].
      destruct oa as [ra|]; simpl; rewrite Hsb';
        (destruct (decide (sb = tau_b)); [|eauto]); rewrite Hwb, ?Hx;
        destruct (Hrow wb sb (if ge progress (90 # 100) then 2 else 1) Hlb)
          as [ob ->]; destruct ob; eauto.
    - rewrite Hsb'. destruct (decide (sb = tau_b)); [|eauto].
      rewrite Hwb, ?Hx.
      destruct (Hrow wb sb (if ge progress (90 # 100) then 2 else 1) Hlb)
        as [ob ->]; destruct ob; eauto. }
  exists p'. split; [assumption|].
  eapply pair_ok_shaped; [eapply boost_ok; eauto|]. split; assumption.
Qed.

Lemma final_push_total tpm_k tpm_n tpm_l X sigma_a sigma_b tau_a tau_b rule
    max_diff progress weights_match p :
  0 ≤ tpm_l → shaped tpm_k tpm_n X →
  length sigma_a = tpm_k → length sigma_b = tpm_k →
  pair_shaped tpm_k tpm_n p →
  ∃ r p', final_push tpm_k tpm_n tpm_l X sigma_a sigma_b tau_a tau_b rule
            max_diff progress weights_match p = (Ok r, p').
Proof.
  intros Hl HX Hsa Hsb Hp. unfold final_push.
  destruct (ge progress (85 # 100) && negb weights_match); [|eauto].
  destruct p as [a b]. erewrite bind_ok by reflexivity.
  destruct Hp as [Ha Hb]. simpl in Ha, Hb.
  destruct (abs_diff_shaped _ _ _ _ Ha Hb) as (wd & Hwd & Hwds).
  erewrite bind_ok by (unfold lift; rewrite Hwd; reflexivity).
  assert (∃ p1, (if ge progress (90 # 100)
     then for_each (range tpm_k) (λ k, for_each (range tpm_n) (λ n,
            direct_convergence tpm_l wd k n))
     else mret tt) (a, b) = (Ok tt, p1) ∧ pair_shaped tpm_k tpm_n p1)
    as (p1 & H1 & Hp1).
  { destruct (ge progress (90 # 100));
      [|exists (a, b); split; [reflexivity | split; assumption]].
    apply (for_each_total (pair_shaped tpm_k tpm_n)); [|split; assumption].
    intros k s Hk Hs. apply elem_of_seq in Hk.
    apply (for_each_total (pair_shaped tpm_k tpm_n)); [|assumption].
    intros n s1 Hn Hs1. apply elem_of_seq in Hn.
    apply direct_convergence_total; auto; lia. }
  erewrite bind_ok by exact H1.
  assert (∃ p2, (if bool_decide (tau_a = tau_b) && ge progress (85 # 100)
     then for_each (range tpm_k)
            (boost tpm_l X sigma_a sigma_b tau_a tau_b rule progress)
     else mret tt) p1 = (Ok tt, p2) ∧ pair_shaped tpm_k tpm_n p2)
    as (p2 & H2 & Hp2).
  { destruct (_ && _); [|exists p1; split; [reflexivity | assumption]].
    apply (for_each_total (pair_shaped tpm_k tpm_n)); [|assumption].
    intros k s Hk Hs. apply elem_of_seq in Hk.
    apply boost_total; auto; lia. }
  erewrite bind_ok by exact H2.
  destruct p2 as [a2 b2]. erewrite bind_ok by reflexivity.
  destruct Hp2 as [Ha2 Hb2]. simpl in Ha2, Hb2.
  destruct (abs_diff_shaped _ _ _ _ Ha2 Hb2) as (wd2 & Hwd2 & _).
  unfold weight_diff_sum. rewrite Hwd2. munfold. eauto.
Qed.


(** *** The assist treats both parties alike *)

Lemma i64_abs_sub_sym x y : i64_abs (i64_sub x y) = i64_abs (i64_sub y x).
Proof.
  unfold i64_abs, i64_sub, wrap64. f_equal. f_equal. f_equal.
  change (2 ^ 63) with 9223372036854775808.
  change (2 ^ 64) with 18446744073709551616.
  Z.div_mod_to_equations. lia.
Qed.

Lemma abs_diff_sym a : ∀ b, abs_diff a b = abs_diff b a.
Proof.
  unfold abs_diff.
  induction a as [|ra a IH]; intros [|rb b]; simpl; try reflexivity.
  unfold elementwise.
  destruct (decide (length ra = length rb)) as [Hl|Hl].
  - rewrite (decide_True (P := length rb = length ra)) by congruence. simpl.
    specialize (IH b).
    destruct (elementwise2 i64_sub a b) as [d|e],
             (elementwise2 i64_sub b a) as [d'|e']; simpl in *;
      try congruence.
    injection IH as IH. f_equal. f_equal; [|assumption].
    clear -Hl. revert rb Hl.
    induction ra as [|x ra IHr]; intros [|y rb] Hl; simpl in *;
      try reflexivity; try lia.
    f_equal; [apply i64_abs_sub_sym | apply IHr; lia].
  - rewrite (decide_False (P := length rb = length ra)) by congruence.
    reflexivity.
Qed.

Lemma weight_diff_sum_sym a b : weight_diff_sum a b = weight_diff_sum b a.
Proof. unfold weight_diff_sum. now rewrite abs_diff_sym. Qed.

Lemma array_equal_sym a b : array_equal a b = array_equal b a.
Proof. unfold array_equal. apply bool_decide_ext. split; congruence. Qed.

Definition swapped (p q : pair) : Prop := q = (snd p, fst p).

Lemma direct_convergence_sym tpm_l wd k n p q p' :
  swapped p q →
  direct_convergence tpm_l wd k n p = (Ok tt, p') →
  ∃ q', direct_convergence tpm_l wd k n q = (Ok tt, q') ∧ swapped p' q'.
Proof.
  destruct p as [a b]. intros -> H. simpl.
  unfold direct_convergence, set_a, set_b in *. munfold.
  destruct (getitem2 wd k n) as [d|]; [|discriminate].
  destruct (decide (d = 1)); [|injection H as <-; eexists; split; reflexivity].
  destruct (getitem2 (weights a) k n) as [wa|]; [|discriminate].
  destruct (getitem2 (weights b) k n) as [wb|]; [|discriminate].
  rewrite (i64_abs_sub_sym wa wb).
  destruct (decide (i64_abs (i64_sub wb wa) = 1));
    [|injection H as <-; eexists; split; reflexivity].
  injection H as <-. eexists. split; [reflexivity|].
  unfold swapped. simpl.
  destruct (decide (wa < wb)), (decide (wb < wa)); try lia; try reflexivity.
  assert (wa = wb) as -> by lia. reflexivity.
Qed.

Lemma boost_sym tpm_l X sigma_a sigma_b tau_a tau_b rule progress k p q p' :
  swapped p q →
  boost tpm_l X sigma_a sigma_b tau_a tau_b rule progress k p = (Ok tt, p') →
  ∃ q', boost tpm_l X sigma_b sigma_a tau_b tau_a rule progress k q = (Ok tt, q')
        ∧ swapped p' q'.
Proof.
  destruct p as [a b]. intros -> H. simpl.
  unfold boost, set_row_a, set_row_b in *. munfold.
  destruct (getitem sigma_a k) as [sa|]; [|discriminate].
  destruct (getitem sigma_b k) as [sb|] eqn:Hsb.
  2:{ destruct (decide (sa = tau_a)); [|discriminate].
      repeat (mcase H; try discriminate). }
  destruct (decide (sa = tau_a)), (decide (sb = tau_b));
    repeat (mcase H; try discriminate; simpl in H);
    injection H as <-; simpl;
    repeat match goal with E : _ = _ |- _ => rewrite E; simpl end;
    eexists; (split; [reflexivity|]); reflexivity.
Qed.


Lemma final_push_sym tpm_k tpm_n tpm_l X sigma_a sigma_b tau_a tau_b rule
    max_diff progress weights_match a b r a' b' :
  final_push tpm_k tpm_n tpm_l X sigma_a sigma_b tau_a tau_b rule
    max_diff progress weights_match (a, b) = (Ok r, (a', b')) →
  final_push tpm_k tpm_n tpm_l X sigma_b sigma_a tau_b tau_a rule
    max_diff progress weights_match (b, a) = (Ok r, (b', a')).
Proof.
  unfold final_push. intros H.
  destruct (ge progress (85 # 100) && negb weights_match);
    [|now injection H as <- <- <-].
  erewrite bind_ok in H |- * by reflexivity.
  cbv beta iota in H |- *.
  rewrite (abs_diff_sym (weights b) (weights a)).
  apply bind_inv in H as [(wd & s0 & Hwd & H) | (e & _ & [=])].
  unfold lift in Hwd. injection Hwd as Hwd <-.
  erewrite bind_ok by (unfold lift; rewrite Hwd; reflexivity).
  apply bind_inv in H as [([] & p1 & H1 & H) | (e & _ & [=])].
  assert (∃ q1, (if ge progress (90 # 100)
     then for_each (range tpm_k) (λ k, for_each (range tpm_n) (λ n,
            direct_convergence tpm_l wd k n))
     else mret tt) (b, a) = (Ok tt, q1) ∧ swapped p1 q1) as (q1 & G1 & Hq1).
  { destruct (ge progress (90 # 100)).
    - eapply (for_each_sim swapped) with (s := (a, b)) (t := (b, a));
        [|reflexivity|exact H1].
      intros k s t s' _ Hst. apply (for_each_sim swapped); [|assumption].
      intros n s1 t1 s1' _. apply direct_convergence_sym.
    - injection H1 as <-. eexists. split; reflexivity. }
  erewrite bind_ok by exact G1.
  apply bind_inv in H as [([] & p2 & H2 & H) | (e & _ & [=])].
  assert (∃ q2, (if bool_decide (tau_b = tau_a) && ge progress (85 # 100)
     then for_each (range tpm_k)
            (boost tpm_l X sigma_b sigma_a tau_b tau_a rule progress)
     else mret tt) q1 = (Ok tt, q2) ∧ swapped p2 q2) as (q2 & G2 & Hq2).
  { rewrite (bool_decide_ext (tau_b = tau_a) (tau_a = tau_b))
      by (split; congruence).
    destruct (_ && _).
    - eapply (for_each_sim swapped); [|exact Hq1|exact H2].
      intros k s t s' _. apply boost_sym.
    - injection H2 as <-. eexists. split; [reflexivity | assumption]. }
  erewrite bind_ok by exact G2.
  destruct p2 as [a2 b2]. unfold swapped in Hq2. subst q2. simpl.
  munfold. rewrite (weight_diff_sum_sym (weights b2) (weights a2)).
  destruct (weight_diff_sum _ _); [|discriminate].
  injection H as <- <- <-. now rewrite (array_equal_sym (weights b2)).
Qed.

End FinalPush.

(** ** Construction *)

Section Construction.
Import TreeParityMachine.

Lemma init_inv K0 N0 L0 draw self :
  __init__ K0 N0 L0 draw = Ok self →
  K self = K0 ∧ N self = N0 ∧ L self = L0 ∧ wf self.
Proof.
  unfold __init__, randint.
  destruct (decide _) as [(Hlt & Hlo & Hhi)|]; [|discriminate].
  simpl. intros [= <-]. simpl. splits; try reflexivity.
  unfold wf, shaped, bounded, range. simpl. splits.
  - now rewrite length_fmap, length_seq.
  - apply Forall_fmap, Forall_true. intros k. simpl.
    now rewrite length_fmap, length_seq.
  - lia.
  - apply Forall_fmap, Forall_true. intros k. simpl.
    apply Forall_fmap, Forall_true. intros n. simpl.
    pose proof (Z.mod_pos_bound (draw k n) (L0 + 1 - - L0)). lia.
Qed.

Lemma init_total K0 N0 L0 draw :
  0 ≤ L0 < 2 ^ 63 → ∃ self, __init__ K0 N0 L0 draw = Ok self.
Proof.
  intros HL. unfold __init__, randint.
  rewrite decide_True by lia. simpl. eauto.
Qed.

End Construction.

(** Decide a closed decidable proposition by evaluation. *)
Ltac by_compute := apply (bool_decide_unpack _); vm_compute; exact I.

(** ** The weight bound (C2) *)

Section WeightBound.
Import TreeParityMachine Handler.

(** C2. Every weight of a machine lies in [[-L, L]]: after
    construction, after every call to [update_weights] (whatever the
    input, the outputs, [sigma] and the rule, and whether the call
    completes or raises), and after every run of the end-game
    convergence assist on the two machines of a session. *)
Theorem weights_stay_bounded :
  (∀ K0 N0 L0 draw self,
      __init__ K0 N0 L0 draw = Ok self → wf self) ∧
  (∀ self X tau_self tau_other sigma rule r self',
      wf self →
      update_weights X tau_self tau_other sigma rule self = (r, self') →
      wf self') ∧
  (∀ a b X sigma_a sigma_b tau_a tau_b rule max_diff progress weights_match
     r a' b',
      wf a → wf b → K b = K a → N b = N a → L b = L a →
      final_push (K a) (N a) (L a) X sigma_a sigma_b tau_a tau_b rule
        max_diff progress weights_match (a, b) = (r, (a', b')) →
      wf a' ∧ wf b').
Proof.
  splits.
  - intros K0 N0 L0 draw self H. now apply init_inv in H.
  - intros self X tau_self tau_other sigma rule r self' (Hsh & HL & Hb) H.
    apply update_weights_frame in H as (HK & HN & HL' & Hsh' & Hb' & _).
    unfold wf. rewrite HK, HN, HL'. auto.
  - intros a b X sigma_a sigma_b tau_a tau_b rule max_diff progress
      weights_match r a' b' (Ha & HL & Hba) (Hbs & _ & Hbb) HK HN HLb H.
    apply (final_push_ok (K a) (N a) (L a)) in H; [|assumption].
    destruct H as ((HKa & HNa & HLa) & (HKb & HNb & HLb') & B1 & B2 & S1 & S2).
    simpl in *. unfold wf.
    rewrite HKa, HNa, HLa, HKb, HNb, HLb', HK, HN, HLb in *. auto 10.
Qed.

Definition tpm1 : TPM := mk 2 2 3 [[3; -3]; [0; 2]].
Definition tpm2 : TPM := mk 2 2 3 [[3; -2]; [1; 2]].

Lemma weights_stay_bounded_witness :
  wf (mk 2 2 3 [[2; -2]; [0; 2]]) ∧ wf (mk 2 2 3 [[3; -3]; [1; 2]]).
Proof.
  destruct weights_stay_bounded as (_ & Hupd & Hpush). split.
  - eapply (Hupd tpm1 [[-1; 1]; [1; 1]] 1 1 [1; -1] hebbian);
      [by_compute | vm_compute; reflexivity].
  - eapply proj1.
    eapply (Hpush tpm1 tpm2 [[1; -1]; [1; 1]] [1; -1] [1; 1] 1 1 random_walk
              24 (22 # 24) false);
      [by_compute | by_compute | reflexivity.. | vm_compute; reflexivity].
Defined.

End WeightBound.

(** ** What [update_weights] leaves alone (C4) *)

Section UpdateFrame.
Import TreeParityMachine.

(** C4. When the two outputs differ, [update_weights] returns [False]
    and changes nothing; when they agree it returns [True] and every
    row [k] with [sigma[k] ≠ tau] keeps its weights. *)
Theorem update_weights_only_agreeing_rows
    self X tau_self tau_other sigma rule :
  shaped (K self) (N self) (weights self) →
  is_input (K self) (N self) X →
  length sigma = K self →
  (tau_self ≠ tau_other →
   update_weights X tau_self tau_other sigma rule self = (Ok false, self)) ∧
  (tau_self = tau_other →
   ∃ self', update_weights X tau_self tau_other sigma rule self = (Ok true, self')
            ∧ ∀ k, sigma !! k ≠ Some tau_self →
                   weights self' !! k = weights self !! k).
Proof.
  intros Hsh [HX _] Hsig. split.
  - intros Hne. unfold update_weights. now rewrite decide_True.
  - intros Heq.
    destruct (update_weights_total X tau_self tau_other sigma rule self)
      as [self' Hrun]; auto.
    rewrite bool_decide_eq_true_2 in Hrun by assumption.
    exists self'. split; [assumption|].
    now apply update_weights_frame in Hrun as (_ & _ & _ & _ & _ & Hfr).
Qed.

Lemma update_weights_only_agreeing_rows_witness :
  update_weights [[1; -1]; [1; 1]] 1 (-1) [1; -1] hebbian tpm1 = (Ok false, tpm1) ∧
  ∃ self', update_weights [[1; -1]; [1; 1]] 1 1 [1; -1] hebbian tpm1
           = (Ok true, self')
           ∧ weights self' !! 1%nat = weights tpm1 !! 1%nat.
Proof.
  destruct (update_weights_only_agreeing_rows tpm1 [[1; -1]; [1; 1]] 1 (-1)
              [1; -1] hebbian) as [H1 _]; [by_compute.. | reflexivity |].
  destruct (update_weights_only_agreeing_rows tpm1 [[1; -1]; [1; 1]] 1 1
              [1; -1] hebbian) as [_ H2]; [by_compute.. | reflexivity |].
  split; [apply H1; lia|].
  destruct (H2 eq_refl) as (self' & Hrun & Hfr).
  exists self'. split; [assumption|]. apply Hfr. discriminate.
Defined.

(** The rows that do move: a concrete Hebbian step. *)
Example update_weights_hebbian_step :
  update_weights [[1; -1]; [1; 1]] 1 1 [1; -1] hebbian tpm1
  = (Ok true, mk 2 2 3 [[3; -3]; [0; 2]]) ∧
  update_weights [[-1; 1]; [1; 1]] 1 1 [1; -1] hebbian tpm1
  = (Ok true, mk 2 2 3 [[2; -2]; [0; 2]]).
Proof. split; reflexivity. Qed.

End UpdateFrame.

(** ** Symmetry of the end-game convergence assist (C8) *)

Section AssistSymmetry.
Import TreeParityMachine Handler.

(** C8. On two weight matrices of one shape, the end-game convergence
    assist completes, and running it with the two parties exchanged
    (matrices, hidden outputs and outputs swapped) yields the same two
    resulting matrices, exchanged, with the same recomputed progress
    and equality test. *)
Theorem final_push_symmetric
    tpm_k tpm_n tpm_l X sigma_a sigma_b tau_a tau_b rule max_diff
    progress weights_match a b :
  0 ≤ tpm_l →
  is_input tpm_k tpm_n X →
  length sigma_a = tpm_k → length sigma_b = tpm_k →
  shaped tpm_k tpm_n (weights a) → shaped tpm_k tpm_n (weights b) →
  ∃ r a' b',
    final_push tpm_k tpm_n tpm_l X sigma_a sigma_b tau_a tau_b rule
      max_diff progress weights_match (a, b) = (Ok r, (a', b')) ∧
    final_push tpm_k tpm_n tpm_l X sigma_b sigma_a tau_b tau_a rule
      max_diff progress weights_match (b, a) = (Ok r, (b', a')).
Proof.
  intros Hl [HX _] Hsa Hsb Ha Hb.
  destruct (final_push_total tpm_k tpm_n tpm_l X sigma_a sigma_b tau_a tau_b
              rule max_diff progress weights_match (a, b))
    as (r & [a' b'] & Hrun); auto; [split; assumption|].
  exists r, a', b'. split; [assumption|]. now apply final_push_sym.
Qed.

Lemma final_push_symmetric_witness :
  ∃ r a' b',
    final_push 2 2 3 [[1; -1]; [1; 1]] [1; -1] [1; 1] 1 1 random_walk 24
      (22 # 24) false (tpm1, tpm2) = (Ok r, (a', b')) ∧
    final_push 2 2 3 [[1; -1]; [1; 1]] [1; 1] [1; -1] 1 1 random_walk 24
      (22 # 24) false (tpm2, tpm1) = (Ok r, (b', a')).
Proof.
  apply final_push_symmetric; by_compute || reflexivity.
Defined.

(** The assist at work: both direct convergence and the boost fire. *)
Example final_push_example :
  final_push 2 2 3 [[1; -1]; [1; 1]] [1; -1] [1; 1] 1 1 random_walk 24
    (22 # 24) false (tpm1, tpm2)
  = (Ok (21 # 24, false),
     (mk 2 2 3 [[3; -3]; [1; 2]], mk 2 2 3 [[3; -3]; [3; 3]])).
Proof. vm_compute. reflexivity. Qed.

End AssistSymmetry.


(** ** Key derivation (C5) *)

Section KeyDerivationFacts.
Import TreeParityMachine KeyDerivation.

Lemma to_Z_of_Z z : to_Z (of_Z z) = z mod 256.
Proof.
  unfold to_Z, of_Z.
  pose proof (Z.mod_pos_bound z 256 eq_refl) as Hb.
  destruct (Byte.of_N (Z.to_N (z mod 256))) as [b|] eqn:E.
  - apply Byte.to_of_N in E. rewrite E. lia.
  - apply Byte.of_N_None_iff in E. lia.
Qed.

Lemma of_Z_mod z : of_Z (z mod 256) = of_Z z.
Proof. unfold of_Z. now rewrite Z.mod_mod. Qed.

Lemma of_Z_congr x y : x mod 256 = y mod 256 → of_Z x = of_Z y.
Proof. unfold of_Z. now intros ->. Qed.

Lemma le_bytes_length n z : length (le_bytes n z) = n.
Proof. revert z. induction n; intros z; simpl; [reflexivity | now rewrite IHn]. Qed.

Lemma be_bytes_length n z : length (be_bytes n z) = n.
Proof. unfold be_bytes. now rewrite length_rev, le_bytes_length. Qed.

Lemma sha256_length msg : length (hashlib.sha256 msg) = 32%nat.
Proof.
  unfold hashlib.sha256, hashlib.digest_of.
  destruct (fold_left _ _ _) as [[[[[[[a b] c] d] e] f] g] h].
  rewrite !length_app, !be_bytes_length. reflexivity.
Qed.

Lemma py_slice_prefix {A} (l : list A) n :
  0 ≤ n → py_slice None (Some n) l = take (Z.to_nat n) l.
Proof.
  intros Hn. unfold py_slice, slice_index. simpl.
  destruct (decide (n < 0)); [lia|]. rewrite Nat.sub_0_r, drop_0.
  destruct (Z.le_ge_cases n (Z.of_nat (length l))).
  - now rewrite Z.min_l.
  - rewrite Z.min_r, Nat2Z.id by assumption.
    rewrite !take_ge; [reflexivity | lia | lia].
Qed.

(** The C cast followed by the memory dump is the little-endian
    two's complement encoding. *)
Lemma le_bytes_wrap32 w : le_bytes 4 (wrap32 w) = le_int32 w.
Proof.
  unfold le_int32, wrap32. simpl.
  change 255 with (Z.ones 8).
  rewrite !Z.land_ones, !Z.shiftr_div_pow2 by lia.
  change (2 ^ 8) with 256. change (2 ^ 31) with 2147483648.
  change (2 ^ 32) with 4294967296.
  repeat match goal with |- _ :: _ = _ :: _ => f_equal end;
    apply of_Z_congr; Z.div_mod_to_equations; lia.
Qed.

Lemma tobytes_serialize W : tobytes (astype_int32 W) = serialize W.
Proof.
  unfold tobytes, astype_int32, serialize.
  induction W as [|row W IH]; [reflexivity|].
  change (map (map wrap32) (row :: W))
    with (map wrap32 row :: map (map wrap32) W).
  rewrite !concat_cons, !bind_app, IH. f_equal.
  clear. induction row as [|w row IH]; [reflexivity|].
  change (map wrap32 (w :: row)) with (wrap32 w :: map wrap32 row).
  now rewrite !bind_cons, IH, le_bytes_wrap32.
Qed.

Lemma le_int32_value_le_int32 w :
  - 2 ^ 31 ≤ w < 2 ^ 31 → le_int32_value (le_int32 w) = w.
Proof.
  intros Hw. unfold le_int32_value, le_int32. simpl.
  rewrite !to_Z_of_Z, !Z.mod_mod by lia.
  change (2 ^ 31) with 2147483648 in *. change (2 ^ 32) with 4294967296 in *.
  destruct (decide _) as [H|H]; revert H; Z.div_mod_to_equations; lia.
Qed.

(** C5. [get_key(length)] is the first [length] bytes of the SHA-256
    digest of the weights written row by row, each as a little-endian
    32-bit signed integer; machines with the same weight matrix derive
    the same key material. *)
Theorem get_key_is_sha256_of_le_int32_weights :
  (∀ self length,
      0 ≤ length →
      get_key self length = key (weights self) (Z.to_nat length)) ∧
  (∀ w, - 2 ^ 31 ≤ w < 2 ^ 31 → le_int32_value (le_int32 w) = w) ∧
  (∀ a b length, weights a = weights b → get_key a length = get_key b length).
Proof.
  splits.
  - intros self n Hn. unfold get_key, key.
    now rewrite tobytes_serialize, py_slice_prefix.
  - apply le_int32_value_le_int32.
  - intros a b n H. unfold get_key. now rewrite H.
Qed.

Lemma get_key_is_sha256_of_le_int32_weights_witness :
  get_key tpm1 32 = key (weights tpm1) 32 ∧
  le_int32_value (le_int32 (-3)) = -3 ∧
  get_key tpm1 16 = get_key (mk 5 7 9 [[3; -3]; [0; 2]]) 16.
Proof.
  destruct get_key_is_sha256_of_le_int32_weights as (H1 & H2 & H3).
  splits.
  - apply (H1 tpm1 32). lia.
  - apply (H2 (-3)). lia.
  - apply (H3 tpm1). reflexivity.
Defined.

(** The key of a concrete machine, as Python computes it:
    [hashlib.sha256(struct.pack("<4i", 3, -3, 0, 2)).digest()[:4]]. *)
Example get_key_example :
  tobytes (astype_int32 (weights tpm1))
  = [x03; x00; x00; x00; xfd; xff; xff; xff;
     x00; x00; x00; x00; x02; x00; x00; x00] ∧
  get_key tpm1 4 = [x14; x5f; x16; x89].
Proof. split; vm_compute; reflexivity. Qed.

End KeyDerivationFacts.


(** ** The progress measure (C7) *)

Section Progress.
Import TreeParityMachine Handler.

Lemma wrap64_small z : - 2 ^ 63 ≤ z < 2 ^ 63 → wrap64 z = z.
Proof.
  intros Hz. unfold wrap64.
  change (2 ^ 63) with 9223372036854775808 in *.
  change (2 ^ 64) with 18446744073709551616.
  Z.div_mod_to_equations. lia.
Qed.









Lemma elementwise2_zip f a : ∀ b K N,
  shaped K N a → shaped K N b →
  elementwise2 f a b = Ok (zip_with (zip_with f) a b).
Proof.
  induction a as [|ra a IH]; intros [|rb b] K N [Hla Hra] [Hlb Hrb];
    simpl in *; try lia; [reflexivity|].
  apply Forall_cons in Hra as [Hra Hra'], Hrb as [Hrb Hrb'].
  destruct K as [|K]; [lia|].
  rewrite (IH b K N) by (split; [lia | assumption]).
  unfold elementwise. rewrite decide_True by congruence. reflexivity.
Qed.







(** *** [progress_of] over the rationals *)





End Progress.

(** ** One round of the sync loop *)

Section Round.
Import TreeParityMachine Handler.

Lemma compute_output_total k n t X :
  shaped k n (weights t) → shaped k n X →
  ∃ tau sigma, compute_output t X = Ok (tau, sigma) ∧ length sigma = k.
Proof.
  intros Ht HX. unfold compute_output.
  destruct (elementwise2_shaped i64_mul X (weights t) k n HX Ht)
    as (prod & -> & Hlen & _).
  simpl. eexists _, _. split; [reflexivity|].
  now rewrite !length_fmap.
Qed.

Lemma update_weights_fits k n l X tau_self tau_other sigma rule t r t' :
  fits k n l t →
  update_weights X tau_self tau_other sigma rule t = (r, t') →
  fits k n l t'.
Proof.
  intros (HK & HN & HL & Hsh & Hl & Hb) H.
  apply update_weights_frame in H as (HK' & HN' & HL' & Hsh' & Hb' & _).
  unfold fits, wf. rewrite HK', HN', HL'. splits; auto.
Qed.

Lemma fits_shaped k n l t : fits k n l t → shaped k n (weights t).
Proof. intros (HK & HN & _ & H & _). now rewrite HK, HN in H. Qed.

Lemma fits_bounded k n l t : fits k n l t → bounded l (weights t) ∧ 0 ≤ l.
Proof. intros (_ & _ & HL & _ & H1 & H2). rewrite HL in *. auto. Qed.

Lemma update_weights_fits_total k n l X tau_self tau_other sigma rule t :
  fits k n l t → shaped k n X → length sigma = k →
  ∃ t', update_weights X tau_self tau_other sigma rule t
        = (Ok (bool_decide (tau_self = tau_other)), t') ∧ fits k n l t'.
Proof.
  intros Ht HX Hs. pose proof Ht as (HK & HN & _ & Hsh & _).
  destruct (update_weights_total X tau_self tau_other sigma rule t)
    as [t' Hrun]; [assumption | now rewrite HK, HN | now rewrite HK |].
  exists t'. split; [assumption|]. eapply update_weights_fits; eauto.
Qed.

(** The exchange of outputs completes and touches the weights of the
    two machines only. *)
Lemma exchange_spec k n l X s :
  locals_fit k n l s → shaped k n X →
  ∃ tau_a sigma_a tau_b sigma_b a' b',
    exchange X s
    = (Ok (tau_a, sigma_a, tau_b, sigma_b), set_tpm_b b' (set_tpm_a a' s)) ∧
    length sigma_a = k ∧ length sigma_b = k ∧
    fits k n l a' ∧ fits k n l b'.
Proof.
  intros (Ha & Hb & He) HX.
  destruct (compute_output_total k n (tpm_a s) X (fits_shaped _ _ _ _ Ha) HX)
    as (tau_a & sigma_a & Hca & Hla).
  destruct (compute_output_total k n (tpm_b s) X (fits_shaped _ _ _ _ Hb) HX)
    as (tau_b & sigma_b & Hcb & Hlb).
  destruct (update_weights_fits_total k n l X tau_a tau_b sigma_a
              (learning_rule s) (tpm_a s) Ha HX Hla) as (a' & Hua & Ha').
  destruct (update_weights_fits_total k n l X tau_b tau_a sigma_b
              (learning_rule s) (tpm_b s) Hb HX Hlb) as (b' & Hub & Hb').
  exists tau_a, sigma_a, tau_b, sigma_b, a', b'.
  splits; auto.
  unfold exchange, on_a, on_b, zoom. munfold. rewrite Hca, Hcb. simpl.
  rewrite Hua. simpl. rewrite Hub. reflexivity.
Qed.


Lemma final_push_reports tpm_k tpm_n tpm_l X sigma_a sigma_b tau_a tau_b rule
    m a b d p' wm' a' b' :
  weight_diff_sum (weights a) (weights b) = Ok d →
  final_push tpm_k tpm_n tpm_l X sigma_a sigma_b tau_a tau_b rule m
    (progress_of d m) (array_equal (weights a) (weights b)) (a, b)
  = (Ok (p', wm'), (a', b')) →
  ∃ d', weight_diff_sum (weights a') (weights b') = Ok d' ∧
        p' = progress_of d' m ∧
        wm' = array_equal (weights a') (weights b').
Proof.
  intros Hd H. unfold final_push in H.
  destruct (ge _ _ && negb _).
  2:{ injection H as <- <- <- <-. eauto. }
  apply bind_inv in H as [([a0 b0] & s0 & _ & H) | (e & _ & [=])].
  apply bind_inv in H as [(wd & s1 & _ & H) | (e & _ & [=])].
  apply bind_inv in H as [([] & s2 & _ & H) | (e & _ & [=])].
  apply bind_inv in H as [([] & s3 & _ & H) | (e & _ & [=])].
  apply bind_inv in H as [([a3 b3] & s4 & Hget & H) | (e & _ & [=])].
  unfold get in Hget. injection Hget as -> <-. munfold.
  destruct (weight_diff_sum (weights a3) (weights b3)) as [d'|] eqn:Hd';
    [|discriminate].
  injection H as <- <- <- <-. eauto.
Qed.

Lemma weight_diff_sum_total k n a b :
  shaped k n a → shaped k n b → ∃ d, weight_diff_sum a b = Ok d.
Proof.
  intros Ha Hb. unfold weight_diff_sum.
  destruct (abs_diff_shaped a b k n Ha Hb) as (d & -> & _). simpl. eauto.
Qed.

Lemma pair_ok_fits k n l a b a' b' :
  0 ≤ l → pair_ok k n l (a, b) (a', b') →
  fits k n l a → fits k n l b → fits k n l a' ∧ fits k n l b'.
Proof.
  intros Hl ((HKa & HNa & HLa) & (HKb & HNb & HLb) & B1 & B2 & S1 & S2).
  simpl in *.
  intros (Ka & Na & La & Sa & _ & Ba) (Kb & Nb & Lb & Sb & _ & Bb).
  unfold fits, wf.
  rewrite HKa, HNa, HLa, HKb, HNb, HLb, Ka, Na, La, Kb, Nb, Lb in *.
  splits; auto.
Qed.

(** The assessment completes, touches the two machines only, and
    reports the progress and the equality of the weights it leaves. *)
Lemma assess_spec k n l X sigma_a sigma_b tau_a tau_b s :
  fits k n l (tpm_a s) → fits k n l (tpm_b s) → shaped k n X →
  length sigma_a = k → length sigma_b = k →
  ∃ p wm a' b' d',
    assess k n l X sigma_a sigma_b tau_a tau_b s
    = (Ok (p, wm), set_tpm_b b' (set_tpm_a a' s)) ∧
    fits k n l a' ∧ fits k n l b' ∧
    weight_diff_sum (weights a') (weights b') = Ok d' ∧
    p = progress_of d' (max_possible_diff k n l) ∧
    wm = array_equal (weights a') (weights b').
Proof.
  intros Ha Hb HX Hsa Hsb.
  destruct (weight_diff_sum_total k n (weights (tpm_a s)) (weights (tpm_b s)))
    as [d Hd]; [eapply fits_shaped; eauto..|].
  destruct (fits_bounded _ _ _ _ Ha) as [_ Hl].
  destruct (final_push_total k n l X sigma_a sigma_b tau_a tau_b
              (learning_rule s) (max_possible_diff k n l)
              (progress_of d (max_possible_diff k n l))
              (array_equal (weights (tpm_a s)) (weights (tpm_b s)))
              (tpm_a s, tpm_b s))
    as ([p wm] & [a' b'] & Hrun); auto.
  { split; simpl; eapply fits_shaped; eauto. }
  pose proof (final_push_ok _ _ _ _ _ _ _ _ _ _ _ _ _ _ _ Hl Hrun) as Hok.
  destruct (pair_ok_fits _ _ _ _ _ _ _ Hl Hok Ha Hb) as [Ha' Hb'].
  destruct (final_push_reports _ _ _ _ _ _ _ _ _ _ _ _ _ _ _ _ _ Hd Hrun)
    as (d' & Hd' & -> & ->).
  eexists _, _, a', b', d'. splits; try reflexivity; auto.
  unfold assess, on_pair, zoom. munfold. rewrite Hd. simpl.
  rewrite Hrun. reflexivity.
Qed.

(** The attacker simulation without an attacker does nothing. *)
Lemma attacker_simulation_absent k n l X tau_a tau_b s :
  attacker_tpm s = None →
  attacker_simulation k n l X tau_a tau_b s = (Ok (0, false), s).
Proof.
  intros He. unfold attacker_simulation. munfold. now rewrite He.
Qed.

(** With an attacker it completes and writes the attacker's machine
    and progress only. *)
Lemma attacker_simulation_present k n l X tau_a tau_b s eve :
  attacker_tpm s = Some eve → fits k n l eve → fits k n l (tpm_a s) →
  shaped k n X →
  ∃ tau_eve eve' d,
    attacker_simulation k n l X tau_a tau_b s
    = (Ok (tau_eve, array_equal (weights eve') (weights (tpm_a s))),
       set_attacker_progress (progress_of d (max_possible_diff k n l))
         (set_attacker_tpm (Some eve') s)) ∧
    fits k n l eve' ∧
    weight_diff_sum (weights eve') (weights (tpm_a s)) = Ok d.
Proof.
  intros He Hfe Ha HX.
  destruct (compute_output_total k n eve X (fits_shaped _ _ _ _ Hfe) HX)
    as (tau_eve & sigma_eve & Hce & Hle).
  assert (∃ eve', fits k n l eve' ∧
            (if decide (tau_a = tau_b)
             then update_weights X tau_eve tau_a sigma_eve (learning_rule s) eve
                  = (Ok (bool_decide (tau_eve = tau_a)), eve')
             else eve' = eve)) as (eve' & Hfe' & Hup).
  { destruct (decide (tau_a = tau_b)); [|eauto].
    destruct (update_weights_fits_total k n l X tau_eve tau_a sigma_eve
                (learning_rule s) eve Hfe HX Hle) as (eve' & ? & ?). eauto. }
  destruct (weight_diff_sum_total k n (weights eve') (weights (tpm_a s)))
    as [d Hd]; [eapply fits_shaped; eauto..|].
  exists tau_eve, eve', d. splits; auto.
  unfold attacker_simulation. munfold. rewrite He, Hce. simpl.
  destruct (decide (tau_a = tau_b)).
  - rewrite Hup. simpl. rewrite Hd. simpl. destruct s; reflexivity.
  - subst eve'. rewrite He. simpl. rewrite Hd. simpl.
    destruct s; simpl in *. subst. reflexivity.
Qed.


(** *** Steps that neither read nor write the attacker *)

Definition oblivious {A} (m : M locals A) : Prop :=
  ∀ eve p s, m (with_attacker eve p s)
             = ((m s).1, with_attacker eve p (m s).2).

Lemma with_attacker_id s :
  with_attacker (attacker_tpm s) (attacker_progress s) s = s.
Proof. now destruct s. Qed.

Lemma oblivious_keeps {A} (m : M locals A) s :
  oblivious m →
  attacker_tpm (m s).2 = attacker_tpm s ∧
  attacker_progress (m s).2 = attacker_progress s.
Proof.
  intros H. specialize (H (attacker_tpm s) (attacker_progress s) s).
  rewrite with_attacker_id in H.
  destruct (m s) as [r s']. simpl in *. injection H as H.
  rewrite H. now destruct s'.
Qed.

Lemma exchange_oblivious X : oblivious (exchange X).
Proof.
  intros eve p [a b e ap rn rule h bp rsi lsr].
  unfold exchange, with_attacker, on_a, on_b, zoom. munfold.
  destruct (compute_output a X) as [[tau_a sigma_a]|]; [|reflexivity].
  destruct (compute_output b X) as [[tau_b sigma_b]|]; [|reflexivity].
  simpl.
  destruct (update_weights X tau_a tau_b sigma_a rule a) as [[]]; simpl;
    [|reflexivity].
  destruct (update_weights X tau_b tau_a sigma_b rule b) as [[]]; reflexivity.
Qed.

Lemma assess_oblivious k n l X sigma_a sigma_b tau_a tau_b :
  oblivious (assess k n l X sigma_a sigma_b tau_a tau_b).
Proof.
  intros eve p [a b e ap rn rule h bp rsi lsr].
  unfold assess, with_attacker, on_pair, zoom. munfold.
  destruct (weight_diff_sum _ _); [|reflexivity]. simpl.
  destruct (final_push _ _ _ _ _ _ _ _ _ _ _ _ _) as [r [a' b']].
  reflexivity.
Qed.

Lemma track_progress_oblivious p : oblivious (track_progress p).
Proof.
  intros eve q [a b e ap rn rule h bp rsi lsr].
  unfold track_progress, improved, with_attacker. munfold.
  repeat (destruct (decide _); simpl); repeat (destruct (Qlt_le_dec _ _); simpl);
    reflexivity.
Qed.

Lemma switch_rule_oblivious p : oblivious (switch_rule p).
Proof.
  intros eve q [a b e ap rn rule h bp rsi lsr].
  unfold switch_rule, with_attacker. munfold.
  repeat (destruct (decide _); simpl); reflexivity.
Qed.

Lemma track_progress_ok p s :
  (track_progress p s).1 = Ok tt ∧
  tpm_a (track_progress p s).2 = tpm_a s ∧
  tpm_b (track_progress p s).2 = tpm_b s ∧
  round_num (track_progress p s).2 = round_num s.
Proof.
  destruct s as [a b e ap rn rule h bp rsi lsr].
  unfold track_progress, improved. munfold.
  repeat (destruct (decide _); simpl); repeat (destruct (Qlt_le_dec _ _); simpl);
    auto.
Qed.

Lemma switch_rule_ok p s :
  (switch_rule p s).1 = Ok tt ∧
  tpm_a (switch_rule p s).2 = tpm_a s ∧
  tpm_b (switch_rule p s).2 = tpm_b s ∧
  round_num (switch_rule p s).2 = round_num s.
Proof.
  destruct s as [a b e ap rn rule h bp rsi lsr].
  unfold switch_rule. munfold.
  repeat (destruct (decide _); simpl); auto.
Qed.


Lemma attacker_simulation_frame k n l X tau_a tau_b s r s' :
  attacker_simulation k n l X tau_a tau_b s = (r, s') →
  ∃ eve p, s' = with_attacker eve p s.
Proof.
  destruct s as [a b e ap rn rule h bp rsi lsr].
  unfold attacker_simulation, with_attacker. munfold.
  destruct e as [eve|]; [|intros [= <- <-]; unfold set_attacker_tpm, set_attacker_progress; simpl; eexists _, _; reflexivity].
  destruct (compute_output eve X) as [[tau_eve sigma_eve]|];
    [|intros [= <- <-]; unfold set_attacker_tpm, set_attacker_progress; simpl; eexists _, _; reflexivity].
  simpl. destruct (decide (tau_a = tau_b)).
  - destruct (update_weights _ _ _ _ _ _) as [[] eve']; simpl;
      [|intros [= <- <-]; unfold set_attacker_tpm, set_attacker_progress; simpl; eexists _, _; reflexivity].
    destruct (weight_diff_sum _ _); intros [= <- <-]; unfold set_attacker_tpm, set_attacker_progress; simpl; eexists _, _; reflexivity.
  - destruct (weight_diff_sum _ _); intros [= <- <-]; unfold set_attacker_tpm, set_attacker_progress; simpl; eexists _, _; reflexivity.
Qed.

Lemma conclude_attacker k n l X sigma_a sigma_b tau_a tau_b
    tau_eve synced eve p s :
  conclude k n l X sigma_a sigma_b tau_a tau_b tau_eve synced
    (with_attacker eve p s)
  = (match (conclude k n l X sigma_a sigma_b tau_a tau_b 0 false s).1 with
     | Ok (msg, wm) =>
         Ok (with_msg_attacker
               match eve with
               | Some _ => Some (p, tau_eve, synced)
               | None => None
               end msg, wm)
     | Raise e => Raise e
     end,
     with_attacker eve p
       (conclude k n l X sigma_a sigma_b tau_a tau_b 0 false s).2).
Proof.
  unfold conclude, mbind, M_bind.
  rewrite assess_oblivious.
  destruct (assess k n l X sigma_a sigma_b tau_a tau_b s)
    as [[[pr wm]|x] s1]; simpl; [|reflexivity].
  rewrite track_progress_oblivious.
  destruct (track_progress pr s1) as [[[]|x] s2]; simpl; [|reflexivity].
  rewrite switch_rule_oblivious.
  destruct (switch_rule pr s2) as [[[]|x] s3]; simpl; [|reflexivity].
  destruct s3. reflexivity.
Qed.

(** The conclusion of a round completes and reports the progress and
    equality of the weights it leaves. *)
Lemma conclude_spec k n l X sigma_a sigma_b tau_a tau_b tau_eve synced s :
  fits k n l (tpm_a s) → fits k n l (tpm_b s) → shaped k n X →
  length sigma_a = k → length sigma_b = k →
  ∃ msg wm s' d,
    conclude k n l X sigma_a sigma_b tau_a tau_b tau_eve synced s
    = (Ok (msg, wm), s') ∧
    fits k n l (tpm_a s') ∧ fits k n l (tpm_b s') ∧
    attacker_tpm s' = attacker_tpm s ∧
    attacker_progress s' = attacker_progress s ∧
    round_num s' = round_num s ∧
    msg_round msg = round_num s ∧
    msg_tau_a msg = tau_a ∧ msg_tau_b msg = tau_b ∧
    msg_agreed msg = bool_decide (tau_a = tau_b) ∧
    msg_attacker msg = match attacker_tpm s with
                       | Some _ => Some (attacker_progress s, tau_eve, synced)
                       | None => None
                       end ∧
    weight_diff_sum (weights (tpm_a s')) (weights (tpm_b s')) = Ok d ∧
    msg_progress msg = progress_of d (max_possible_diff k n l) ∧
    wm = array_equal (weights (tpm_a s')) (weights (tpm_b s')).
Proof.
  intros Ha Hb HX Hsa Hsb.
  destruct (assess_spec k n l X sigma_a sigma_b tau_a tau_b s Ha Hb HX Hsa Hsb)
    as (p & wm & a' & b' & d' & Hrun & Ha' & Hb' & Hd' & -> & ->).
  unfold conclude, mbind, M_bind. rewrite Hrun.
  set (s1 := set_tpm_b b' (set_tpm_a a' s)).
  set (p := progress_of d' (max_possible_diff k n l)).
  destruct (track_progress_ok p s1) as (T1 & T2 & T3 & T4).
  destruct (oblivious_keeps (track_progress p) s1 (track_progress_oblivious p))
    as [T5 T6].
  destruct (track_progress p s1) as [r2 s2]. simpl in *. subst r2.
  destruct (switch_rule_ok p s2) as (S1 & S2 & S3 & S4).
  destruct (oblivious_keeps (switch_rule p) s2 (switch_rule_oblivious p))
    as [S5 S6].
  destruct (switch_rule p s2) as [r3 s3]. simpl in *. subst r3.
  unfold get, mret, M_ret. simpl.
  eexists _, _, _, d'. split; [reflexivity|]. simpl.
  rewrite S2, S3, S4, S5, S6, T2, T3, T4, T5, T6.
  subst s1. destruct s; simpl. splits; auto.
Qed.

Lemma round_unfold k n l X s :
  round k n l X s
  = (exchange X ≫= λ '(tau_a, sigma_a, tau_b, sigma_b),
       attacker_simulation k n l X tau_a tau_b ≫= λ '(tau_eve, synced),
         conclude k n l X sigma_a sigma_b tau_a tau_b tau_eve synced)
      (set_round_num (round_num s + 1) s).
Proof. reflexivity. Qed.



(** *** The attacker does not influence a round *)

Lemma with_attacker_twice e1 p1 e2 p2 s :
  with_attacker e1 p1 (with_attacker e2 p2 s) = with_attacker e1 p1 s.
Proof. now destruct s. Qed.

Lemma round_with_attacker k n l X s eve p :
  locals_fit k n l s → attacker_tpm s = None → fits k n l eve →
  shaped k n X →
  ∃ msg wm s' eve' p' att,
    round k n l X s = (Ok (msg, wm), s') ∧
    round k n l X (with_attacker (Some eve) p s)
    = (Ok (with_msg_attacker att msg, wm), with_attacker (Some eve') p' s') ∧
    locals_fit k n l s' ∧ attacker_tpm s' = None ∧ fits k n l eve'.
Proof.
  intros Hfit Hnone Hfe HX.
  set (s0 := set_round_num (round_num s + 1) s).
  assert (Hfit0 : locals_fit k n l s0) by (destruct s; exact Hfit).
  destruct (exchange_spec k n l X s0 Hfit0 HX)
    as (tau_a & sigma_a & tau_b & sigma_b & a' & b' & Hex & Hsa & Hsb & Ha' & Hb').
  set (s1 := set_tpm_b b' (set_tpm_a a' s0)) in *.
  assert (Hnone1 : attacker_tpm s1 = None) by (destruct s; exact Hnone).
  assert (Ha1 : tpm_a s1 = a') by now destruct s.
  assert (Hb1 : tpm_b s1 = b') by now destruct s.
  destruct (attacker_simulation_present k n l X tau_a tau_b
              (with_attacker (Some eve) p s1) eve)
    as (tau_eve & eve' & d' & Hatt & Hfe' & _);
    [now destruct s | assumption | now destruct s | assumption |].
  replace (set_attacker_progress _ _)
    with (with_attacker (Some eve') (progress_of d' (max_possible_diff k n l)) s1)
    in Hatt by now destruct s.
  destruct (conclude_spec k n l X sigma_a sigma_b tau_a tau_b 0 false s1)
    as (msg & wm & s' & d & Hc & Ha2 & Hb2 & He2 & _); auto;
    try congruence.
  exists msg, wm, s', eve', (progress_of d' (max_possible_diff k n l)).
  eexists. splits.
  - rewrite round_unfold. fold s0.
    erewrite bind_ok by exact Hex. cbv beta iota.
    erewrite bind_ok by (now apply attacker_simulation_absent). exact Hc.
  - rewrite round_unfold.
    replace (set_round_num _ _) with (with_attacker (Some eve) p s0)
      by (subst s0; now destruct s).
    erewrite bind_ok by (rewrite exchange_oblivious, Hex; reflexivity).
    cbv beta iota.
    erewrite bind_ok by exact Hatt. cbv beta iota.
    rewrite conclude_attacker, Hc. reflexivity.
  - unfold locals_fit. rewrite He2, Hnone1. simpl. auto.
  - congruence.
  - assumption.
Qed.

(** Over any number of rounds. *)
Lemma rounds_with_attacker k n l Xs : ∀ s eve p,
  locals_fit k n l s → attacker_tpm s = None → fits k n l eve →
  Forall (shaped k n) Xs →
  ∃ synced s' eve' p',
    rounds k n l Xs s = (Ok synced, s') ∧
    rounds k n l Xs (with_attacker (Some eve) p s)
    = (Ok synced, with_attacker (Some eve') p' s') ∧
    locals_fit k n l s' ∧ fits k n l eve'.
Proof.
  induction Xs as [|X Xs IH]; intros s eve p Hfit Hnone Hfe HXs; simpl.
  - exists false, s, eve, p. splits; auto.
  - apply Forall_cons in HXs as [HX HXs].
    destruct (round_with_attacker k n l X s eve p Hfit Hnone Hfe HX)
      as (msg & wm & s1 & eve1 & p1 & att & H1 & H2 & Hfit1 & Hnone1 & Hfe1).
    destruct wm.
    + exists true, s1, eve1, p1.
      erewrite !bind_ok by eassumption. splits; auto.
    + destruct (IH s1 eve1 p1 Hfit1 Hnone1 Hfe1 HXs)
        as (synced & s' & eve' & p' & R1 & R2 & Hfit' & Hfe').
      exists synced, s', eve', p'.
      erewrite !bind_ok by eassumption. splits; auto.
Qed.


(** Whatever the machines, a round that completes reports as
    [weights_match] the equality of the weights it leaves. *)
Lemma assess_match k n l X sigma_a sigma_b tau_a tau_b s p wm s' :
  assess k n l X sigma_a sigma_b tau_a tau_b s = (Ok (p, wm), s') →
  wm = array_equal (weights (tpm_a s')) (weights (tpm_b s')).
Proof.
  unfold assess, on_pair, zoom. munfold.
  destruct (weight_diff_sum _ _) as [d|] eqn:Hd; [|discriminate]. simpl.
  destruct (final_push _ _ _ _ _ _ _ _ _ _ _ _ _) as [[[p' wm']|] [a' b']] eqn:Hf;
    [|discriminate].
  intros [= <- <- <-].
  destruct (final_push_reports _ _ _ _ _ _ _ _ _ _ _ _ _ _ _ _ _ Hd Hf)
    as (d' & _ & _ & ->).
  now destruct s.
Qed.

Lemma conclude_match k n l X sigma_a sigma_b tau_a tau_b tau_eve synced
    s msg wm s' :
  conclude k n l X sigma_a sigma_b tau_a tau_b tau_eve synced s
  = (Ok (msg, wm), s') →
  wm = array_equal (weights (tpm_a s')) (weights (tpm_b s')).
Proof.
  unfold conclude. intros H.
  apply bind_inv in H as [([p wm0] & s1 & H1 & H) | (e & _ & [=])].
  apply assess_match in H1.
  destruct (track_progress_ok p s1) as (T1 & T2 & T3 & _).
  destruct (switch_rule_ok p (track_progress p s1).2) as (S1 & S2 & S3 & _).
  unfold mbind, M_bind in H.
  destruct (track_progress p s1) as [r2 s2]. simpl in *. subst r2.
  destruct (switch_rule p s2) as [r3 s3]. simpl in *. subst r3.
  unfold get, mret, M_ret in H. injection H as _ <- <-.
  congruence.
Qed.

Lemma round_match k n l X s msg wm s' :
  round k n l X s = (Ok (msg, wm), s') →
  wm = array_equal (weights (tpm_a s')) (weights (tpm_b s')).
Proof.
  rewrite round_unfold. intros H.
  apply bind_inv in H as [([[[ta sa] tb] sb] & s1 & _ & H) | (e & _ & [=])].
  apply bind_inv in H as [([te syn] & s2 & _ & H) | (e & _ & [=])].
  now apply conclude_match in H.
Qed.

End Round.


(** ** The reported progress (C7) *)

Section ReportedProgress.
Import TreeParityMachine Handler.



(** *** [NeuralSyncProtocol] reports another measure *)

Import NeuralSyncProtocol.




#[local] Opaque _calculate_progress.


#[local] Transparent _calculate_progress.






(** The loop state of a session with [K = N = 2], [L = 3]. *)
Definition locals1 : locals := initial_vars tpm1 tpm2.



End ReportedProgress.

(** ** The attacker simulation (C9) *)

Section Attacker.
Import TreeParityMachine Handler.

(** C9. Over any number of rounds on the same inputs, a run with an
    attacker machine and a run without leave the two participants'
    machines with the same weights (hence the same derived key), the
    same outcome and the same loop variables; and whatever its
    outcome, the attacker simulation step changes nothing but the
    attacker's machine and progress. *)
Theorem attacker_never_influences_participants :
  (∀ k n l Xs s eve p,
      locals_fit k n l s → attacker_tpm s = None → fits k n l eve →
      Forall (is_input k n) Xs →
      ∃ synced absent present,
        rounds k n l Xs s = (Ok synced, absent) ∧
        rounds k n l Xs (with_attacker (Some eve) p s) = (Ok synced, present) ∧
        tpm_a present = tpm_a absent ∧
        tpm_b present = tpm_b absent ∧
        get_key (tpm_a present) 32 = get_key (tpm_a absent) 32 ∧
        round_num present = round_num absent ∧
        learning_rule present = learning_rule absent) ∧
  (∀ k n l X tau_a tau_b s r s',
      attacker_simulation k n l X tau_a tau_b s = (r, s') →
      tpm_a s' = tpm_a s ∧ tpm_b s' = tpm_b s ∧
      round_num s' = round_num s ∧ learning_rule s' = learning_rule s ∧
      progress_history s' = progress_history s ∧
      best_progress s' = best_progress s).
Proof.
  split.
  - intros k n l Xs s eve p Hfit Hnone Hfe HXs.
    destruct (rounds_with_attacker k n l Xs s eve p Hfit Hnone Hfe)
      as (synced & s' & eve' & p' & H1 & H2 & _).
    { eapply Forall_impl; [exact HXs|]. now intros X [HX _]. }
    exists synced, s', (with_attacker (Some eve') p' s').
    destruct s'; simpl. splits; auto.
  - intros k n l X tau_a tau_b s r s' H.
    apply attacker_simulation_frame in H as (eve & p & ->).
    now destruct s.
Qed.

Definition eve1 : TPM := mk 2 2 3 [[-1; 2]; [3; 0]].

Lemma attacker_never_influences_participants_witness :
  ∃ synced absent present,
    rounds 2 2 3 [[[1; -1]; [1; 1]]; [[-1; -1]; [1; -1]]] locals1
    = (Ok synced, absent) ∧
    rounds 2 2 3 [[[1; -1]; [1; 1]]; [[-1; -1]; [1; -1]]]
      (with_attacker (Some eve1) 0 locals1) = (Ok synced, present) ∧
    tpm_a present = tpm_a absent ∧ tpm_b present = tpm_b absent.
Proof.
  destruct attacker_never_influences_participants as [H _].
  destruct (H 2%nat 2%nat 3 [[[1; -1]; [1; 1]]; [[-1; -1]; [1; -1]]]
              locals1 eve1 0%Q)
    as (synced & absent & present & H1 & H2 & Ha & Hb & _);
    [by_compute | reflexivity | by_compute | by_compute |].
  exists synced, absent, present. auto.
Defined.

End Attacker.


(** ** Invariants of the connection manager *)

Section Preservation.
Context {S : Type}.

(** Every run of [m] from a state in [I] ends in [I], whether it
    returns or raises. *)
Definition preserves {A} (I : S → Prop) (m : M S A) : Prop :=
  ∀ s r s', I s → m s = (r, s') → I s'.

Lemma preserves_ret {A} I (a : A) : preserves I (mret a).
Proof. intros s r s' Hs [= <- <-]. exact Hs. Qed.

Lemma preserves_raise {A} I e : preserves I (raise e : M S A).
Proof. intros s r s' Hs [= <- <-]. exact Hs. Qed.

Lemma preserves_lift {A} I (x : result A) : preserves I (lift x).
Proof. intros s r s' Hs [= <- <-]. exact Hs. Qed.

Lemma preserves_get I : preserves I get.
Proof. intros s r s' Hs [= <- <-]. exact Hs. Qed.

Lemma preserves_modify (I : S → Prop) f :
  (∀ s, I s → I (f s)) → preserves I (modify f).
Proof. intros Hf s r s' Hs [= <- <-]. auto. Qed.

Lemma preserves_put (I : S → Prop) s0 : I s0 → preserves I (put s0).
Proof. intros H0 s r s' Hs [= <- <-]. auto. Qed.

Lemma preserves_bind {A B} I (m : M S A) (f : A → M S B) :
  preserves I m → (∀ a, preserves I (f a)) → preserves I (m ≫= f).
Proof.
  intros Hm Hf s r s' Hs H.
  apply bind_inv in H as [(a & s1 & H1 & H2) | (e & H1 & _)].
  - eapply Hf; [|exact H2]. eapply Hm; eauto.
  - eapply Hm; eauto.
Qed.

(** When the continuation may rely on what the first step returned. *)
Lemma preserves_bind_with {A B} I (m : M S A) (f : A → M S B) :
  preserves I m →
  (∀ s a s1, I s → m s = (Ok a, s1) → preserves I (f a)) →
  preserves I (m ≫= f).
Proof.
  intros Hm Hf s r s' Hs H.
  apply bind_inv in H as [(a & s1 & H1 & H2) | (e & H1 & _)].
  - eapply (Hf s a s1 Hs H1); [|exact H2]. eapply Hm; eauto.
  - eapply Hm; eauto.
Qed.

Lemma preserves_try {A} I (m : M S A) h :
  preserves I m → (∀ e, preserves I (h e)) → preserves I (try_except m h).
Proof.
  intros Hm Hh s r s' Hs H. unfold try_except in H.
  destruct (m s) as [[a|e] s1] eqn:E.
  - injection H as <- <-. eapply Hm; eauto.
  - eapply Hh; [|exact H]. eapply Hm; eauto.
Qed.

Lemma preserves_for_each {A} I (xs : list A) body :
  (∀ x, preserves I (body x)) → preserves I (for_each xs body).
Proof.
  intros Hb s r s' Hs H.
  eapply (for_each_invariant I); [|exact Hs|exact H].
  intros x t r' t' _ Ht Hrun. eapply Hb; eauto.
Qed.

Lemma preserves_fold_left {A B} I (xs : list A) (step : B → A → M S B) :
  (∀ b x, preserves I (step b x)) →
  ∀ acc : M S B, preserves I acc →
  preserves I (fold_left (λ acc p, d ← acc; step d p) xs acc).
Proof.
  intros Hstep. induction xs as [|x xs IH]; intros acc Hacc; simpl.
  - exact Hacc.
  - apply IH. apply preserves_bind; [exact Hacc|]. intros b. apply Hstep.
Qed.

End Preservation.

(** Break a goal [preserves I m] down along the structure of [m]. *)
Ltac pres_step :=
first
  [ apply preserves_ret | apply preserves_raise | apply preserves_lift
  | apply preserves_get
  | apply preserves_bind; [|intros ?]
  | apply preserves_try; [|intros ?]
  | apply preserves_for_each; intros ?
  | match goal with
    | |- preserves _ (if ?c then _ else _) => destruct c
    | |- preserves _ (match ?x with _ => _ end) => destruct x
    end ].
Ltac pres := repeat pres_step.

Section KeysInstalled.
Import TreeParityMachine Handler.

Lemma get_key_length t : length (get_key t 32) = 32%nat.
Proof.
  unfold get_key. rewrite py_slice_prefix by lia.
  rewrite length_take, sha256_length. reflexivity.
Qed.

Lemma keys_installed_alter w g r :
  (∀ s, key_installed s → key_installed (g s)) →
  keys_installed w →
  keys_installed (set_session_objs (alter g r (session_objs w)) w).
Proof.
  intros Hg Hw r' s'. simpl. rewrite lookup_alter.
  destruct (decide (r = r')) as [->|Hne].
  - destruct (session_objs w !! r') as [s|] eqn:E; [|discriminate].
    simpl. intros [= <-]. apply Hg. eapply Hw; eauto.
  - apply Hw.
Qed.

Lemma keys_installed_insert w r s :
  key_installed s → keys_installed w →
  keys_installed (set_session_objs (<[r := s]> (session_objs w)) w).
Proof.
  intros Hs Hw r' s'. simpl. rewrite lookup_insert.
  destruct (decide (r = r')) as [->|Hne].
  - intros [= <-]. exact Hs.
  - apply Hw.
Qed.

Lemma key_installed_new sid k n l : key_installed (new_session sid k n l).
Proof. intros H. discriminate. Qed.

Lemma key_installed_set_synced key s :
  length key = 32%nat → key_installed (set_synced key s).
Proof. intros Hk _. exists key. auto. Qed.

Lemma update_session_keys r g :
  (∀ s, key_installed s → key_installed (g s)) →
  preserves keys_installed (update_session r g).
Proof.
  intros Hg. apply preserves_modify. intros w. now apply keys_installed_alter.
Qed.

(** Leaves of the preservation proofs for [keys_installed]. *)
Ltac keys_leaf :=
  first
    [ apply update_session_keys; intros ? H; exact H
    | apply update_session_keys; intros ? _;
      apply key_installed_set_synced, get_key_length
    | apply preserves_modify; intros ? H; exact H
    | apply preserves_put; assumption ].

Create HintDb keys_db.

(** Operations already shown to preserve the invariant are used as
    hints; the rest is taken apart along its structure. *)
Ltac keys :=
  repeat first
    [ solve [auto 1 with keys_db nocore] | keys_leaf | pres_step ].

Lemma emit_keys e : preserves keys_installed (emit e).
Proof. unfold emit. keys. Qed.
#[local] Hint Resolve emit_keys : keys_db.

Lemma fresh_keys : preserves keys_installed fresh.
Proof.
  unfold fresh. apply preserves_bind_with; [apply preserves_get|].
  intros w w0 w1 Hw [= <- <-]. keys.
Qed.
#[local] Hint Resolve fresh_keys : keys_db.

Lemma the_session_keys r : preserves keys_installed (the_session r).
Proof. unfold the_session. keys. Qed.
#[local] Hint Resolve the_session_keys : keys_db.

Lemma the_tpm_keys r : preserves keys_installed (the_tpm r).
Proof. unfold the_tpm. keys. Qed.
#[local] Hint Resolve the_tpm_keys : keys_db.

Lemma the_task_keys r : preserves keys_installed (the_task r).
Proof. unfold the_task. keys. Qed.
#[local] Hint Resolve the_task_keys : keys_db.

Lemma store_tpm_keys r t : preserves keys_installed (store_tpm r t).
Proof. unfold store_tpm. keys. Qed.
#[local] Hint Resolve store_tpm_keys : keys_db.

Lemma send_json_keys ws f : preserves keys_installed (send_json ws f).
Proof. unfold send_json. keys. Qed.
#[local] Hint Resolve send_json_keys : keys_db.

Lemma set_phase_keys t p : preserves keys_installed (set_phase t p).
Proof. unfold set_phase. keys. Qed.
#[local] Hint Resolve set_phase_keys : keys_db.

Lemma cancel_keys t : preserves keys_installed (cancel t).
Proof. unfold cancel. keys. Qed.
#[local] Hint Resolve cancel_keys : keys_db.

Lemma broadcast_keys session msg exclude :
  preserves keys_installed (broadcast session msg exclude).
Proof.
  unfold broadcast. apply preserves_bind; [apply the_session_keys|]. intros s.
  apply preserves_bind.
  - apply preserves_fold_left; [|apply preserves_ret].
    intros d [user_id ws]. keys.
  - intros d. keys.
Qed.
#[local] Hint Resolve broadcast_keys : keys_db.

Lemma add_participant_keys session user_id ws draw :
  preserves keys_installed (add_participant session user_id ws draw).
Proof. unfold add_participant. keys. Qed.
#[local] Hint Resolve add_participant_keys : keys_db.

Lemma connect_keys ws sid user_id k n l draw :
  preserves keys_installed (connect ws sid user_id k n l draw).
Proof.
  unfold connect. keys.
  apply preserves_modify. intros w Hw.
  apply keys_installed_insert; [apply key_installed_new | exact Hw].
Qed.

Lemma disconnect_keys sid user_id :
  preserves keys_installed (disconnect sid user_id).
Proof. unfold disconnect. keys. Qed.

Lemma start_sync_background_keys session :
  preserves keys_installed (start_sync_background session).
Proof. unfold start_sync_background. keys. Qed.

Lemma relay_message_keys session sender c :
  preserves keys_installed (relay_message session sender c).
Proof. apply broadcast_keys. Qed.

Lemma finally_keys task session : preserves keys_installed (finally task session).
Proof. unfold finally. keys. Qed.
#[local] Hint Resolve finally_keys : keys_db.

Lemma begin_sync_keys session : preserves keys_installed (begin_sync session).
Proof. unfold begin_sync. keys. Qed.
#[local] Hint Resolve begin_sync_keys : keys_db.

Lemma init_attacker_keys session a draw :
  preserves keys_installed (init_attacker session a draw).
Proof. unfold init_attacker. keys. Qed.
#[local] Hint Resolve init_attacker_keys : keys_db.

Lemma load_keys s a b vars : preserves keys_installed (load s a b vars).
Proof. unfold load. keys. Qed.
#[local] Hint Resolve load_keys : keys_db.

Lemma write_back_keys session s a b vars :
  preserves keys_installed (write_back session s a b vars).
Proof. unfold write_back. keys. Qed.
#[local] Hint Resolve write_back_keys : keys_db.

Lemma publish_keys session a b vars msg wm :
  preserves keys_installed (publish session a b vars msg wm).
Proof. unfold publish. keys. Qed.
#[local] Hint Resolve publish_keys : keys_db.

Lemma iteration_keys session a b vars coin :
  preserves keys_installed (iteration session a b vars coin).
Proof. unfold iteration. keys. Qed.
#[local] Hint Resolve iteration_keys : keys_db.

Lemma enter_loop_keys session draw coin :
  preserves keys_installed (enter_loop session draw coin).
Proof. unfold enter_loop. keys. Qed.
#[local] Hint Resolve enter_loop_keys : keys_db.

Lemma resume_keys task draw coin :
  preserves keys_installed (resume task draw coin).
Proof. unfold resume. keys. Qed.

End KeysInstalled.


(** ** What the operations of the manager do *)

Section Broadcast.
Import TreeParityMachine Handler.

Lemma the_session_run w r s :
  session_objs w !! r = Some s → the_session r w = (Ok s, w).
Proof. intros H. unfold the_session. munfold. now rewrite H. Qed.

Lemma the_tpm_run w r t :
  tpm_objs w !! r = Some t → the_tpm r w = (Ok t, w).
Proof. intros H. unfold the_tpm. munfold. now rewrite H. Qed.

(** The sending loop of [broadcast]. *)
Lemma broadcast_sends (message : frame) (exclude : list string)
    (xs : list (string * websocket)) :
  ∀ (acc : M World (list string)) d0 w w0,
    acc w = (Ok d0, w0) →
    fold_left
      (λ acc p, d ← acc;
         (let '(user_id, ws) := p in
          if decide (user_id ∉ exclude) then
            try_except (_ ← send_json ws message; mret d)
                       (λ _, mret (d ++ [user_id]))
          else mret d)) xs acc w
    = (Ok (d0 ++ (fst <$> filter (λ p, p.2 ∈ dead w0)
                            (filter (λ p, p.1 ∉ exclude) xs))),
       set_trace (trace w0 ++ ((λ p, Send p.2 message)
                    <$> filter (λ p, p.2 ∉ dead w0)
                          (filter (λ p, p.1 ∉ exclude) xs))) w0).
Proof.
  induction xs as [|[u ws] xs IH]; intros acc d0 w w0 Hacc; simpl.
  - rewrite Hacc, !app_nil_r. now destruct w0.
  - destruct (decide (u ∉ exclude)) as [Hu|Hu].
    + rewrite (filter_cons_True (λ p, p.1 ∉ exclude)) by exact Hu.
      destruct (decide (ws ∈ dead w0)) as [Hd|Hd].
      * erewrite IH with (d0 := d0 ++ [u]) (w0 := w0).
        2:{ unfold mbind, M_bind. rewrite Hacc. cbv beta iota.
            unfold try_except, send_json, mbind, M_bind, get, raise.
            rewrite decide_True by exact Hd. reflexivity. }
        rewrite (filter_cons_True (λ p, p.2 ∈ dead w0)) by exact Hd.
        rewrite (filter_cons_False (λ p, p.2 ∉ dead w0)) by (simpl; tauto).
        simpl. now rewrite <- app_assoc.
      * erewrite IH with (d0 := d0)
          (w0 := set_trace (trace w0 ++ [Send ws message]) w0).
        2:{ unfold mbind, M_bind. rewrite Hacc. cbv beta iota.
            unfold try_except, send_json, emit, modify, mbind, M_bind, get.
            rewrite decide_False by exact Hd. reflexivity. }
        rewrite (filter_cons_False (λ p, p.2 ∈ dead w0)) by exact Hd.
        rewrite (filter_cons_True (λ p, p.2 ∉ dead w0)) by exact Hd.
        destruct w0; simpl. now rewrite <- app_assoc.
    + rewrite (filter_cons_False (λ p, p.1 ∉ exclude)) by exact Hu.
      apply IH. unfold mbind, M_bind. now rewrite Hacc.
Qed.

(** The removal loop of [broadcast]. *)
Lemma broadcast_removes session (dis : list string) : ∀ w,
  for_each dis (λ user_id, update_session session (remove_participant user_id)) w
  = (Ok tt,
     set_session_objs
       (alter (λ s0, foldl (λ acc u, remove_participant u acc) s0 dis)
              session (session_objs w)) w).
Proof.
  induction dis as [|u dis IH]; intros w; simpl.
  - rewrite alter_id by reflexivity. now destruct w.
  - unfold mbind, M_bind, update_session at 1, modify. rewrite IH.
    unfold set_session_objs. simpl. now rewrite alter_alter_eq.
Qed.

(** A broadcast always completes: it appends the frames delivered to
    the trace and removes the participants whose send raised. *)
Lemma broadcast_run session message exclude w s :
  session_objs w !! session = Some s →
  broadcast session message exclude w
  = (Ok tt, after_broadcast session message exclude s w).
Proof.
  intros Hs. unfold broadcast.
  rewrite (bind_ok _ _ w s w (the_session_run w session s Hs)).
  rewrite (bind_ok _ _ _ _ _
             (broadcast_sends message exclude (participants s) (mret [])
                [] w w eq_refl)).
  rewrite broadcast_removes. reflexivity.
Qed.

End Broadcast.

Section SyncCompletion.
Import TreeParityMachine Handler.

(** Dropping participants leaves the synchronisation attributes. *)
Lemma removals_keep (dis : list string) : ∀ s,
  let s' := foldl (λ acc u, remove_participant u acc) s dis in
  is_synced s' = is_synced s ∧ shared_key s' = shared_key s ∧
  cipher s' = cipher s ∧
  session_attacker_tpm s' = session_attacker_tpm s ∧
  session_id s' = session_id s ∧
  tpm_k s' = tpm_k s ∧ tpm_n s' = tpm_n s ∧ tpm_l s' = tpm_l s.
Proof.
  induction dis as [|u dis IH]; intros s; simpl; [now splits|].
  specialize (IH (remove_participant u s)). simpl in IH.
  destruct IH as (A & B & C & D & E & F & G & H).
  rewrite A, B, C, D, E, F, G, H. now splits.
Qed.

Lemma after_broadcast_session session message exclude s w :
  session_objs w !! session = Some s →
  session_objs (after_broadcast session message exclude s w) !! session
  = Some (foldl (λ acc u, remove_participant u acc) s (dropped w s exclude)).
Proof.
  intros Hs. unfold after_broadcast. simpl.
  now rewrite lookup_alter_eq, Hs.
Qed.

Lemma update_session_lookup r g w s :
  session_objs w !! r = Some s →
  session_objs (set_session_objs (alter g r (session_objs w)) w) !! r
  = Some (g s).
Proof. intros Hs. simpl. now rewrite lookup_alter_eq, Hs. Qed.

(** The end of an iteration: it completes, leaves the machines alone,
    and installs the key of [tpm_a] exactly when the weights match. *)
Lemma publish_spec session a b vars msg wm w s ta :
  session_objs w !! session = Some s → tpm_objs w !! a = Some ta →
  ∃ w' s',
    publish session a b vars msg wm w
    = (Ok (if wm then None else Some (Looping a b vars)), w') ∧
    tpm_objs w' = tpm_objs w ∧
    session_objs w' !! session = Some s' ∧
    if wm then
      is_synced s' = true ∧ shared_key s' = Some (get_key ta 32) ∧
      cipher s' = Some (NeuralCipher.__init__ (get_key ta 32))
    else is_synced s' = is_synced s.
Proof.
  intros Hs Ha. unfold publish.
  set (w1 := set_session_objs
               (alter (set_sync_round (round_num vars)) session (session_objs w)) w).
  rewrite (bind_ok _ _ w tt w1) by reflexivity.
  assert (H1 : session_objs w1 !! session = Some (set_sync_round (round_num vars) s))
    by now apply update_session_lookup.
  erewrite bind_ok by (apply broadcast_run; eassumption).
  set (w2 := after_broadcast _ _ _ _ w1).
  pose proof (after_broadcast_session session (sync_progress msg) []
                _ w1 H1) as H2. fold w2 in H2.
  set (s2 := foldl _ _ _) in H2.
  destruct (removals_keep (dropped w1 (set_sync_round (round_num vars) s) [])
              (set_sync_round (round_num vars) s)) as (K1 & _).
  fold s2 in K1. simpl in K1.
  destruct wm.
  - erewrite bind_ok by (apply the_tpm_run; exact Ha).
    set (w3 := set_session_objs
                 (alter (set_synced (get_key ta 32)) session (session_objs w2)) w2).
    rewrite (bind_ok _ _ w2 tt w3) by reflexivity.
    assert (H3 : session_objs w3 !! session = Some (set_synced (get_key ta 32) s2))
      by now apply update_session_lookup.
    erewrite bind_ok by (apply broadcast_run; eassumption).
    eexists _, _. split; [reflexivity|].
    split; [reflexivity|].
    split; [now apply after_broadcast_session|].
    match goal with |- context [foldl ?f ?x ?d] =>
      destruct (removals_keep d x) as (A & B & C & _) end.
    simpl in A, B, C. rewrite A, B, C. now splits.
  - eexists _, _. split; [reflexivity|].
    split; [reflexivity|]. split; [exact H2|]. exact K1.
Qed.


Lemma the_tpm_pure r w : (the_tpm r w).2 = w.
Proof. unfold the_tpm. munfold. now destruct (tpm_objs w !! r). Qed.

Lemma load_pure s a b vars w : (load s a b vars w).2 = w.
Proof.
  unfold load, mbind, M_bind.
  pose proof (the_tpm_pure a w) as Ha.
  destruct (the_tpm a w) as [[ta|] w1]; simpl in Ha; subst; [|reflexivity].
  pose proof (the_tpm_pure b w) as Hb.
  destruct (the_tpm b w) as [[tb|] w1]; simpl in Hb; subst; [|reflexivity].
  destruct (session_attacker_tpm s) as [r|]; [|reflexivity].
  pose proof (the_tpm_pure r w) as Hr.
  destruct (the_tpm r w) as [[te|] w1]; simpl in Hr; subst; reflexivity.
Qed.

(** The store after the objects of a round are written back. *)
Definition written_back (session : ref) (s : SyncSession) (a b : ref)
    (vars : locals) (w : World) : World :=
  let objs := <[b := tpm_b vars]> (<[a := tpm_a vars]> (tpm_objs w)) in
  set_session_objs
    (alter (set_session_attacker_progress (attacker_progress vars)) session
           (session_objs w))
    (set_tpm_objs
       match session_attacker_tpm s, attacker_tpm vars with
       | Some r, Some e => <[r := e]> objs
       | _, _ => objs
       end w).

Lemma write_back_run session s a b vars w :
  write_back session s a b vars w = (Ok tt, written_back session s a b vars w).
Proof.
  unfold write_back, written_back, store_tpm, update_session. munfold.
  destruct (session_attacker_tpm s), (attacker_tpm vars); reflexivity.
Qed.

(** When an iteration of the sync task sets [is_synced], the two
    machines it drives have the same weights and the session holds
    the key both derive. *)
Lemma iteration_completion session a b vars coin w r w' s s' :
  session_objs w !! session = Some s → is_synced s = false →
  session_attacker_tpm s ≠ Some a → session_attacker_tpm s ≠ Some b →
  iteration session a b vars coin w = (r, w') →
  session_objs w' !! session = Some s' → is_synced s' = true →
  ∃ ta tb,
    tpm_objs w' !! a = Some ta ∧ tpm_objs w' !! b = Some tb ∧
    weights ta = weights tb ∧
    shared_key s' = Some (get_key ta 32) ∧
    cipher s' = Some (NeuralCipher.__init__ (get_key ta 32)) ∧
    get_key tb 32 = get_key ta 32.
Proof.
  intros Hs Hns Hea Heb Hrun Hs' Hsyn.
  assert (Hstay : w' = w → False).
  { intros ->. rewrite Hs in Hs'. injection Hs' as <-. congruence. }
  unfold iteration in Hrun.
  rewrite (bind_ok _ _ w s w (the_session_run w session s Hs)) in Hrun.
  destruct (decide _) as [|_]; [injection Hrun as _ <-; now destruct Hstay|].
  pose proof (load_pure s a b vars w) as Hload.
  unfold mbind at 1, M_bind at 1 in Hrun.
  destruct (load s a b vars w) as [[vars0|e] w0]; simpl in Hload; subst w0;
    [|injection Hrun as _ <-; now destruct Hstay].
  destruct (round _ _ _ _ vars0) as [rr vars1] eqn:Hround.
  rewrite (bind_ok _ _ _ _ _ (write_back_run session s a b vars1 w)) in Hrun.
  set (w1 := written_back session s a b vars1 w) in Hrun.
  assert (Hs1 : session_objs w1 !! session
                = Some (set_session_attacker_progress (attacker_progress vars1) s)).
  { subst w1. unfold written_back. simpl. now rewrite lookup_alter_eq, Hs. }
  assert (Hb1 : tpm_objs w1 !! b = Some (tpm_b vars1)).
  { subst w1. unfold written_back. simpl.
    destruct (session_attacker_tpm s) as [re|], (attacker_tpm vars1);
      rewrite ?lookup_insert_ne by congruence; apply lookup_insert_eq. }
  assert (Ha1 : ∃ ta, tpm_objs w1 !! a = Some ta ∧
                      (ta = tpm_a vars1 ∨ ta = tpm_b vars1)).
  { subst w1. unfold written_back. simpl.
    destruct (session_attacker_tpm s) as [re|], (attacker_tpm vars1);
      rewrite ?(lookup_insert_ne _ re) by congruence;
      (destruct (decide (a = b)) as [->|Hab];
       [rewrite lookup_insert_eq; eauto
       |rewrite lookup_insert_ne, lookup_insert_eq by congruence; eauto]). }
  destruct Ha1 as (ta & Ha1 & Hta).
  destruct rr as [[msg wm]|e].
  2:{ unfold mbind, M_bind, lift in Hrun. injection Hrun as _ <-.
      rewrite Hs1 in Hs'. injection Hs' as <-. simpl in Hsyn. congruence. }
  rewrite (bind_ok _ _ w1 (msg, wm) w1 eq_refl) in Hrun.
  destruct (publish_spec session a b vars1 msg wm w1 _ ta Hs1 Ha1)
    as (w2 & s2 & Hpub & Ht2 & Hs2 & Hfin).
  rewrite Hpub in Hrun. injection Hrun as _ <-.
  rewrite Hs2 in Hs'. injection Hs' as <-.
  destruct wm; [|simpl in Hfin; congruence].
  destruct Hfin as (_ & Hkey & Hcipher).
  apply round_match in Hround. symmetry in Hround.
  apply bool_decide_eq_true in Hround.
  assert (Hw : weights ta = weights (tpm_b vars1))
    by (destruct Hta; subst; auto).
  exists ta, (tpm_b vars1). rewrite Ht2.
  splits; auto.
  unfold get_key. now rewrite Hw.
Qed.

End SyncCompletion.


(** ** Synchronised sessions (C1) *)

Section SyncedSessions.
Import TreeParityMachine Handler Scenario.

Lemma keys_installed_empty : keys_installed empty_world.
Proof. intros r s H. simpl in H. now rewrite lookup_empty in H. Qed.

(** C1 (as amended). From the empty manager on, after every connect,
    every step of a sync task and every disconnect, a session whose
    [is_synced] is set holds a 32-byte [shared_key] and the cipher
    built from it; and when an iteration of the sync task sets
    [is_synced], the two machines the task drives have the same
    weights and [shared_key] is the key both derive. *)
Theorem synced_session_holds_key :
  keys_installed empty_world ∧
  (∀ ws sid user_id k n l draw w r w',
      keys_installed w → connect ws sid user_id k n l draw w = (r, w') →
      keys_installed w') ∧
  (∀ session w r w',
      keys_installed w → start_sync_background session w = (r, w') →
      keys_installed w') ∧
  (∀ task draw coin w r w',
      keys_installed w → resume task draw coin w = (r, w') →
      keys_installed w') ∧
  (∀ sid user_id w r w',
      keys_installed w → disconnect sid user_id w = (r, w') →
      keys_installed w') ∧
  (∀ session a b vars coin w r w' s s',
      session_objs w !! session = Some s → is_synced s = false →
      session_attacker_tpm s ≠ Some a → session_attacker_tpm s ≠ Some b →
      iteration session a b vars coin w = (r, w') →
      session_objs w' !! session = Some s' → is_synced s' = true →
      ∃ ta tb,
        tpm_objs w' !! a = Some ta ∧ tpm_objs w' !! b = Some tb ∧
        weights ta = weights tb ∧
        shared_key s' = Some (get_key ta 32) ∧
        cipher s' = Some (NeuralCipher.__init__ (get_key ta 32)) ∧
        get_key tb 32 = get_key ta 32).
Proof.
  splits.
  - exact keys_installed_empty.
  - intros ws sid user_id k n l draw w r w' Hw H.
    exact (connect_keys ws sid user_id k n l draw w r w' Hw H).
  - intros session w r w' Hw H.
    exact (start_sync_background_keys session w r w' Hw H).
  - intros task draw coin w r w' Hw H.
    exact (resume_keys task draw coin w r w' Hw H).
  - intros sid user_id w r w' Hw H.
    exact (disconnect_keys sid user_id w r w' Hw H).
  - intros session a b vars coin w r w' s s' Hs Hn Ha Hb Hrun Hs' Hsyn.
    exact (iteration_completion session a b vars coin w r w' s s'
             Hs Hn Ha Hb Hrun Hs' Hsyn).
Qed.

(** C1 as stated fails: once the session of the scenario is
    synchronised, Alice attaches again; [is_synced] stays set while
    her machine is a fresh one whose weights differ from Bob's. *)
Lemma reconnect_leaves_synced_with_different_weights :
  ∃ s ta tb,
    session_objs alice_rejoined !! 0%nat = Some s ∧
    is_synced s = true ∧
    tpms s = [("alice"%string, 5%nat); ("bob"%string, 2%nat)] ∧
    tpm_objs alice_rejoined !! 5%nat = Some ta ∧
    tpm_objs alice_rejoined !! 2%nat = Some tb ∧
    weights ta = [[-2; -1; 0; 1]; [0; 1; 2; 3]; [2; 3; -3; -2]] ∧
    weights tb = [[-3; -2; -1; 0]; [-3; 0; -1; 2]; [-1; 0; 1; 2]] ∧
    weights ta ≠ weights tb.
Proof.
  eexists _, _, _.
  split; [vm_compute; reflexivity|].
  split; [reflexivity|]. split; [reflexivity|].
  split; [vm_compute; reflexivity|]. split; [vm_compute; reflexivity|].
  split; [reflexivity|]. split; [reflexivity|]. discriminate.
Qed.

Lemma synced_session_holds_key_witness :
  keys_installed alice_joined ∧
  ∃ ta tb,
    tpm_objs round_done !! 1%nat = Some ta ∧
    tpm_objs round_done !! 2%nat = Some tb ∧
    weights ta = weights tb.
Proof.
  destruct synced_session_holds_key as (H0 & Hc & _ & _ & _ & Hi). split.
  - eapply (Hc 1%nat "s"%string "alice"%string 3%nat 4%nat 3 draw_a
              empty_world); [exact H0 | apply surjective_pairing].
  - destruct (Hi 0%nat 1%nat 2%nat (initial_vars machine machine) coin
                attacker_ready (first_iteration attacker_ready).1 round_done
                (default (new_session ""%string 0%nat 0%nat 0)
                   (session_objs attacker_ready !! 0%nat))
                (default (new_session ""%string 0%nat 0%nat 0)
                   (session_objs round_done !! 0%nat)))
      as (ta & tb & Ha & Hb & Hw & _).
    + vm_compute. reflexivity.
    + vm_compute. reflexivity.
    + vm_compute. discriminate.
    + vm_compute. discriminate.
    + apply surjective_pairing.
    + vm_compute. reflexivity.
    + vm_compute. reflexivity.
    + exists ta, tb. auto.
Defined.

End SyncedSessions.

(** ** Disconnection (C3) *)

Section Disconnect.
Import TreeParityMachine Handler Scenario.

(** The manager once [disconnect] has removed the participant,
    cancelled the task and unregistered it. *)
Definition task_cancelled (sid user_id : string) (session task : ref)
    (w : World) : World :=
  let w1 := set_session_objs
              (alter (remove_participant user_id) session (session_objs w)) w in
  let w2 := set_trace (trace w1 ++ [Cancel task])
              (set_task_objs
                 (alter (λ t, mk_task (task_session t) (task_phase t) true)
                        task (task_objs w1)) w1) in
  set_sync_tasks (delete sid (_sync_tasks w2)) w2.

(** With a task registered for the session, [disconnect] cancels it,
    broadcasts [user_left] and deletes the session once it is empty. *)
Lemma disconnect_with_task sid user_id session task s w :
  sessions w !! sid = Some session →
  session_objs w !! session = Some s →
  _sync_tasks w !! sid = Some task →
  ∃ s',
    let w' := after_broadcast session (user_left user_id) []
                (remove_participant user_id s)
                (task_cancelled sid user_id session task w) in
    session_objs w' !! session = Some s' ∧
    disconnect sid user_id w
    = (Ok tt, if decide (participants s' = [])
              then set_sessions (delete sid (sessions w')) w' else w').
Proof.
  intros Hsid Hs Htask.
  set (w3 := task_cancelled sid user_id session task w).
  assert (H3 : session_objs w3 !! session = Some (remove_participant user_id s)).
  { subst w3. unfold task_cancelled. simpl. now rewrite lookup_alter_eq, Hs. }
  pose proof (broadcast_run session (user_left user_id) [] w3 _ H3) as Hb.
  pose proof (after_broadcast_session session (user_left user_id) [] _ w3 H3)
    as Hs'.
  eexists. cbv zeta. split; [exact Hs'|].
  unfold disconnect.
  unfold mbind at 1, M_bind at 1, get at 1. rewrite Hsid.
  unfold mbind at 1, M_bind at 1, update_session at 1, modify at 1.
  unfold mbind at 1, M_bind at 1, get at 1.
  unfold set_session_objs at 1. cbn [_sync_tasks]. rewrite Htask.
  unfold mbind at 1, M_bind at 1, cancel at 1.
  unfold mbind at 1, M_bind at 1, modify at 1, emit at 1, modify at 1.
  unfold mbind at 1, M_bind at 1, modify at 1.
  fold (set_session_objs
          (alter (remove_participant user_id) session (session_objs w)) w).
  change (set_sync_tasks _ _) with w3.
  rewrite (bind_ok _ _ _ _ _ Hb).
  rewrite (bind_ok _ _ _ _ _ (the_session_run _ _ _ Hs')).
  destruct (decide _); reflexivity.
Qed.

(** C3. With no task registered for the session, [disconnect] removes
    the participant and their machine and does nothing else: no frame
    is sent, and the session stays in the registry, also when it has
    become empty.  The broadcast of [user_left] and the deletion of an
    empty session that the claim requires in this case do not happen. *)
Theorem disconnect_without_task sid user_id session w :
  sessions w !! sid = Some session →
  _sync_tasks w !! sid = None →
  disconnect sid user_id w
  = (Ok tt,
     set_session_objs
       (alter (remove_participant user_id) session (session_objs w)) w) ∧
  trace (after (disconnect sid user_id) w) = trace w ∧
  sessions (after (disconnect sid user_id) w) !! sid = Some session.
Proof.
  intros Hsid Htask.
  assert (H : disconnect sid user_id w
              = (Ok tt,
                 set_session_objs
                   (alter (remove_participant user_id) session (session_objs w)) w)).
  { unfold disconnect.
    unfold mbind at 1, M_bind at 1, get at 1. rewrite Hsid.
    unfold mbind at 1, M_bind at 1, update_session at 1, modify at 1.
    unfold mbind at 1, M_bind at 1, get at 1.
    unfold set_session_objs at 1. cbn [_sync_tasks]. now rewrite Htask. }
  unfold after. rewrite H. simpl. auto.
Qed.

(** In the scenario the sync has completed, so no task is registered
    when Alice and then Bob leave: Bob is sent no [user_left], and
    the session stays registered with no participant left. *)
Lemma disconnect_without_task_witness :
  trace alice_left = trace alice_rejoined ∧
  trace bob_left = trace alice_rejoined ∧
  sessions bob_left !! "s"%string = Some 0%nat ∧
  (participants <$> session_objs bob_left !! 0%nat) = Some [].
Proof.
  destruct (disconnect_without_task "s"%string "alice"%string 0%nat
              alice_rejoined) as (_ & Ha & _);
    [vm_compute; reflexivity | vm_compute; reflexivity |].
  destruct (disconnect_without_task "s"%string "bob"%string 0%nat
              alice_left) as (_ & Hb & Hs);
    [vm_compute; reflexivity | vm_compute; reflexivity |].
  split; [exact Ha|]. split; [exact (eq_trans Hb Ha)|].
  split; [exact Hs|]. vm_compute. reflexivity.
Defined.

End Disconnect.

(** ** Attaching again to a full session (C10) *)

Section Reconnect.
Import TreeParityMachine Handler Scenario.

Lemma dict_get_set {V} k (v : V) d : dict_get k (dict_set k v d) = Some v.
Proof.
  induction d as [|[k' v'] d IH]; simpl.
  - now rewrite decide_True.
  - destruct (decide (k' = k)) as [->|Hk]; simpl.
    + now rewrite decide_True.
    + now rewrite decide_False.
Qed.

Lemma dict_set_length {V} k (v : V) d :
  k ∈ dict_keys d → length (dict_set k v d) = length d.
Proof.
  unfold dict_keys. induction d as [|[k' v'] d IH]; simpl; intros Hk.
  - now apply elem_of_nil in Hk.
  - destruct (decide (k' = k)) as [->|Hne]; simpl; [reflexivity|].
    apply elem_of_cons in Hk as [->|Hk]; [contradiction|]. now rewrite IH.
Qed.

Lemma dict_get_pop {V} k u (d : dict V) :
  u ≠ k → dict_get k (dict_pop u d) = dict_get k d.
Proof.
  intros Hu. unfold dict_pop, dict in *. induction d as [|[k' v'] d IH]; [reflexivity|].
  destruct (decide (k' = u)) as [->|Hk].
  - rewrite filter_cons_False by (simpl; tauto). simpl.
    now rewrite decide_False.
  - rewrite filter_cons_True by exact Hk. simpl. now rewrite IH.
Qed.

Lemma dict_pop_length {V} u (d : dict V) : (length (dict_pop u d) ≤ length d)%nat.
Proof. unfold dict_pop, dict in *. apply length_filter. Qed.

(** Dropping other participants leaves the entries of [user_id]. *)
Lemma removals_keep_user user_id (dis : list string) : ∀ s,
  user_id ∉ dis →
  let s' := foldl (λ acc u, remove_participant u acc) s dis in
  dict_get user_id (participants s') = dict_get user_id (participants s) ∧
  dict_get user_id (tpms s') = dict_get user_id (tpms s) ∧
  (length (participants s') ≤ length (participants s))%nat.
Proof.
  induction dis as [|u dis IH]; intros s Hu; simpl; [now splits|].
  apply not_elem_of_cons in Hu as [Hne Hu].
  specialize (IH (remove_participant u s) Hu). simpl in IH.
  destruct IH as (A & B & C). rewrite A, B.
  rewrite !dict_get_pop by congruence. splits; try reflexivity.
  etransitivity; [exact C|]. apply dict_pop_length.
Qed.

Lemma dropped_excluded w s user_id : user_id ∉ dropped w s [user_id].
Proof.
  unfold dropped, addressed. intros H.
  apply list_elem_of_fmap in H as ([u x] & -> & H). simpl in H.
  apply list_elem_of_filter in H as [_ H].
  apply list_elem_of_filter in H as [H _]. simpl in H.
  apply H. now apply list_elem_of_singleton.
Qed.

(** The session once [add_participant] has run. *)
Definition reattached (user_id : string) (ws : websocket) (r : ref)
    (s : SyncSession) : SyncSession :=
  set_tpms (dict_set user_id r (tpms s))
    (set_participants (dict_set user_id ws (participants s)) s).

Definition participant_added (session : ref) (user_id : string)
    (ws : websocket) (tpm : TPM) (s : SyncSession) (w : World) : World :=
  set_session_objs (<[session := reattached user_id ws (next_ref w) s]> (session_objs w))
    (set_tpm_objs (<[next_ref w := tpm]> (tpm_objs w))
       (set_next_ref (S (next_ref w)) w)).

Lemma add_participant_run session user_id ws draw tpm s w :
  session_objs w !! session = Some s →
  __init__ (tpm_k s) (tpm_n s) (tpm_l s) draw = Ok tpm →
  add_participant session user_id ws draw w
  = (Ok tt, participant_added session user_id ws tpm s w).
Proof.
  intros Hs Hini. unfold add_participant.
  unfold mbind at 1, M_bind at 1, update_session at 1, modify at 1.
  erewrite bind_ok by (apply the_session_run, update_session_lookup, Hs).
  unfold mbind at 1, M_bind at 1, lift at 1. simpl tpm_k. simpl tpm_n.
  simpl tpm_l. rewrite Hini.
  unfold mbind at 1, M_bind at 1, fresh at 1.
  unfold mbind at 1, M_bind at 1, get at 1.
  unfold mbind at 1, M_bind at 1, put at 1. unfold mret at 1, M_ret at 1.
  unfold mbind at 1, M_bind at 1, store_tpm at 1, modify at 1.
  unfold update_session, modify, participant_added, reattached. simpl.
  f_equal. unfold set_session_objs. simpl. f_equal.
  rewrite alter_alter_eq. apply map_eq. intros i.
  destruct (decide (i = session)) as [->|Hi].
  - now rewrite lookup_alter_eq, lookup_insert_eq, Hs.
  - now rewrite lookup_alter_ne, lookup_insert_ne by congruence.
Qed.

End Reconnect.

Section ReconnectTheorem.
Import TreeParityMachine Handler Scenario.

(** Some entropy gives the fresh machine weights other than those of
    any given machine. *)
Lemma fresh_machine_differs (k n : nat) (l : Z) (tb : TPM) :
  (0 < k)%nat → (0 < n)%nat → 0 < l < 2 ^ 63 →
  ∃ draw tpm, __init__ k n l draw = Ok tpm ∧ weights tpm ≠ weights tb.
Proof.
  intros Hk Hn Hl.
  destruct k as [|k]; [lia|]. destruct n as [|n]; [lia|].
  assert (Hrun : ∀ draw, ∃ rest rows,
             __init__ (S k) (S n) l draw
             = Ok (mk (S k) (S n) l
                     ((- l + draw 0%nat 0%nat mod (l + 1 - - l) :: rest) :: rows))).
  { intros draw. unfold __init__, randint. rewrite decide_True by lia.
    simpl. eexists _, _. reflexivity. }
  destruct (Hrun (λ _ _, 0)) as (r0 & rows0 & H0).
  destruct (Hrun (λ _ _, 1)) as (r1 & rows1 & H1).
  destruct (decide (weights tb = (- l + 0 mod (l + 1 - - l) :: r0) :: rows0))
    as [Heq|Hne].
  - exists (λ _ _, 1), (mk (S k) (S n) l ((- l + 1 mod (l + 1 - - l) :: r1) :: rows1)).
    split; [exact H1|]. simpl. rewrite Heq. intros [= H _ _].
    rewrite Z.mod_0_l, Z.mod_1_l in H by lia. lia.
  - exists (λ _ _, 0), (mk (S k) (S n) l ((- l + 0 mod (l + 1 - - l) :: r0) :: rows0)).
    split; [exact H0|]. simpl. congruence.
Qed.

(** C10. In a session holding two participants, a connect under the
    user id of one of them is accepted: no error frame is sent and the
    channel is not closed; the only way it can raise is the send of
    [session_info] on a dead channel.  The participant's entry now
    holds the new channel and a reference to a new machine, drawn at
    random with the session's parameters; no other machine is touched
    and [is_synced], [shared_key] and [cipher] stay as they were.
    Whatever the other machine's weights are, some entropy gives the
    new machine different ones. *)
Theorem reconnect_replaces_machine :
  (∀ ws sid user_id k n l draw w session s tpm,
      sessions w !! sid = Some session →
      session_objs w !! session = Some s →
      length (participants s) = 2%nat →
      user_id ∈ dict_keys (participants s) →
      __init__ (tpm_k s) (tpm_n s) (tpm_l s) draw = Ok tpm →
      ∃ s' sent,
        let r := connect ws sid user_id k n l draw w in
        r.1 = (if decide (ws ∈ dead w) then Raise SendError else Ok session) ∧
        trace r.2 = trace w ++ Accept ws :: sent ∧
        Forall (λ e, ∃ to,
                  e = Send to (user_joined user_id 2) ∨
                  e = Send to (session_info sid (length (participants s'))
                                 (is_synced s) (tpm_k s) (tpm_n s) (tpm_l s)))
               sent ∧
        session_objs r.2 !! session = Some s' ∧
        dict_get user_id (participants s') = Some ws ∧
        dict_get user_id (tpms s') = Some (next_ref w) ∧
        tpm_objs r.2 !! next_ref w = Some tpm ∧
        (∀ r0, r0 ≠ next_ref w → tpm_objs r.2 !! r0 = tpm_objs w !! r0) ∧
        is_synced s' = is_synced s ∧ shared_key s' = shared_key s ∧
        cipher s' = cipher s) ∧
  (∀ (k n : nat) l (tb : TPM),
      (0 < k)%nat → (0 < n)%nat → 0 < l < 2 ^ 63 →
      ∃ draw tpm, __init__ k n l draw = Ok tpm ∧ weights tpm ≠ weights tb).
Proof.
  split; [|exact fresh_machine_differs].
  intros ws sid user_id k n l draw w session s tpm Hsid Hs Hlen Hmem Hini.
  set (w0 := set_trace (trace w ++ [Accept ws]) w).
  set (s4 := reattached user_id ws (next_ref w) s).
  set (w4 := participant_added session user_id ws tpm s w0).
  set (msg := user_joined user_id (length (participants s4))).
  set (w5 := after_broadcast session msg [user_id] s4 w4).
  set (s5 := foldl (λ acc u, remove_participant u acc) s4
               (dropped w4 s4 [user_id])).
  assert (Hs0 : session_objs w0 !! session = Some s) by exact Hs.
  assert (Hs4 : session_objs w4 !! session = Some s4).
  { subst w4 s4. unfold participant_added. simpl. now rewrite lookup_insert_eq. }
  assert (Hs5 : session_objs w5 !! session = Some s5)
    by (apply after_broadcast_session; exact Hs4).
  assert (Hlen4 : length (participants s4) = 2%nat).
  { subst s4. unfold reattached. simpl. now rewrite dict_set_length. }
  destruct (removals_keep (dropped w4 s4 [user_id]) s4)
    as (Hsyn & Hkey & Hcip & _ & _ & Hk5 & Hn5 & Hl5).
  destruct (removals_keep_user user_id (dropped w4 s4 [user_id]) s4
              (dropped_excluded w4 s4 user_id)) as (Hp & Ht & _).
  fold s5 in Hsyn, Hkey, Hcip, Hk5, Hn5, Hl5, Hp, Ht.
  assert (Hrun : connect ws sid user_id k n l draw w
                 = (_ ← send_json ws
                          (session_info sid (length (participants s5))
                             (is_synced s5) (tpm_k s5) (tpm_n s5) (tpm_l s5));
                    mret session) w5).
  { unfold connect.
    unfold mbind at 1, M_bind at 1, emit at 1, modify at 1. fold w0.
    unfold mbind at 1, M_bind at 1, get at 1.
    rewrite decide_False by (simpl; rewrite Hsid; discriminate).
    unfold mbind at 1, M_bind at 1. unfold mret at 1, M_ret at 1.
    unfold mbind at 1, M_bind at 1, get at 1.
    change (sessions w0) with (sessions w). rewrite Hsid.
    rewrite (bind_ok _ _ _ _ _ (the_session_run _ _ _ Hs0)).
    rewrite decide_False by tauto.
    rewrite (bind_ok _ _ _ _ _
               (add_participant_run session user_id ws draw tpm s w0 Hs0 Hini)).
    fold w4.
    rewrite (bind_ok _ _ _ _ _ (the_session_run _ _ _ Hs4)).
    rewrite (bind_ok _ _ _ _ _ (broadcast_run session msg [user_id] w4 s4 Hs4)).
    fold w5.
    rewrite (bind_ok _ _ _ _ _ (the_session_run _ _ _ Hs5)).
    reflexivity. }
  assert (Hdead : dead w5 = dead w) by reflexivity.
  assert (Htpm : tpm_objs w5 = <[next_ref w := tpm]> (tpm_objs w)) by reflexivity.
  assert (Htr : trace w5 = trace w ++ Accept ws
                  :: ((λ p, Send p.2 msg) <$> delivered w4 s4 [user_id])).
  { subst w5. unfold after_broadcast. simpl. now rewrite <- app_assoc. }
  assert (Hjoin : Forall (λ e, ∃ to,
                      e = Send to (user_joined user_id 2) ∨
                      e = Send to (session_info sid (length (participants s5))
                                     (is_synced s) (tpm_k s) (tpm_n s) (tpm_l s)))
                    ((λ p, Send p.2 msg) <$> delivered w4 s4 [user_id])).
  { apply Forall_fmap, Forall_true. intros p. simpl. exists p.2. left.
    subst msg. now rewrite Hlen4. }
  assert (H4 : is_synced s4 = is_synced s ∧ shared_key s4 = shared_key s ∧
               cipher s4 = cipher s ∧ tpm_k s4 = tpm_k s ∧
               tpm_n s4 = tpm_n s ∧ tpm_l s4 = tpm_l s ∧
               dict_get user_id (participants s4) = Some ws ∧
               dict_get user_id (tpms s4) = Some (next_ref w)).
  { subst s4. unfold reattached. simpl.
    splits; try reflexivity; apply dict_get_set. }
  destruct H4 as (E1 & E2 & E3 & E4 & E5 & E6 & E7 & E8).
  rewrite E1 in Hsyn. rewrite E2 in Hkey. rewrite E3 in Hcip.
  rewrite E4 in Hk5. rewrite E5 in Hn5. rewrite E6 in Hl5.
  rewrite E7 in Hp. rewrite E8 in Ht.
  clearbody w5. clearbody s5. clearbody w4. clearbody msg. clearbody s4.
  exists s5.
  unfold send_json in Hrun. unfold mbind at 1, M_bind at 1, mbind at 1,
    M_bind at 1, get at 1 in Hrun. rewrite Hdead in Hrun.
  destruct (decide (ws ∈ dead w)) as [Hd|Hd].
  - exists ((λ p, Send p.2 msg) <$> delivered w4 s4 [user_id]).
    cbv zeta. rewrite Hrun. simpl. rewrite Htpm. splits; auto.
    + apply lookup_insert_eq.
    + intros r0 Hr0. now apply lookup_insert_ne.
  - exists (((λ p, Send p.2 msg) <$> delivered w4 s4 [user_id])
            ++ [Send ws (session_info sid (length (participants s5))
                           (is_synced s5) (tpm_k s5) (tpm_n s5) (tpm_l s5))]).
    cbv zeta. rewrite Hrun. simpl. rewrite Htpm, Htr. splits; auto.
    + now rewrite <- app_assoc.
    + apply Forall_app. split; [exact Hjoin|]. constructor; [|constructor].
      exists ws. right. now rewrite Hsyn, Hk5, Hn5, Hl5.
    + apply lookup_insert_eq.
    + intros r0 Hr0. now apply lookup_insert_ne.
Qed.

(** The session of the scenario, synchronised, as Alice attaches again. *)
Definition synced_session : SyncSession :=
  default (new_session ""%string 0%nat 0%nat 0) (session_objs synced !! 0%nat).
Definition alice_second_machine : TPM :=
  mk 3 4 3 [[-2; -1; 0; 1]; [0; 1; 2; 3]; [2; 3; -3; -2]].

Lemma reconnect_replaces_machine_witness :
  ∃ s',
    session_objs alice_rejoined !! 0%nat = Some s' ∧
    dict_get "alice"%string (participants s') = Some 7%nat ∧
    dict_get "alice"%string (tpms s') = Some (next_ref synced) ∧
    tpm_objs alice_rejoined !! next_ref synced = Some alice_second_machine ∧
    is_synced s' = true.
Proof.
  destruct (proj1 reconnect_replaces_machine 7%nat "s"%string "alice"%string
              3%nat 4%nat 3 draw_e synced 0%nat synced_session
              alice_second_machine)
    as (s' & sent & _ & _ & _ & Hs' & Hp & Ht & Hm & _ & Hsyn & _).
  - vm_compute. reflexivity.
  - vm_compute. reflexivity.
  - vm_compute. reflexivity.
  - apply (bool_decide_unpack _). vm_compute. exact I.
  - vm_compute. reflexivity.
  - exists s'. splits; [exact Hs' | exact Hp | exact Ht | exact Hm |].
    rewrite Hsyn. vm_compute. reflexivity.
Defined.

End ReconnectTheorem.


(** ** The cipher (C6) *)

Section ByteFacts.

Lemma of_Z_to_Z b : of_Z (to_Z b) = b.
Proof. destruct b; reflexivity. Qed.

Lemma to_Z_range b : 0 ≤ to_Z b < 256.
Proof.
  rewrite <- (of_Z_to_Z b), to_Z_of_Z. now apply Z.mod_pos_bound.
Qed.

Lemma to_Z_of_Z_small z : 0 ≤ z < 256 → to_Z (of_Z z) = z.
Proof. intros H. rewrite to_Z_of_Z. now apply Z.mod_small. Qed.

Lemma to_Z_inj a b : to_Z a = to_Z b → a = b.
Proof. intros H. now rewrite <- (of_Z_to_Z a), H, of_Z_to_Z. Qed.

(** A check on all pairs of byte values, by enumeration. *)
Lemma for_all_bytes2 (P : Z → Z → bool) :
  forallb (λ x, forallb (P x) (seqZ 0 256)) (seqZ 0 256) = true →
  ∀ x y, 0 ≤ x < 256 → 0 ≤ y < 256 → P x y = true.
Proof.
  intros H x y Hx Hy. rewrite forallb_forall in H.
  assert (Hin : ∀ z, 0 ≤ z < 256 → In z (seqZ 0 256)).
  { intros z Hz. apply list_elem_of_In, elem_of_seqZ. lia. }
  specialize (H x (Hin x Hx)). rewrite forallb_forall in H.
  exact (H y (Hin y Hy)).
Qed.

Lemma for_all_bytes (P : Z → bool) :
  forallb P (seqZ 0 256) = true → ∀ x, 0 ≤ x < 256 → P x = true.
Proof.
  intros H x Hx. rewrite forallb_forall in H. apply H.
  apply list_elem_of_In, elem_of_seqZ. lia.
Qed.

End ByteFacts.

Section Utf8.
Import codecs.

Lemma result_bind_ok {A B} (m : result A) (f : A → result B) a :
  m = Ok a → (m ≫= f) = f a.
Proof. now intros ->. Qed.

(** Decoding undoes the encoding of one scalar value. *)
Lemma decode_encode_char c rest :
  scalar c →
  ∃ b, encode_char c = Ok b ∧
       decode (b ++ rest) = (s ← decode rest; Ok (c :: s)).
Proof.
  intros Hc. unfold scalar in Hc. unfold encode_char.
  destruct (decide (c < 0)); [lia|].
  destruct (decide (c < 128)).
  { eexists; split; [reflexivity|]. simpl.
    rewrite to_Z_of_Z_small by lia. now rewrite decide_True by lia. }
  destruct (decide (c < 2048)).
  { eexists; split; [reflexivity|]. simpl. unfold continuation.
    rewrite !to_Z_of_Z_small by (Z.div_mod_to_equations; lia).
    rewrite decide_False by (Z.div_mod_to_equations; lia).
    rewrite decide_False by (Z.div_mod_to_equations; lia).
    rewrite decide_True by (Z.div_mod_to_equations; lia).
    rewrite decide_True by (Z.div_mod_to_equations; lia).
    replace ((192 + c / 64 - 192) * 64 + (128 + c mod 64 - 128)) with c
      by (Z.div_mod_to_equations; lia).
    reflexivity. }
  destruct (decide (55296 ≤ c < 57344)); [lia|].
  destruct (decide (c < 65536)).
  { eexists; split; [reflexivity|]. simpl. unfold continuation.
    rewrite !to_Z_of_Z_small by (Z.div_mod_to_equations; lia).
    rewrite decide_False by (Z.div_mod_to_equations; lia).
    rewrite decide_False by (Z.div_mod_to_equations; lia).
    rewrite decide_False by (Z.div_mod_to_equations; lia).
    rewrite decide_True by (Z.div_mod_to_equations; lia).
    rewrite decide_True by (Z.div_mod_to_equations; lia).
    rewrite decide_True by (Z.div_mod_to_equations; lia).
    replace (((224 + c / 4096 - 224) * 64 + (128 + c / 64 mod 64 - 128)) * 64
             + (128 + c mod 64 - 128)) with c
      by (Z.div_mod_to_equations; lia).
    rewrite decide_True by lia. reflexivity. }
  destruct (decide (c < 1114112)); [|lia].
  eexists; split; [reflexivity|]. simpl. unfold continuation.
  rewrite !to_Z_of_Z_small by (Z.div_mod_to_equations; lia).
  rewrite decide_False by (Z.div_mod_to_equations; lia).
  rewrite decide_False by (Z.div_mod_to_equations; lia).
  rewrite decide_False by (Z.div_mod_to_equations; lia).
  rewrite decide_False by (Z.div_mod_to_equations; lia).
  rewrite decide_True by (Z.div_mod_to_equations; lia).
  rewrite decide_True by (Z.div_mod_to_equations; lia).
  rewrite decide_True by (Z.div_mod_to_equations; lia).
  rewrite decide_True by (Z.div_mod_to_equations; lia).
  replace ((((240 + c / 262144 - 240) * 64 + (128 + c / 4096 mod 64 - 128)) * 64
            + (128 + c / 64 mod 64 - 128)) * 64 + (128 + c mod 64 - 128))
    with c by (Z.div_mod_to_equations; lia).
  rewrite decide_True by lia. reflexivity.
Qed.

Lemma encode_char_length c b :
  encode_char c = Ok b → (length b ≤ 4)%nat.
Proof.
  unfold encode_char. repeat destruct (decide _); intros [= <-]; simpl; lia.
Qed.

(** [s.encode('utf-8').decode('utf-8') == s] for a string of scalar
    values, and the encoding takes at most four bytes a character. *)
Lemma decode_encode s :
  Forall scalar s →
  ∃ b, encode s = Ok b ∧ decode b = Ok s ∧ (length b ≤ 4 * length s)%nat.
Proof.
  induction 1 as [|c s Hc _ (bs & He & Hd & Hl)].
  - exists []. now splits.
  - destruct (decode_encode_char c bs Hc) as (b & Hb & Hdec).
    exists (b ++ bs). simpl. rewrite Hb, He. simpl.
    rewrite Hdec, Hd. splits; try reflexivity.
    apply encode_char_length in Hb. rewrite length_app. lia.
Qed.

(** On ASCII bytes the codec is the identity on values. *)
Lemma decode_ascii bs :
  Forall (λ b, to_Z b < 128) bs → decode bs = Ok (to_Z <$> bs).
Proof.
  induction 1 as [|b bs Hb _ IH]; [reflexivity|].
  simpl. rewrite decide_True by exact Hb. now rewrite IH.
Qed.

Lemma encode_ascii bs :
  Forall (λ b, to_Z b < 128) bs → encode (to_Z <$> bs) = Ok bs.
Proof.
  induction 1 as [|b bs Hb _ IH]; [reflexivity|].
  change (encode (to_Z <$> b :: bs))
    with (b' ← encode_char (to_Z b); bs' ← encode (to_Z <$> bs); Ok (b' ++ bs')).
  rewrite IH. unfold encode_char. pose proof (to_Z_range b).
  rewrite decide_False by lia. rewrite decide_True by exact Hb.
  simpl. now rewrite of_Z_to_Z.
Qed.

End Utf8.

Section Base64.
Import base64.

Lemma list_ind3 {A} (P : list A → Prop) :
  P [] → (∀ a, P [a]) → (∀ a b, P [a; b]) →
  (∀ a b c l, P l → P (a :: b :: c :: l)) → ∀ l, P l.
Proof.
  intros H0 H1 H2 H3.
  assert (H : ∀ n (l : list A), (length l < n)%nat → P l).
  { induction n as [|n IH]; intros l Hl; [lia|].
    destruct l as [|a [|b [|c l]]]; auto.
    apply H3, IH. simpl in Hl. lia. }
  intros l. apply (H (S (length l))). lia.
Qed.

Lemma value_char v : 0 ≤ v < 64 → value (char v) = Some v.
Proof.
  intros Hv.
  pose proof (for_all_bytes
                (λ v, (64 <=? v) || match value (char v) with
                                    | Some u => u =? v
                                    | None => false
                                    end)
                ltac:(vm_compute; reflexivity) v ltac:(lia)) as H.
  apply orb_true_iff in H as [H|H]; [lia|].
  destruct (value (char v)) as [u|]; [|discriminate].
  apply Z.eqb_eq in H. now subst u.
Qed.

Lemma char_not_pad v : 0 ≤ v < 64 → char v ≠ pad.
Proof.
  intros Hv He. pose proof (value_char v Hv) as H. rewrite He in H.
  vm_compute in H. discriminate.
Qed.

Lemma char_ascii v : to_Z (char v) < 128.
Proof.
  unfold char.
  assert (H : Forall (λ b, to_Z b < 128) alphabet).
  { apply (bool_decide_unpack _). vm_compute. exact I. }
  destruct (nth_in_or_default (Z.to_nat v) alphabet pad) as [Hin| ->].
  - rewrite Forall_forall in H. apply H. now apply list_elem_of_In.
  - vm_compute. reflexivity.
Qed.

Lemma b64encode_ascii s : Forall (λ b, to_Z b < 128) (b64encode s).
Proof.
  assert (Hp : to_Z pad < 128) by (vm_compute; reflexivity).
  induction s as [|a|a b|a b c s IH] using list_ind3; simpl.
  - constructor.
  - repeat constructor; auto using char_ascii.
  - repeat constructor; auto using char_ascii.
  - repeat (constructor; [apply char_ascii|]). exact IH.
Qed.

(** One step of the decoder on a character of the alphabet. *)
Lemma a2b_char v data q lc pads out :
  0 ≤ v < 64 →
  a2b_base64 (char v :: data) q lc pads out
  = match q with
    | 0%nat => a2b_base64 data 1 v 0 out
    | 1%nat =>
        a2b_base64 data 2 (Z.land v 15) 0
          (out ++ [of_Z (Z.lor (Z.shiftl lc 2) (Z.shiftr v 4))])
    | 2%nat =>
        a2b_base64 data 3 (Z.land v 3) 0
          (out ++ [of_Z (Z.lor (Z.shiftl lc 4) (Z.shiftr v 2))])
    | _ => a2b_base64 data 0 0 0 (out ++ [of_Z (Z.lor (Z.shiftl lc 6) v)])
    end.
Proof.
  intros Hv. cbn [a2b_base64].
  rewrite decide_False by (now apply char_not_pad).
  now rewrite value_char.
Qed.

(** The bit operations of the decoder on the values the encoder made. *)
Lemma first_byte a b :
  0 ≤ a < 256 → 0 ≤ b < 256 →
  Z.lor (Z.shiftl (a / 4) 2) (Z.shiftr (a mod 4 * 16 + b / 16) 4) = a ∧
  Z.land (a mod 4 * 16 + b / 16) 15 = b / 16.
Proof.
  intros Ha Hb.
  pose proof (for_all_bytes2
    (λ a b,
       (Z.lor (Z.shiftl (a / 4) 2) (Z.shiftr (a mod 4 * 16 + b / 16) 4) =? a)
       && (Z.land (a mod 4 * 16 + b / 16) 15 =? b / 16))
    ltac:(vm_compute; reflexivity) a b Ha Hb) as H.
  apply andb_true_iff in H as [H1 H2]. split; now apply Z.eqb_eq.
Qed.

Lemma second_byte b c :
  0 ≤ b < 256 → 0 ≤ c < 256 →
  Z.lor (Z.shiftl (b / 16) 4) (Z.shiftr (b mod 16 * 4 + c / 64) 2) = b ∧
  Z.land (b mod 16 * 4 + c / 64) 3 = c / 64 ∧
  Z.lor (Z.shiftl (c / 64) 6) (c mod 64) = c.
Proof.
  intros Hb Hc.
  pose proof (for_all_bytes2
    (λ b c,
       (Z.lor (Z.shiftl (b / 16) 4) (Z.shiftr (b mod 16 * 4 + c / 64) 2) =? b)
       && (Z.land (b mod 16 * 4 + c / 64) 3 =? c / 64)
       && (Z.lor (Z.shiftl (c / 64) 6) (c mod 64) =? c))
    ltac:(vm_compute; reflexivity) b c Hb Hc) as H.
  apply andb_true_iff in H as [H H3]. apply andb_true_iff in H as [H1 H2].
  splits; now apply Z.eqb_eq.
Qed.

Lemma a2b_pad data q lc pads out :
  a2b_base64 (pad :: data) q lc pads out
  = if decide (2 ≤ q ∧ 4 ≤ q + S pads)%nat then Ok out
    else a2b_base64 data q lc (if decide (2 ≤ q)%nat then S pads else pads) out.
Proof. cbn [a2b_base64]. now rewrite decide_True by reflexivity. Qed.

(** [base64.b64decode(base64.b64encode(s)) == s] *)
Lemma a2b_b64encode s : ∀ lc pads out,
  a2b_base64 (b64encode s) 0 lc pads out = Ok (out ++ s).
Proof.
  induction s as [|a|a b|a b c s IH] using list_ind3; intros lc pads out.
  - simpl. now rewrite app_nil_r.
  - pose proof (to_Z_range a) as Ha.
    destruct (first_byte (to_Z a) 0 Ha ltac:(lia)) as [H1 _].
    cbn [b64encode]. cbv zeta.
    rewrite a2b_char by (Z.div_mod_to_equations; lia).
    rewrite a2b_char by (Z.div_mod_to_equations; lia).
    rewrite !a2b_pad. rewrite decide_False by lia.
    destruct (decide (2 ≤ 2)%nat); [|lia]. rewrite decide_True by lia.
    change (0 / 16) with 0 in H1. rewrite Z.add_0_r in H1.
    now rewrite H1, of_Z_to_Z.
  - pose proof (to_Z_range a) as Ha. pose proof (to_Z_range b) as Hb.
    destruct (first_byte (to_Z a) (to_Z b) Ha Hb) as [H1 H2].
    destruct (second_byte (to_Z b) 0 Hb ltac:(lia)) as (H3 & _ & _).
    cbn [b64encode]. cbv zeta.
    rewrite a2b_char by (Z.div_mod_to_equations; lia).
    rewrite a2b_char by (Z.div_mod_to_equations; lia).
    rewrite a2b_char by (Z.div_mod_to_equations; lia).
    rewrite a2b_pad. rewrite decide_True by lia.
    rewrite H1, H2, of_Z_to_Z.
    change (0 / 64) with 0 in H3. rewrite Z.add_0_r in H3.
    rewrite H3, of_Z_to_Z. now rewrite <- app_assoc.
  - pose proof (to_Z_range a) as Ha. pose proof (to_Z_range b) as Hb.
    pose proof (to_Z_range c) as Hc.
    destruct (first_byte (to_Z a) (to_Z b) Ha Hb) as [H1 H2].
    destruct (second_byte (to_Z b) (to_Z c) Hb Hc) as (H3 & H4 & H5).
    cbn [b64encode]. cbv zeta. cbn [app].
    rewrite a2b_char by (Z.div_mod_to_equations; lia).
    rewrite a2b_char by (Z.div_mod_to_equations; lia).
    rewrite a2b_char by (Z.div_mod_to_equations; lia).
    rewrite a2b_char by (Z.div_mod_to_equations; lia).
    rewrite H1, H2, H3, H4, H5, !of_Z_to_Z, IH.
    now rewrite <- !app_assoc.
Qed.

Lemma b64decode_b64encode s : b64decode (b64encode s) = Ok s.
Proof. unfold b64decode. now rewrite a2b_b64encode. Qed.

End Base64.

Section Gcm.
Import AES.
Variable E : Z → Z.

Lemma xor_byte_involutive x y :
  of_Z (Z.lxor (to_Z (of_Z (Z.lxor (to_Z x) (to_Z y)))) (to_Z y)) = x.
Proof.
  rewrite to_Z_of_Z.
  pose proof (for_all_bytes2
                (λ a b, Z.lxor (Z.lxor a b mod 256) b =? a)
                ltac:(vm_compute; reflexivity)
                (to_Z x) (to_Z y) (to_Z_range x) (to_Z_range y)) as H.
  apply Z.eqb_eq in H. now rewrite H, of_Z_to_Z.
Qed.

Lemma xor_bytes_length a : ∀ k,
  (length a ≤ length k)%nat → length (xor_bytes a k) = length a.
Proof.
  unfold xor_bytes. induction a as [|x a IH]; intros [|y k] Hl; simpl in *;
    try reflexivity; try lia.
  rewrite IH by lia. reflexivity.
Qed.

Lemma xor_bytes_involutive a : ∀ k,
  (length a ≤ length k)%nat → xor_bytes (xor_bytes a k) k = a.
Proof.
  unfold xor_bytes. induction a as [|x a IH]; intros [|y k] Hl; simpl in *;
    try reflexivity; try lia.
  rewrite xor_byte_involutive, IH by lia. reflexivity.
Qed.

Lemma length_blocks {A} (f : A → bytes) (l : list A) :
  (∀ x, length (f x) = 16%nat) → length (l ≫= f) = (16 * length l)%nat.
Proof.
  intros Hf. induction l as [|x l IH]; [reflexivity|].
  change ((x :: l) ≫= f) with (f x ++ (l ≫= f)).
  rewrite length_app, Hf, IH. simpl. lia.
Qed.

Lemma keystream_length nonce len : length (keystream E nonce len) = len.
Proof.
  unfold keystream. rewrite length_take, length_blocks, length_seq.
  - pose proof (Nat.div_mod_eq (len + 15) 16).
    pose proof (Nat.mod_upper_bound (len + 15) 16). lia.
  - intros i. apply be_bytes_length.
Qed.

Lemma crypt_length nonce data : length (crypt E nonce data) = length data.
Proof.
  unfold crypt. apply xor_bytes_length. now rewrite keystream_length.
Qed.

(** Counter mode is its own inverse. *)
Lemma crypt_involutive nonce data :
  crypt E nonce (crypt E nonce data) = data.
Proof.
  unfold crypt at 1. rewrite crypt_length. unfold crypt.
  apply xor_bytes_involutive. now rewrite keystream_length.
Qed.

Lemma mac_length nonce ciphertext : length (mac E nonce ciphertext) = 16%nat.
Proof. apply be_bytes_length. Qed.

End Gcm.

(** Run the binds of the [result] monad whose first step is known. *)
Ltac run_bind := cbv beta iota zeta delta [mbind result_bind].

Section Cipher.
Import codecs base64 AES NeuralCipher.

Lemma decrypt_and_verify_encrypt_and_digest self data :
  Z.of_nat (length data) ≤ 2 ^ 36 →
  ∃ ciphertext tag,
    encrypt_and_digest self data = Ok (ciphertext, tag) ∧
    length ciphertext = length data ∧ length tag = 16%nat ∧
    decrypt_and_verify self ciphertext tag = Ok data.
Proof.
  intros Hl.
  assert (Hc : ∀ d : bytes, length d = length data → check_length d = Ok tt).
  { intros d Hd. unfold check_length. rewrite Hd.
    rewrite decide_False by lia. now rewrite decide_False by lia. }
  set (E := encrypt_block (gcm_key self)).
  exists (crypt E (gcm_nonce self) data),
    (mac E (gcm_nonce self) (crypt E (gcm_nonce self) data)).
  unfold encrypt_and_digest, decrypt_and_verify. fold E.
  rewrite (Hc data eq_refl), (Hc _ (crypt_length _ _ _)).
  unfold mbind, result_bind.
  rewrite decide_True by reflexivity. rewrite crypt_involutive.
  splits; [reflexivity | apply crypt_length | apply mac_length | reflexivity].
Qed.

Lemma cipher_key_length k : length (key (__init__ k)) = 32%nat.
Proof.
  unfold __init__. simpl. rewrite py_slice_prefix by lia.
  rewrite length_take. destruct (decide _) as [H|H].
  - now rewrite sha256_length.
  - change (Z.to_nat 32) with 32%nat. lia.
Qed.

Lemma slice_index_nonneg n i :
  0 ≤ i ≤ Z.of_nat n → slice_index n i = Z.to_nat i.
Proof.
  intros H. unfold slice_index. destruct (decide (i < 0)); [lia|].
  now rewrite Z.min_l by lia.
Qed.

(** The three slices [decrypt] takes of [nonce + tag + ciphertext]. *)
Lemma combined_slices (nonce tag ciphertext : bytes) :
  length nonce = 12%nat → length tag = 16%nat →
  let combined := nonce ++ tag ++ ciphertext in
  py_slice None (Some 12) combined = nonce ∧
  py_slice (Some 12) (Some 28) combined = tag ∧
  py_slice (Some 28) None combined = ciphertext.
Proof.
  intros Hn Ht combined.
  assert (Hl : Z.of_nat (length combined) = 28 + Z.of_nat (length ciphertext)).
  { subst combined. rewrite !length_app. lia. }
  unfold py_slice. cbn [from_option].
  rewrite !slice_index_nonneg by lia.
  change (Z.to_nat 12) with 12%nat. change (Z.to_nat 28) with 28%nat.
  subst combined. splits.
  - rewrite drop_0. rewrite take_app_length'; [reflexivity | lia].
  - rewrite drop_app_length' by lia.
    rewrite take_app_length'; [reflexivity | lia].
  - rewrite app_assoc, drop_app_length' by (rewrite length_app; lia).
    apply take_ge. rewrite !length_app. lia.
Qed.

Lemma get_random_bytes_length n entropy :
  length (get_random_bytes n entropy) = n.
Proof. unfold get_random_bytes. now rewrite length_fmap, length_seq. Qed.

(** C6. For every key and every string of Unicode scalar values of
    fewer than [2 ^ 32] characters, and whatever the twelve bytes the
    random generator yields as nonce: [encrypt] returns the base64
    text of [nonce ‖ tag ‖ ciphertext] with a nonce of 12 bytes, a tag
    of 16 bytes and a ciphertext as long as the UTF-8 encoding of the
    message, and [decrypt], by a cipher built from the same key,
    returns the message. *)
Theorem decrypt_encrypt_round_trip k entropy m :
  Forall scalar m → Z.of_nat (length m) < 2 ^ 32 →
  let nonce := get_random_bytes 12 entropy in
  ∃ data ciphertext tag,
    encode m = Ok data ∧
    length nonce = 12%nat ∧ length tag = 16%nat ∧
    length ciphertext = length data ∧
    encrypt (__init__ k) entropy m
    = Ok (to_Z <$> b64encode (nonce ++ tag ++ ciphertext)) ∧
    b64decode (b64encode (nonce ++ tag ++ ciphertext))
    = Ok (nonce ++ tag ++ ciphertext) ∧
    decrypt (__init__ k) (to_Z <$> b64encode (nonce ++ tag ++ ciphertext))
    = Ok m.
Proof.
  intros Hm Hlen nonce.
  destruct (decode_encode m Hm) as (data & Henc & Hdec & Hdl).
  assert (Hn : length nonce = 12%nat) by apply get_random_bytes_length.
  assert (Hnew : new (key (__init__ k)) nonce
                 = Ok {| gcm_key := key (__init__ k); gcm_nonce := nonce |}).
  { unfold new. rewrite cipher_key_length.
    rewrite decide_False by (intros H; apply H; set_solver).
    destruct (decide (nonce = [])) as [H|_]; [|reflexivity].
    rewrite H in Hn. discriminate. }
  destruct (decrypt_and_verify_encrypt_and_digest
              {| gcm_key := key (__init__ k); gcm_nonce := nonce |} data)
    as (ciphertext & tag & Hed & Hcl & Htl & Hdv); [lia|].
  destruct (combined_slices nonce tag ciphertext Hn Htl) as (S1 & S2 & S3).
  exists data, ciphertext, tag.
  splits; try assumption.
  - unfold encrypt. fold nonce. rewrite Hnew. run_bind.
    rewrite Henc. run_bind. rewrite Hed. run_bind.
    apply decode_ascii, b64encode_ascii.
  - apply b64decode_b64encode.
  - unfold decrypt.
    rewrite encode_ascii by apply b64encode_ascii. run_bind.
    rewrite b64decode_b64encode. run_bind.
    rewrite S1, S2, S3, Hnew. run_bind. rewrite Hdv. run_bind.
    now rewrite Hdec.
Qed.

(** "hé€😀" under the key 00 01 .. 1f and the nonce 64 65 .. 6f. *)
Definition key1 : bytes := of_Z <$> seqZ 0 32.
Definition entropy1 (i : nat) : byte := of_Z (Z.of_nat i + 100).
Definition message1 : str := [104; 233; 8364; 128512].

Lemma decrypt_encrypt_round_trip_witness :
  ∃ e, encrypt (__init__ key1) entropy1 message1 = Ok e ∧
       decrypt (__init__ key1) e = Ok message1.
Proof.
  destruct (decrypt_encrypt_round_trip key1 entropy1 message1)
    as (data & ciphertext & tag & _ & _ & _ & _ & He & _ & Hd).
  - unfold message1, scalar. repeat constructor; lia.
  - vm_compute. reflexivity.
  - eexists. split; [exact He | exact Hd].
Defined.

Example encrypt_example :
  encrypt (__init__ key1) entropy1 message1
  = Ok (to_Z <$> list_byte_of_string
          "ZGVmZ2hpamtsbW5v+/o/IsB1ox5lXX7kZoTEuCDYd4T7RaYBpuI=").
Proof. vm_compute. reflexivity. Qed.

End Cipher.


(** * Further properties of the code

  ** neural/tpm.py *)

Section MachineOutput.
Import TreeParityMachine.

(** The number of hidden units whose output is [-1]. *)
Definition minus_ones (sigma : list Z) : nat :=
  length (filter (λ s, s = -1) sigma).

Definition parity (n : nat) : Z := if Nat.even n then 1 else -1.

Lemma np_prod_parity sigma :
  Forall (λ s, s = -1 ∨ s = 1) sigma →
  ∀ acc, acc = -1 ∨ acc = 1 →
  fold_left i64_mul sigma acc = acc * parity (minus_ones sigma).
Proof.
  unfold minus_ones, parity.
  induction 1 as [|s sigma Hs _ IH]; intros acc Hacc; simpl.
  - lia.
  - assert (Hm : i64_mul acc s = acc * s).
    { unfold i64_mul. apply wrap64_small.
      change (2 ^ 63) with 9223372036854775808. lia. }
    rewrite Hm, IH by lia.
    destruct Hs as [-> | ->].
    + rewrite filter_cons_True by reflexivity. simpl length.
      rewrite Nat.even_succ, <- Nat.negb_even.
      destruct (Nat.even _); simpl; lia.
    + rewrite filter_cons_False by lia. lia.
Qed.

(** X1. On a machine and an input of the same shape [compute_output]
    returns: one output per hidden unit, each [+1] or [-1], [+1] when
    the local field is zero or positive; and [tau] is their product,
    that is [+1] exactly when an even number of units answer [-1]. *)
Theorem compute_output_signs t X k n :
  shaped k n (weights t) → shaped k n X →
  ∃ tau sigma,
    compute_output t X = Ok (tau, sigma) ∧
    length sigma = k ∧
    Forall (λ s, s = -1 ∨ s = 1) sigma ∧
    tau = parity (minus_ones sigma) ∧
    (∀ i x w, X !! i = Some x → weights t !! i = Some w →
       sigma !! i
       = Some (if decide (0 ≤ np_sum (zip_with i64_mul x w)) then 1 else -1)).
Proof.
  intros Hw HX. unfold compute_output.
  rewrite (elementwise2_zip i64_mul X (weights t) k n HX Hw).
  eexists _, _. split; [reflexivity|].
  set (sign0 := λ s : Z, if decide (s = 0) then 1 else s).
  assert (Hs : ∀ h, sign0 (Z.sgn h) = if decide (0 ≤ h) then 1 else -1).
  { intros h. unfold sign0. destruct h; simpl; repeat destruct (decide _); lia. }
  assert (Hsig : Forall (λ s, s = -1 ∨ s = 1)
                   (sign0 <$> (Z.sgn <$> (np_sum <$>
                      zip_with (zip_with i64_mul) X (weights t))))).
  { rewrite <- !list_fmap_compose. apply Forall_fmap, Forall_true.
    intros r. simpl. rewrite Hs. destruct (decide _); lia. }
  splits.
  - rewrite !length_fmap, length_zip_with.
    destruct Hw as [Hw _], HX as [HX _]. lia.
  - exact Hsig.
  - unfold np_prod. rewrite np_prod_parity by (exact Hsig || lia). lia.
  - intros i x w Hx Hwi.
    rewrite !list_lookup_fmap, lookup_zip_with, Hx. simpl. rewrite Hwi. simpl.
    now rewrite Hs.
Qed.

Definition machine1 : TPM := mk 2 2 3 [[1; -2]; [0; 3]].
Definition input1 : list (list Z) := [[1; 1]; [-1; 1]].

Lemma compute_output_signs_witness :
  compute_output machine1 input1 = Ok (-1, [-1; 1]).
Proof.
  destruct (compute_output_signs machine1 input1 2 2)
    as (tau & sigma & H & _); [by_compute | by_compute |].
  rewrite H. vm_compute in H. exact (eq_sym H).
Defined.

End MachineOutput.

Section EqualMachines.
Import TreeParityMachine.

(** What [compute_output] and [update_weights] read of a machine. *)
Definition same_core (a b : TPM) : Prop :=
  K a = K b ∧ L a = L b ∧ weights a = weights b.

Lemma update_neuron_core X tau sigma rule k a b :
  same_core a b →
  (update_neuron X tau sigma rule k a).1 = (update_neuron X tau sigma rule k b).1 ∧
  same_core (update_neuron X tau sigma rule k a).2
            (update_neuron X tau sigma rule k b).2.
Proof.
  intros (HK & HL & HW). unfold update_neuron, setitem_weights, set_weights.
  munfold. destruct (getitem sigma k) as [s|e0]; simpl; [|now splits].
  destruct (decide (s = tau)) as [Hs|Hs]; simpl; [|now splits].
  rewrite <- HW, <- HL.
  destruct (getitem (weights a) k) as [wk|e1]; simpl; [|now splits].
  destruct (getitem X k) as [xk|e2]; simpl; [|now splits].
  destruct rule; simpl;
    match goal with
    | |- context [elementwise ?f ?u ?v] =>
        destruct (elementwise f u v) as [w1|e3]; simpl
    end;
    unfold same_core; simpl; rewrite ?HW; now splits.
Qed.

Lemma for_each_core (body : nat → M TPM unit) xs :
  (∀ k a b, same_core a b →
     (body k a).1 = (body k b).1 ∧ same_core (body k a).2 (body k b).2) →
  ∀ a b, same_core a b →
    (for_each xs body a).1 = (for_each xs body b).1 ∧
    same_core (for_each xs body a).2 (for_each xs body b).2.
Proof.
  intros Hbody. induction xs as [|x xs IH]; intros a b Hab; simpl.
  - now split.
  - unfold mbind, M_bind. destruct (Hbody x a b Hab) as [H1 H2].
    destruct (body x a) as [[[]|e] a1], (body x b) as [[[]|e'] b1];
      simpl in *; try discriminate.
    + now apply IH.
    + split; [exact H1 | exact H2].
Qed.

Lemma update_weights_core X tau_self tau_other sigma rule a b :
  same_core a b →
  (update_weights X tau_self tau_other sigma rule a).1
  = (update_weights X tau_self tau_other sigma rule b).1 ∧
  same_core (update_weights X tau_self tau_other sigma rule a).2
            (update_weights X tau_self tau_other sigma rule b).2.
Proof.
  intros Hab. unfold update_weights.
  destruct (decide (tau_self ≠ tau_other)); [now split|].
  unfold mbind at 1 3 5 7, M_bind at 1 3 5 7, get.
  destruct Hab as (HK & HL & HW). rewrite <- HK.
  destruct (for_each_core (update_neuron X tau_self sigma rule) (range (K a))
              (λ k a b, update_neuron_core X tau_self sigma rule k a b)
              a b (conj HK (conj HL HW))) as [H1 H2].
  unfold mbind, M_bind.
  destruct (for_each _ _ a) as [[[]|e] a1], (for_each _ _ b) as [[[]|e'] b1];
    simpl in *; try discriminate; split; auto.
  now injection H1 as ->.
Qed.

Lemma compute_output_core X a b :
  same_core a b → compute_output a X = compute_output b X.
Proof. intros (_ & _ & HW). unfold compute_output. now rewrite HW. Qed.

End EqualMachines.

(** ** neural/sync.py *)

Section ProtocolRound.
Import TreeParityMachine NeuralSyncProtocol.

(** The state a round leaves. *)
Definition after_round (P : NeuralSyncProtocol.t) (ta tb : Z) (a' b' : TPM)
  : NeuralSyncProtocol.t :=
  let wm := bool_decide (weights a' = weights b') in
  mk (K P) (N P) (L P) (learning_rule P) (max_rounds P) a' b'
     (mk_state (S (round (state P)))
        (agreements (state P) + if bool_decide (ta = tb) then 1 else 0)
        wm
        (if wm then Some (py_slice None (Some 16) (hex (get_key a' 32)))
         else key_hash (state P))).

#[local] Opaque _calculate_progress.

(** A round in closed form, from what its steps return. *)
Lemma run_round_run X seed P ta sa tb sb ra a' rb b' :
  is_synced (state P) = false →
  compute_output (tpm_a P) X = Ok (ta, sa) →
  compute_output (tpm_b P) X = Ok (tb, sb) →
  update_weights X ta tb sa (learning_rule P) (tpm_a P) = (Ok ra, a') →
  update_weights X tb ta sb (learning_rule P) (tpm_b P) = (Ok rb, b') →
  run_round X seed P
  = (p ← _calculate_progress (after_round P ta tb a' b');
     Ok (mk_result (S (round (state P))) seed ta tb (bool_decide (ta = tb)) p
           (bool_decide (weights a' = weights b'))),
     after_round P ta tb a' b').
Proof.
  intros Hns Hca Hcb Hua Hub.
  unfold run_round, zoom, after_round. munfold. rewrite Hns, Hca, Hcb. simpl.
  destruct P as [k n l rule mr a b [rn ag syn kh]]. simpl in *. subst syn.
  destruct (bool_decide (ta = tb)) eqn:Hag; simpl;
    rewrite Hua; simpl; rewrite Hub; simpl;
    replace (ag + 0)%nat with ag in * by lia;
    (destruct (bool_decide (weights a' = weights b')) eqn:Hwm; simpl in *;
     replace (rn + 1)%nat with (S rn) by lia;
     unfold set_state, set_tpm_a, set_tpm_b; simpl;
     match goal with
     | |- context [_calculate_progress ?Q] =>
         destruct (_calculate_progress Q); reflexivity
     end).
Qed.

(** What a round that returns has done. *)
Lemma run_round_inv X seed P r P' :
  run_round X seed P = (Ok r, P') →
  is_synced (state P) = false ∧
  ∃ ta sa tb sb ra a' rb b' p,
    compute_output (tpm_a P) X = Ok (ta, sa) ∧
    compute_output (tpm_b P) X = Ok (tb, sb) ∧
    update_weights X ta tb sa (learning_rule P) (tpm_a P) = (Ok ra, a') ∧
    update_weights X tb ta sb (learning_rule P) (tpm_b P) = (Ok rb, b') ∧
    _calculate_progress (after_round P ta tb a' b') = Ok p ∧
    P' = after_round P ta tb a' b' ∧
    r = mk_result (S (round (state P))) seed ta tb (bool_decide (ta = tb)) p
          (bool_decide (weights a' = weights b')).
Proof.
  intros H.
  destruct (is_synced (state P)) eqn:Hns.
  { unfold run_round in H. munfold. rewrite Hns in H. discriminate. }
  destruct (compute_output (tpm_a P) X) as [[ta sa]|e] eqn:Hca.
  2:{ unfold run_round in H. munfold. rewrite Hns, Hca in H. discriminate. }
  destruct (compute_output (tpm_b P) X) as [[tb sb]|e] eqn:Hcb.
  2:{ unfold run_round in H. munfold. rewrite Hns, Hca, Hcb in H. discriminate. }
  destruct (update_weights X ta tb sa (learning_rule P) (tpm_a P))
    as [[ra|e] a'] eqn:Hua.
  2:{ unfold run_round, zoom in H. munfold. rewrite Hns, Hca, Hcb in H.
      simpl in H. destruct P as [k n l rule mr a b [rn ag syn kh]].
      simpl in *. destruct (bool_decide (ta = tb)); simpl in H;
        rewrite Hua in H; discriminate. }
  destruct (update_weights X tb ta sb (learning_rule P) (tpm_b P))
    as [[rb|e] b'] eqn:Hub.
  2:{ unfold run_round, zoom in H. munfold. rewrite Hns, Hca, Hcb in H.
      simpl in H. destruct P as [k n l rule mr a b [rn ag syn kh]].
      simpl in *. destruct (bool_decide (ta = tb)); simpl in H;
        rewrite Hua in H; simpl in H; rewrite Hub in H; discriminate. }
  rewrite (run_round_run X seed P ta sa tb sb ra a' rb b' Hns Hca Hcb Hua Hub)
    in H.
  destruct (_calculate_progress (after_round P ta tb a' b')) as [p|e] eqn:Hp;
    [|discriminate].
  injection H as <- <-. split; [reflexivity|].
  exists ta, sa, tb, sb, ra, a', rb, b', p. now splits.
Qed.

(** A round on a synchronised protocol raises and changes nothing. *)
Lemma run_round_synced X seed P :
  is_synced (state P) = true → run_round X seed P = (Raise RuntimeError, P).
Proof. intros H. unfold run_round. munfold. now rewrite H. Qed.

#[local] Transparent _calculate_progress.

End ProtocolRound.

Section Protocol.
Import TreeParityMachine NeuralSyncProtocol.

Lemma calculate_progress_total P :
  fits (K P) (N P) (L P) (tpm_a P) → fits (K P) (N P) (L P) (tpm_b P) →
  ∃ p, _calculate_progress P = Ok p.
Proof.
  intros Ha Hb. unfold _calculate_progress.
  destruct (decide _); [eauto|].
  destruct (abs_diff_shaped _ _ _ _ (fits_shaped _ _ _ _ Ha)
              (fits_shaped _ _ _ _ Hb)) as (d & -> & _).
  simpl. eauto.
Qed.

(** X2. Two machines with the same weights (and the same [K] and [L])
    give the same outputs on every input and are left with the same
    weights by the same update; so a round of the protocol that starts
    from equal weights ends with equal weights, reports an agreement
    and a match, and sets [is_synced]. *)
Theorem synchronised_machines_stay_synchronised :
  (∀ X a b tau_self tau_other sigma rule,
      TreeParityMachine.K a = TreeParityMachine.K b →
      TreeParityMachine.L a = TreeParityMachine.L b →
      weights a = weights b →
      compute_output a X = compute_output b X ∧
      (update_weights X tau_self tau_other sigma rule a).1
      = (update_weights X tau_self tau_other sigma rule b).1 ∧
      weights (update_weights X tau_self tau_other sigma rule a).2
      = weights (update_weights X tau_self tau_other sigma rule b).2) ∧
  (∀ X seed P r P',
      TreeParityMachine.K (tpm_a P) = TreeParityMachine.K (tpm_b P) →
      TreeParityMachine.L (tpm_a P) = TreeParityMachine.L (tpm_b P) →
      weights (tpm_a P) = weights (tpm_b P) →
      run_round X seed P = (Ok r, P') →
      weights (tpm_a P') = weights (tpm_b P') ∧
      agreed r = true ∧ weights_match r = true ∧
      is_synced (state P') = true).
Proof.
  split.
  - intros X a b tau_self tau_other sigma rule HK HL HW.
    assert (Hab : same_core a b) by (now splits).
    split; [now apply compute_output_core|].
    destruct (update_weights_core X tau_self tau_other sigma rule a b Hab)
      as (H1 & _ & _ & H2).
    now split.
  - intros X seed P r P' HK HL HW Hrun.
    assert (Hab : same_core (tpm_a P) (tpm_b P)) by (now splits).
    apply run_round_inv in Hrun
      as (_ & ta & sa & tb & sb & ra & a' & rb & b' & p
          & Hca & Hcb & Hua & Hub & _ & -> & ->).
    rewrite (compute_output_core X _ _ Hab), Hcb in Hca.
    injection Hca as <- <-.
    destruct (update_weights_core X tb tb sb (learning_rule P) _ _ Hab)
      as (_ & _ & _ & H2).
    rewrite Hua, Hub in H2. simpl in H2.
    unfold after_round. simpl. rewrite H2.
    rewrite !bool_decide_eq_true_2 by reflexivity. now splits.
Qed.

Definition twin_protocol : NeuralSyncProtocol.t :=
  mk 2 2 3 random_walk 10 machine1 machine1 (mk_state 0 0 false None).

Lemma synchronised_machines_stay_synchronised_witness :
  is_synced (state (run_round input1 7 twin_protocol).2) = true.
Proof.
  destruct synchronised_machines_stay_synchronised as [_ H].
  destruct (H input1 7 twin_protocol (default (mk_result 0 0 0 0 false 0 false)
              (match (run_round input1 7 twin_protocol).1 with
               | Ok r => Some r | Raise _ => None end))
              (run_round input1 7 twin_protocol).2)
    as (_ & _ & _ & Hs);
    [reflexivity | reflexivity | reflexivity | vm_compute; reflexivity |].
  exact Hs.
Defined.

(** What the protocol keeps true of itself. *)
Definition protocol_ok (P : NeuralSyncProtocol.t) : Prop :=
  fits (K P) (N P) (L P) (tpm_a P) ∧ fits (K P) (N P) (L P) (tpm_b P) ∧
  (agreements (state P) ≤ round (state P))%nat ∧
  (is_synced (state P) = true →
     weights (tpm_a P) = weights (tpm_b P) ∧
     key_hash (state P)
     = Some (py_slice None (Some 16) (get_key_hex (tpm_a P)))).

(** A round on a protocol that is not synchronised, step by step. *)
Lemma run_round_step X seed P :
  protocol_ok P → shaped (K P) (N P) X → is_synced (state P) = false →
  ∃ ta sa tb sb a' b' p,
    compute_output (tpm_a P) X = Ok (ta, sa) ∧
    compute_output (tpm_b P) X = Ok (tb, sb) ∧
    update_weights X ta tb sa (learning_rule P) (tpm_a P)
    = (Ok (bool_decide (ta = tb)), a') ∧
    update_weights X tb ta sb (learning_rule P) (tpm_b P)
    = (Ok (bool_decide (tb = ta)), b') ∧
    run_round X seed P
    = (Ok (mk_result (S (round (state P))) seed ta tb (bool_decide (ta = tb)) p
             (bool_decide (weights a' = weights b'))),
       after_round P ta tb a' b') ∧
    protocol_ok (after_round P ta tb a' b').
Proof.
  intros (Ha & Hb & Hag & _) HX Hns.
  destruct (compute_output_total _ _ (tpm_a P) X (fits_shaped _ _ _ _ Ha) HX)
    as (ta & sa & Hca & Hla).
  destruct (compute_output_total _ _ (tpm_b P) X (fits_shaped _ _ _ _ Hb) HX)
    as (tb & sb & Hcb & Hlb).
  destruct (update_weights_fits_total _ _ _ X ta tb sa (learning_rule P)
              (tpm_a P) Ha HX Hla) as (a' & Hua & Ha').
  destruct (update_weights_fits_total _ _ _ X tb ta sb (learning_rule P)
              (tpm_b P) Hb HX Hlb) as (b' & Hub & Hb').
  assert (Hok : protocol_ok (after_round P ta tb a' b')).
  { unfold protocol_ok, after_round. simpl. splits; try assumption.
    - destruct (bool_decide (ta = tb)); lia.
    - intros Hwm. apply bool_decide_eq_true in Hwm as Hw.
      rewrite Hwm. now split. }
  destruct (calculate_progress_total (after_round P ta tb a' b')) as (p & Hp);
    [exact Ha' | exact Hb' |].
  exists ta, sa, tb, sb, a', b', p. splits; try assumption.
  rewrite (run_round_run X seed P ta sa tb sb _ a' _ b' Hns Hca Hcb Hua Hub).
  now rewrite Hp.
Qed.

Lemma init_protocol_ok k n l rule mr da db P :
  __init__ k n l rule mr da db = Ok P →
  protocol_ok P ∧ round (state P) = 0%nat ∧ is_synced (state P) = false ∧
  K P = k ∧ N P = n ∧ L P = l ∧ max_rounds P = mr.
Proof.
  unfold __init__. intros H.
  destruct (TreeParityMachine.__init__ k n l da) as [a|e] eqn:Ea;
    [|discriminate].
  destruct (TreeParityMachine.__init__ k n l db) as [b|e] eqn:Eb;
    [|discriminate].
  simpl in H. injection H as <-.
  apply init_inv in Ea as (Ka & Na & La & Wa).
  apply init_inv in Eb as (Kb & Nb & Lb & Wb).
  unfold protocol_ok, fits. simpl. splits; auto. discriminate.
Qed.

(** X3. The protocol keeps its books: a new protocol has two
    well-formed machines, no round and no agreement counted and is
    not synchronised; and every round on an input of the machines'
    shape, whether it returns or raises, leaves both machines
    well-formed, at most as many agreements as rounds, and
    [is_synced] set only when the two weight matrices are equal and
    [key_hash] is the first 16 hexadecimal digits of A's key. *)
Theorem protocol_invariants :
  (∀ k n l rule mr da db P,
      __init__ k n l rule mr da db = Ok P →
      protocol_ok P ∧ round (state P) = 0%nat ∧
      agreements (state P) = 0%nat ∧ is_synced (state P) = false) ∧
  (∀ X seed P r P',
      protocol_ok P → shaped (K P) (N P) X →
      run_round X seed P = (r, P') → protocol_ok P').
Proof.
  split.
  - intros k n l rule mr da db P H.
    destruct (init_protocol_ok _ _ _ _ _ _ _ _ H) as (H1 & H2 & H3 & _).
    splits; auto.
    unfold __init__ in H.
    destruct (TreeParityMachine.__init__ k n l da); [|discriminate].
    destruct (TreeParityMachine.__init__ k n l db); [|discriminate].
    simpl in H. now injection H as <-.
  - intros X seed P r P' Hok HX Hrun.
    destruct (is_synced (state P)) eqn:Hns.
    + rewrite run_round_synced in Hrun by exact Hns.
      now injection Hrun as _ <-.
    + destruct (run_round_step X seed P Hok HX Hns)
        as (ta & sa & tb & sb & a' & b' & p & _ & _ & _ & _ & Hr & Hok').
      rewrite Hr in Hrun. now injection Hrun as _ <-.
Qed.

Lemma protocol_invariants_witness :
  protocol_ok twin_protocol ∧ protocol_ok (run_round input1 7 twin_protocol).2.
Proof.
  assert (H1 : protocol_ok twin_protocol) by by_compute.
  split; [exact H1|].
  apply (proj2 protocol_invariants input1 7 twin_protocol
           (run_round input1 7 twin_protocol).1 (run_round input1 7 twin_protocol).2 H1).
  - by_compute.
  - apply surjective_pairing.
Defined.



(** X5. [generate_input] always yields an input of the protocol's
    shape whose entries are [-1] or [+1], whatever the generator
    gives. *)
Theorem generate_input_is_input P bits :
  is_input (K P) (N P) (generate_input P bits).
Proof.
  unfold generate_input, is_input, shaped, range. splits.
  - now rewrite length_fmap, length_seq.
  - apply Forall_fmap, Forall_true. intros k. simpl.
    now rewrite length_fmap, length_seq.
  - apply Forall_fmap, Forall_true. intros k. simpl.
    apply Forall_fmap, Forall_true. intros n. simpl.
    pose proof (Z.mod_pos_bound (bits k n) 2 eq_refl) as Hb.
    unfold i64_sub, i64_mul.
    rewrite (wrap64_small (bits k n mod 2 * 2))
      by (change (2 ^ 63) with 9223372036854775808; lia).
    rewrite wrap64_small by (change (2 ^ 63) with 9223372036854775808; lia).
    lia.
Qed.

(** The parameters of a protocol, which no round changes. *)
Definition same_config (P P' : NeuralSyncProtocol.t) : Prop :=
  K P' = K P ∧ N P' = N P ∧ L P' = L P ∧
  learning_rule P' = learning_rule P ∧ max_rounds P' = max_rounds P.

Lemma full_sync_loop_spec es : ∀ n P,
  protocol_ok P → (max_rounds P - round (state P) ≤ n)%nat →
  ∃ P', full_sync_loop n es P = (Ok tt, P') ∧
        protocol_ok P' ∧ same_config P P' ∧
        (round (state P) ≤ round (state P'))%nat ∧
        (round (state P') ≤ Nat.max (round (state P)) (max_rounds P))%nat ∧
        (is_synced (state P') = true ∨
         (max_rounds P ≤ round (state P'))%nat) ∧
        (is_synced (state P) = true → P' = P).
Proof.
  induction n as [|n IH]; intros P Hok Hn.
  - exists P. simpl. unfold same_config. splits; auto; lia.
  - cbn [full_sync_loop]. unfold mbind at 1, M_bind at 1, get at 1.
    destruct (is_synced (state P)) eqn:Hns; simpl.
    { exists P. unfold same_config. splits; auto; lia. }
    destruct (bool_decide_reflect (round (state P) < max_rounds P)%nat)
      as [Hlt|Hge].
    2:{ exists P. unfold same_config. splits; auto; lia. }
    unfold run_round_generated.
    unfold mbind at 1, M_bind at 1. unfold mbind at 1, M_bind at 1, get at 1.
    destruct (run_round_step
                (generate_input P (es (round (state P))).2)
                ((es (round (state P))).1 mod 2 ^ 31) P Hok
                (proj1 (generate_input_is_input P _)) Hns)
      as (ta & sa & tb & sb & a' & b' & p & _ & _ & _ & _ & Hr & Hok').
    rewrite Hr.
    destruct (IH (after_round P ta tb a' b') Hok') as
      (P' & Hloop & HP' & (C1 & C2 & C3 & C4 & C5) & Hle & Hmax & Hend & _).
    { simpl. lia. }
    exists P'. simpl in *. unfold same_config.
    splits; auto; try lia; try congruence.
Qed.

(** X6. [run_full_sync] on a well-formed protocol returns, having run
    rounds until the protocol was synchronised or [max_rounds] was
    reached (none at all if it was synchronised already).  It returns
    [is_synced], the number of rounds counted, and A's 32-byte key
    when synchronised, the empty string otherwise; when it reports
    success the two machines have the same weights, so [get_keys]
    gives twice that key. *)
Theorem run_full_sync_result es P :
  protocol_ok P →
  ∃ P',
    run_full_sync es P
    = (Ok (is_synced (state P'), round (state P'),
           if is_synced (state P') then get_key (tpm_a P') 32 else []), P') ∧
    protocol_ok P' ∧
    (is_synced (state P') = true ∨ (max_rounds P ≤ round (state P'))%nat) ∧
    (round (state P) ≤ round (state P'))%nat ∧
    (round (state P') ≤ Nat.max (round (state P)) (max_rounds P))%nat ∧
    (is_synced (state P) = true → P' = P) ∧
    (is_synced (state P') = true →
       weights (tpm_a P') = weights (tpm_b P') ∧
       get_keys P' = (get_key (tpm_a P') 32, get_key (tpm_a P') 32) ∧
       length (get_key (tpm_a P') 32) = 32%nat).
Proof.
  intros Hok.
  destruct (full_sync_loop_spec es (max_rounds P - round (state P)) P Hok)
    as (P' & Hloop & HP' & _ & Hle & Hmax & Hend & Hsame); [lia|].
  exists P'. unfold run_full_sync.
  unfold mbind at 1, M_bind at 1, get at 1.
  rewrite (bind_ok _ _ _ _ _ Hloop).
  splits; auto.
  intros Hs. destruct HP' as (_ & _ & _ & Hw). destruct (Hw Hs) as [Hw' _].
  splits; [exact Hw' | | apply get_key_length].
  unfold get_keys, get_key. now rewrite Hw'.
Qed.

(** A protocol whose machines differ, and the entropy of its rounds. *)
Definition protocol2 : NeuralSyncProtocol.t :=
  mk 2 2 3 hebbian 40 machine1 (TreeParityMachine.mk 2 2 3 [[1; -1]; [0; 3]])
     (mk_state 0 0 false None).
Definition entropy2 (i : nat) : entropy :=
  (Z.of_nat i, λ k n, Z.of_nat (i / 2 ^ (2 * k + n))).

Lemma run_full_sync_result_witness :
  ∃ P', (run_full_sync entropy2 protocol2).2 = P' ∧
        (is_synced (state P') = true ∨ (40 ≤ round (state P'))%nat).
Proof.
  destruct (run_full_sync_result entropy2 protocol2 ltac:(by_compute))
    as (P' & Hr & _ & Hend & _).
  exists P'. split; [now rewrite Hr | exact Hend].
Defined.

End Protocol.

Section Keys.
Import TreeParityMachine.

Definition hex_digits : list ascii := list_ascii_of_string "0123456789abcdef".

Lemma hex_digit_lower d : 0 ≤ d < 16 → hex_digit d ∈ hex_digits.
Proof.
  intros Hd.
  pose proof (for_all_bytes
                (λ d, (16 <=? d) || existsb (Ascii.eqb (hex_digit d)) hex_digits)
                ltac:(vm_compute; reflexivity) d ltac:(lia)) as H.
  apply orb_true_iff in H as [H|H]; [lia|].
  apply existsb_exists in H as (c & Hin & Hc).
  apply Ascii.eqb_eq in Hc as ->. now apply list_elem_of_In.
Qed.

Lemma hex_spec bs :
  length (hex bs) = (2 * length bs)%nat ∧ Forall (λ c, c ∈ hex_digits) (hex bs).
Proof.
  unfold hex. induction bs as [|b bs [IH1 IH2]]; [split; [reflexivity|constructor]|].
  change (mbind ?f (b :: bs)) with (f b ++ mbind f bs).
  pose proof (to_Z_range b) as Hb. split.
  - rewrite length_app, IH1. simpl. lia.
  - apply Forall_app. split; [|exact IH2].
    apply Forall_cons. split;
      [apply hex_digit_lower; Z.div_mod_to_equations; lia|].
    apply Forall_cons. split;
      [apply hex_digit_lower; Z.div_mod_to_equations; lia | constructor].
Qed.

(** X7. [get_key(length)] returns the leading [length] bytes of the
    32-byte digest: [min(length, 32)] bytes for a length that is not
    negative, [max(0, 32 + length)] bytes for a negative one (Python's
    slice); [get_key_hex()] is 64 lower-case hexadecimal digits. *)
Theorem key_sizes t len :
  length (get_key t len)
  = Z.to_nat (if decide (len < 0) then Z.max 0 (32 + len) else Z.min len 32) ∧
  length (get_key_hex t) = 64%nat ∧
  Forall (λ c, c ∈ hex_digits) (get_key_hex t).
Proof.
  splits.
  - unfold get_key, py_slice, slice_index. cbn [from_option].
    rewrite length_take, length_drop, sha256_length.
    destruct (decide (len < 0)); lia.
  - unfold get_key_hex. rewrite (proj1 (hex_spec _)), get_key_length. reflexivity.
  - apply hex_spec.
Qed.

End Keys.


(** ** crypto/encryption.py *)

Section CipherKey.
Import NeuralCipher.

Definition upper_hex_digits : list ascii :=
  list_ascii_of_string "0123456789ABCDEF".

Lemma upper_hex c : c ∈ hex_digits → upper c ∈ upper_hex_digits.
Proof.
  intros H. apply list_elem_of_In in H.
  assert (Hall : forallb (λ c, existsb (Ascii.eqb (upper c)) upper_hex_digits)
                   hex_digits = true) by (vm_compute; reflexivity).
  rewrite forallb_forall in Hall. apply Hall in H.
  apply existsb_exists in H as (d & Hin & Hd).
  apply Ascii.eqb_eq in Hd as ->. now apply list_elem_of_In.
Qed.

Lemma length_string_of_list_ascii l :
  String.length (string_of_list_ascii l) = length l.
Proof. induction l; simpl; congruence. Qed.

Lemma list_ascii_of_string_of_list_ascii l :
  list_ascii_of_string (string_of_list_ascii l) = l.
Proof. induction l; simpl; congruence. Qed.

(** X8. A cipher always holds a key of exactly 32 bytes: the SHA-256
    digest of a key shorter than 32 bytes, the first 32 bytes of any
    other, so that bytes beyond the 32nd never matter.  Its
    fingerprint is 8 upper-case hexadecimal digits. *)
Theorem cipher_key_normalised k :
  length (key (__init__ k)) = 32%nat ∧
  ((length k < 32)%nat → key (__init__ k) = hashlib.sha256 k) ∧
  ((32 ≤ length k)%nat →
     key (__init__ k) = take 32 k ∧
     ∀ more, __init__ (k ++ more) = __init__ k) ∧
  String.length (get_key_fingerprint (__init__ k)) = 8%nat ∧
  Forall (λ c, c ∈ upper_hex_digits)
    (list_ascii_of_string (get_key_fingerprint (__init__ k))).
Proof.
  assert (Hk : (32 ≤ length k)%nat → key (__init__ k) = take 32 k).
  { intros H. unfold __init__. cbn [key].
    rewrite decide_False by lia. now rewrite py_slice_prefix by lia. }
  splits.
  - apply cipher_key_length.
  - intros H. unfold __init__. cbn [key]. rewrite decide_True by exact H.
    rewrite py_slice_prefix by lia. apply take_ge.
    rewrite sha256_length. change (Z.to_nat 32) with 32%nat. lia.
  - intros H. split; [now apply Hk|]. intros more.
    assert (Hm : (32 ≤ length (k ++ more))%nat) by (rewrite length_app; lia).
    unfold __init__. rewrite !decide_False by lia. f_equal.
    rewrite !py_slice_prefix by lia. change (Z.to_nat 32) with 32%nat.
    now rewrite take_app_le by lia.
  - unfold get_key_fingerprint.
    rewrite length_string_of_list_ascii, length_fmap, py_slice_prefix by lia.
    rewrite length_take, (proj1 (hex_spec _)), sha256_length. reflexivity.
  - unfold get_key_fingerprint.
    rewrite list_ascii_of_string_of_list_ascii, py_slice_prefix by lia.
    apply Forall_fmap. eapply Forall_impl.
    + apply Forall_take, hex_spec.
    + intros c Hc. simpl. now apply upper_hex.
Qed.

Lemma cipher_key_normalised_witness :
  __init__ (key1 ++ [x2a; x2b]) = __init__ key1.
Proof.
  destruct (cipher_key_normalised key1) as (_ & _ & H & _).
  destruct H as [_ H]; [vm_compute; lia|]. apply H.
Defined.

End CipherKey.

Section CipherErrors.
Import codecs base64 AES NeuralCipher.

(** [decrypt] has two outcomes: a plaintext or [ValueError]. *)
Lemma decrypt_not_ok self e :
  (∀ m, decrypt self e ≠ Ok m) → decrypt self e = Raise ValueError.
Proof.
  unfold decrypt. cbv zeta.
  destruct (mbind _ _) as [m|x]; [|reflexivity].
  intros H. now destruct (H m).
Qed.

Lemma decrypt_inv self e m :
  decrypt self e = Ok m →
  ∃ raw combined cipher plaintext,
    encode e = Ok raw ∧ b64decode raw = Ok combined ∧
    new (key self) (py_slice None (Some 12) combined) = Ok cipher ∧
    decrypt_and_verify cipher (py_slice (Some 28) None combined)
      (py_slice (Some 12) (Some 28) combined) = Ok plaintext ∧
    decode plaintext = Ok m.
Proof.
  unfold decrypt. cbv zeta.
  destruct (encode e) as [raw|x] eqn:He; run_bind; [|discriminate].
  destruct (b64decode raw) as [combined|x] eqn:Hb; run_bind; [|discriminate].
  destruct (new _ _) as [cipher|x] eqn:Hnew; run_bind; [|discriminate].
  destruct (decrypt_and_verify _ _ _) as [plaintext|x] eqn:Hdv; run_bind;
    [|discriminate].
  destruct (decode plaintext) as [m'|x] eqn:Hd; [|discriminate].
  intros [= <-]. exists raw, combined, cipher, plaintext. now splits.
Qed.

Lemma decrypt_and_verify_inv cipher ciphertext tag plaintext :
  decrypt_and_verify cipher ciphertext tag = Ok plaintext →
  tag = mac (encrypt_block (gcm_key cipher)) (gcm_nonce cipher) ciphertext ∧
  plaintext = crypt (encrypt_block (gcm_key cipher)) (gcm_nonce cipher) ciphertext.
Proof.
  unfold decrypt_and_verify.
  destruct (check_length ciphertext); run_bind; [|discriminate].
  destruct (decide _) as [H|H]; [|discriminate].
  intros [= <-]. now split.
Qed.

Lemma new_inv k nonce cipher :
  new k nonce = Ok cipher → gcm_key cipher = k ∧ gcm_nonce cipher = nonce.
Proof.
  unfold new. repeat destruct (decide _); try discriminate.
  intros [= <-]. now split.
Qed.

(** X9. A blob whose tag is not the one the key, the nonce and the
    ciphertext in it give is rejected: for [base64(nonce ‖ tag ‖
    ciphertext)] with a 12-byte nonce and any 16 bytes other than the
    right tag, [decrypt] raises [ValueError], whatever the ciphertext. *)
Theorem altered_tag_is_rejected k (nonce tag ciphertext : bytes) :
  length nonce = 12%nat → length tag = 16%nat →
  tag ≠ mac (encrypt_block (key (__init__ k))) nonce ciphertext →
  decrypt (__init__ k) (to_Z <$> b64encode (nonce ++ tag ++ ciphertext))
  = Raise ValueError.
Proof.
  intros Hn Ht Hneq. apply decrypt_not_ok. intros m Hm.
  apply decrypt_inv in Hm as (raw & combined & cipher & pt & He & Hb & Hnew & Hdv & _).
  rewrite encode_ascii in He by apply b64encode_ascii. injection He as <-.
  rewrite b64decode_b64encode in Hb. injection Hb as <-.
  destruct (combined_slices nonce tag ciphertext Hn Ht) as (S1 & S2 & S3).
  rewrite S1 in Hnew. rewrite S2, S3 in Hdv.
  apply new_inv in Hnew as [Hk Hno].
  apply decrypt_and_verify_inv in Hdv as [Htag _].
  rewrite Hk, Hno in Htag. contradiction.
Qed.

Lemma altered_tag_is_rejected_witness :
  decrypt (__init__ key1)
    (to_Z <$> b64encode (get_random_bytes 12 entropy1 ++ replicate 16 x00
                         ++ [x01; x02; x03]))
  = Raise ValueError.
Proof.
  apply altered_tag_is_rejected; [reflexivity | reflexivity |].
  vm_compute. discriminate.
Defined.

Lemma py_slice_length {A} (l : list A) (a b : Z) :
  0 ≤ a ≤ b →
  length (py_slice (Some a) (Some b) l)
  = (Nat.min (Z.to_nat b) (length l) - Z.to_nat a)%nat.
Proof.
  intros H. unfold py_slice, slice_index. cbn [from_option].
  rewrite !decide_False by lia. rewrite length_take, length_drop. lia.
Qed.

(** X10. A blob that decodes to fewer than 28 bytes, too short to hold
    a nonce and a tag, is rejected with [ValueError]; so is the empty
    string. *)
Theorem short_blob_is_rejected self e raw combined :
  encode e = Ok raw → b64decode raw = Ok combined →
  (length combined < 28)%nat →
  decrypt self e = Raise ValueError.
Proof.
  intros He Hb Hlen. apply decrypt_not_ok. intros m Hm.
  apply decrypt_inv in Hm as (raw' & combined' & cipher & pt & He' & Hb' & _ & Hdv & _).
  rewrite He in He'. injection He' as <-.
  rewrite Hb in Hb'. injection Hb' as <-.
  apply decrypt_and_verify_inv in Hdv as [Htag _].
  apply (f_equal length) in Htag.
  rewrite mac_length, py_slice_length in Htag by lia. lia.
Qed.

Lemma short_blob_is_rejected_witness :
  decrypt (__init__ key1) [] = Raise ValueError ∧
  decrypt (__init__ key1) (to_Z <$> list_byte_of_string "QUJDRA==")
  = Raise ValueError.
Proof.
  split.
  - apply (short_blob_is_rejected _ [] [] []); [reflexivity | reflexivity |].
    simpl. lia.
  - apply (short_blob_is_rejected _ _ (list_byte_of_string "QUJDRA==")
             (list_byte_of_string "ABCD")); [reflexivity | reflexivity |].
    simpl. lia.
Defined.

End CipherErrors.

Section CipherOutput.
Import codecs base64 AES NeuralCipher.

Lemma Ok_inj {A} (a b : A) : Ok a = Ok b → a = b.
Proof. now intros [=]. Qed.

Lemma b64encode_length s :
  length (b64encode s) = (4 * ((length s + 2) / 3))%nat.
Proof.
  induction s as [|a|a b|a b c s IH] using list_ind3; try reflexivity.
  cbn [b64encode]. cbv zeta. cbn [app length]. rewrite IH.
  replace (S (S (S (length s))) + 2)%nat with (1 * 3 + (length s + 2))%nat by lia.
  rewrite Nat.div_add_l by lia. lia.
Qed.

Lemma encode_raises m : ¬ Forall scalar m → encode m = Raise ValueError.
Proof.
  induction m as [|c m IH]; intros H; [destruct H; constructor|].
  cbn [encode].
  destruct (decide (scalar c)) as [Hc|Hc].
  - destruct (decode_encode_char c [] Hc) as (b & -> & _). run_bind.
    rewrite IH; [reflexivity|]. intros Hm. apply H. now constructor.
  - unfold scalar in Hc. unfold encode_char.
    repeat (destruct (decide _); try lia); reflexivity.
Qed.

(** X11. What [encrypt] returns is ASCII text of
    [4 · ⌈(28 + n) / 3⌉] characters, [n] being the number of bytes of
    the message in UTF-8: 12 bytes of nonce and 16 of tag are added
    and the whole is written in base64. *)
Theorem ciphertext_length self entropy m data e :
  encode m = Ok data → encrypt self entropy m = Ok e →
  length e = (4 * ((length data + 30) / 3))%nat ∧
  Forall (λ c, 0 ≤ c < 128) e.
Proof.
  intros Hdata. unfold encrypt.
  destruct (new _ _) as [cipher|x]; run_bind; [|discriminate].
  rewrite Hdata. run_bind. unfold encrypt_and_digest.
  destruct (check_length data); run_bind; [|discriminate].
  rewrite decode_ascii by apply b64encode_ascii.
  intros He. apply Ok_inj in He. subst e. split.
  - rewrite length_fmap, b64encode_length, !length_app.
    rewrite get_random_bytes_length, mac_length, crypt_length.
    now replace (12 + (16 + length data) + 2)%nat with (length data + 30)%nat by lia.
  - apply Forall_fmap. eapply Forall_impl; [apply b64encode_ascii|].
    intros b Hb. pose proof (to_Z_range b). unfold compose. cbv beta in Hb. lia.
Qed.

Lemma ciphertext_length_witness :
  ∃ e, encrypt (__init__ key1) entropy1 message1 = Ok e ∧ length e = 52%nat.
Proof.
  destruct (encrypt (__init__ key1) entropy1 message1) as [e|x] eqn:He;
    [|vm_compute in He; discriminate].
  exists e. split; [reflexivity|].
  apply (ciphertext_length (__init__ key1) entropy1 message1
           [x68; xc3; xa9; xe2; x82; xac; xf0; x9f; x98; x80] e eq_refl He).
Defined.

(** X12. [encrypt] refuses a string that UTF-8 cannot encode: when
    the message holds a surrogate code point it raises [ValueError]
    ([UnicodeEncodeError]) and returns no ciphertext. *)
Theorem encrypt_rejects_surrogates self entropy m :
  ¬ Forall scalar m → encrypt self entropy m = Raise ValueError.
Proof.
  intros H. unfold encrypt. unfold new.
  destruct (decide _); [reflexivity|].
  destruct (decide _); [reflexivity|].
  run_bind. now rewrite encode_raises.
Qed.

Lemma encrypt_rejects_surrogates_witness :
  encrypt (__init__ key1) entropy1 [104; 55357] = Raise ValueError.
Proof.
  apply encrypt_rejects_surrogates. intros H.
  apply Forall_cons in H as [_ H]. apply Forall_cons in H as [H _].
  unfold scalar in H. lia.
Defined.

End CipherOutput.

